(** * klog: the vmodule filter cache of the v1 compatibility shim

    A shallow embedding of [klog.go]: the [-vmodule] flag parser
    ([vmoduleValue.Set]), the pattern matcher ([modulePat.match],
    [isLiteral]), the call-site cache ([vmoduleGet]), the query [V] and
    the logging calls of its result ([Verbose.Info], [Info], ...).

    Go strings are byte sequences and are modelled as [list ascii].  The
    functions of the Go standard library that the shim calls
    ([strings.Split], [strconv.ParseInt], [path/filepath.Match],
    [unicode/utf8.DecodeRuneInString], ...) are modelled in modules that
    carry the name of their Go package, from the library's own source,
    and so is the part of the engine, [k8s.io/klog/v2], that [InitFlags]
    wires the shim to: the value of its [-vmodule] flag and its [V]. *)

From Stdlib Require Import ZArith Ascii String List Bool Lia.
From stdpp Require Import base option gmap.

Import ListNotations.
Local Open Scope Z_scope.
Local Open Scope list_scope.

(** ** Go strings *)

Abbreviation GoString := (list ascii).

(** A Go string literal. *)
Definition str (s : string) : GoString := list_ascii_of_string s.

(** The numeric value of a byte. *)
Definition byteval (c : ascii) : Z := Z.of_N (N_of_ascii c).

(** [len(s)] as a Go [int]. *)
Definition len {A : Type} (s : list A) : Z := Z.of_nat (length s).

(** [s == t] on strings. *)
Fixpoint streq (s t : GoString) : bool :=
  match s, t with
  | [], [] => true
  | c :: s', d :: t' => Ascii.eqb c d && streq s' t'
  | _, _ => false
  end.

(** ** Outcomes of Go code: a return value or a run-time panic *)

Inductive panic : Type :=
  | IndexOutOfRange (index length : Z)   (* index out of range [i] with length n *)
  | NilMapAssignment.                    (* assignment to entry in nil map *)

Inductive outcome (A : Type) : Type :=
  | Returns (a : A)
  | Panics (p : panic).
Arguments Returns {A} a.
Arguments Panics {A} p.

#[global] Instance outcome_ret : MRet outcome := fun A a => Returns a.
#[global] Instance outcome_bind : MBind outcome := fun A B k m =>
  match m with
  | Returns a => k a
  | Panics p => Panics p
  end.

(** [xs[i]] on a slice: panics when [i] is out of range. *)
Definition index {A : Type} (xs : list A) (i : nat) : outcome A :=
  match nth_error xs i with
  | Some x => Returns x
  | None => Panics (IndexOutOfRange (Z.of_nat i) (len xs))
  end.

(** ** Package [strings] *)

Module strings.

(** [strings.Split(s, sep)] for a separator of one byte, which is how the
    shim calls it ([","] and ["="]): the substrings between the
    occurrences of [sep]; one more element than there are separators. *)
Fixpoint Split (s : GoString) (sep : ascii) : list GoString :=
  match s with
  | [] => [[]]
  | c :: s' =>
      if Ascii.eqb c sep then [] :: Split s' sep
      else match Split s' sep with
           | w :: ws => (c :: w) :: ws
           | [] => [[c]]
           end
  end.

(** [strings.HasSuffix(s, suffix)]:
    [len(s) >= len(suffix) && s[len(s)-len(suffix):] == suffix]. *)
Definition HasSuffix (s suffix : GoString) : bool :=
  (len suffix <=? len s) && streq (skipn (length s - length suffix) s) suffix.

(** [strings.LastIndex(s, substr)] for a substring of one byte
    ([LastIndexByte]): the index of the last occurrence, or -1. *)
Fixpoint LastIndex (s : GoString) (c : ascii) : Z :=
  match s with
  | [] => -1
  | x :: s' =>
      let r := LastIndex s' c in
      if 0 <=? r then r + 1
      else if Ascii.eqb x c then 0 else -1
  end.

(** [strings.ContainsAny(s, chars)] for a set [chars] of ASCII bytes: some
    byte of [s] is one of [chars]. *)
Definition ContainsAny (s chars : GoString) : bool :=
  existsb (fun c => existsb (Ascii.eqb c) chars) s.

(** [strings.Contains(s, substr)] for a substring of one byte. *)
Definition Contains (s : GoString) (c : ascii) : bool :=
  existsb (Ascii.eqb c) s.

End strings.

(** ** Package [unicode/utf8] *)

Module utf8.

Definition RuneError : Z := 65533.   (* U+FFFD *)

Definition locb : Z := 128.  (* 0x80 *)
Definition hicb : Z := 191.  (* 0xBF *)

Definition xx : Z := 241.  (* 0xF1: invalid, size 1 *)
Definition as_ : Z := 240. (* 0xF0: ASCII, size 1 *)
Definition s1 : Z := 2.    (* 0x02: accept 0, size 2 *)
Definition s2 : Z := 19.   (* 0x13: accept 1, size 3 *)
Definition s3 : Z := 3.    (* 0x03: accept 0, size 3 *)
Definition s4 : Z := 35.   (* 0x23: accept 2, size 3 *)
Definition s5 : Z := 52.   (* 0x34: accept 3, size 4 *)
Definition s6 : Z := 4.    (* 0x04: accept 0, size 4 *)
Definition s7 : Z := 68.   (* 0x44: accept 4, size 4 *)

(** The table [first]: information about the first byte of an encoding. *)
Definition first (b : Z) : Z :=
  if b <? 128 then as_          (* 0x00-0x7F *)
  else if b <? 194 then xx      (* 0x80-0xC1 *)
  else if b <? 224 then s1      (* 0xC2-0xDF *)
  else if b =? 224 then s2      (* 0xE0 *)
  else if b <? 237 then s3      (* 0xE1-0xEC *)
  else if b =? 237 then s4      (* 0xED *)
  else if b <? 240 then s3      (* 0xEE-0xEF *)
  else if b =? 240 then s5      (* 0xF0 *)
  else if b <? 244 then s6      (* 0xF1-0xF3 *)
  else if b =? 244 then s7      (* 0xF4 *)
  else xx.                      (* 0xF5-0xFF *)

(** The table [acceptRanges]: the range of valid second bytes. *)
Definition acceptRanges (i : Z) : Z * Z :=
  if i =? 0 then (locb, hicb)
  else if i =? 1 then (160, hicb)
  else if i =? 2 then (locb, 159)
  else if i =? 3 then (144, hicb)
  else if i =? 4 then (locb, 143)
  else (0, 0).

Definition mask2 : Z := 31.
Definition mask3 : Z := 15.
Definition mask4 : Z := 7.
Definition maskx : Z := 63.

(** [utf8.DecodeRuneInString(s)]: the first rune of [s] and its width in
    bytes; [(RuneError, 0)] on the empty string and [(RuneError, 1)] on
    an invalid encoding. *)
Definition DecodeRuneInString (s : GoString) : Z * nat :=
  match s with
  | [] => (RuneError, 0%nat)
  | c0 :: t0 =>
      let b0 := byteval c0 in
      let x := first b0 in
      if as_ <=? x then
        ((if Z.testbit x 0 then RuneError else b0), 1%nat)
      else
        let sz := Z.land x 7 in
        let accept := acceptRanges (Z.shiftr x 4) in
        if len s <? sz then (RuneError, 1%nat)
        else
          match t0 with
          | [] => (RuneError, 1%nat)
          | c1 :: t1 =>
              let b1 := byteval c1 in
              if (b1 <? fst accept) || (snd accept <? b1) then (RuneError, 1%nat)
              else if sz <=? 2 then
                (Z.lor (Z.shiftl (Z.land b0 mask2) 6) (Z.land b1 maskx), 2%nat)
              else
                match t1 with
                | [] => (RuneError, 1%nat)
                | c2 :: t2 =>
                    let b2 := byteval c2 in
                    if (b2 <? locb) || (hicb <? b2) then (RuneError, 1%nat)
                    else if sz <=? 3 then
                      (Z.lor (Z.lor (Z.shiftl (Z.land b0 mask3) 12)
                                    (Z.shiftl (Z.land b1 maskx) 6))
                             (Z.land b2 maskx), 3%nat)
                    else
                      match t2 with
                      | [] => (RuneError, 1%nat)
                      | c3 :: _ =>
                          let b3 := byteval c3 in
                          if (b3 <? locb) || (hicb <? b3) then (RuneError, 1%nat)
                          else
                            (Z.lor (Z.lor (Z.lor (Z.shiftl (Z.land b0 mask4) 18)
                                                 (Z.shiftl (Z.land b1 maskx) 12))
                                          (Z.shiftl (Z.land b2 maskx) 6))
                                   (Z.land b3 maskx), 4%nat)
                      end
                end
          end
  end.

End utf8.

(** ** Package [strconv] *)

Module strconv.

Inductive NumError : Type :=
  | ErrSyntax    (* invalid syntax *)
  | ErrRange.    (* value out of range *)

Definition maxUint64 : Z := 2 ^ 64 - 1.

(** [lower(c)]: [c | ('x' - 'X')]. *)
Definition lower (c : Z) : Z := Z.lor c 32.

(** The loop of [ParseUint] over the bytes of [s], with [n] the value
    read so far ([base0] is false: underscores are not accepted). *)
Fixpoint ParseUint_loop (base cutoff maxVal : Z) (s : GoString) (n : Z)
  : Z * option NumError :=
  match s with
  | [] => (n, None)
  | ch :: s' =>
      let c := byteval ch in
      let d := if (48 <=? c) && (c <=? 57) then Some (c - 48)
               else if (97 <=? lower c) && (lower c <=? 122)
                    then Some (lower c - 97 + 10)
                    else None in
      match d with
      | None => (0, Some ErrSyntax)
      | Some d =>
          if base <=? d then (0, Some ErrSyntax)
          else if cutoff <=? n then (maxVal, Some ErrRange)   (* n*base overflows *)
          else
            let n' := (n * base) mod 2 ^ 64 in
            let n1 := (n' + d) mod 2 ^ 64 in
            if (n1 <? n') || (maxVal <? n1) then (maxVal, Some ErrRange)
            else ParseUint_loop base cutoff maxVal s' n1
      end
  end.

(** [strconv.ParseUint(s, base, bitSize)] for [2 <= base <= 36] and
    [0 < bitSize <= 64]. *)
Definition ParseUint (s : GoString) (base bitSize : Z) : Z * option NumError :=
  match s with
  | [] => (0, Some ErrSyntax)
  | _ =>
      let cutoff := maxUint64 / base + 1 in
      let maxVal := 2 ^ bitSize - 1 in
      ParseUint_loop base cutoff maxVal s 0
  end.

(** [strconv.ParseInt(s, base, bitSize)] for [2 <= base <= 36] and
    [0 < bitSize <= 64]. *)
Definition ParseInt (s : GoString) (base bitSize : Z) : Z * option NumError :=
  match s with
  | [] => (0, Some ErrSyntax)
  | c0 :: s' =>
      let '(neg, s1) :=
        if Ascii.eqb c0 "+" then (false, s')
        else if Ascii.eqb c0 "-" then (true, s')
        else (false, s) in
      let '(un, err) := ParseUint s1 base bitSize in
      match err with
      | Some ErrSyntax => (0, Some ErrSyntax)
      | _ =>
          let cutoff := 2 ^ (bitSize - 1) in
          if negb neg && (cutoff <=? un) then (cutoff - 1, Some ErrRange)
          else if neg && (cutoff <? un) then (- cutoff, Some ErrRange)
          else ((if neg then - un else un), None)
      end
  end.

End strconv.

(** ** Package [path/filepath] (Unix: [Separator] is ['/'], and a
    backslash escapes the next byte) *)

Module filepath.

Definition Separator : ascii := "/".

(** What [matchChunk] returns: [(rest, true, nil)], [("", false, nil)] or
    [("", false, ErrBadPattern)]. *)
Inductive chunkResult : Type :=
  | Matched (rest : GoString)
  | NoMatch
  | BadPattern.

(** The first loop of [scanChunk]: the leading stars are dropped. *)
Fixpoint stripStars (pattern : GoString) : bool * GoString :=
  match pattern with
  | c :: pattern' =>
      if Ascii.eqb c "*" then (true, snd (stripStars pattern'))
      else (false, pattern)
  | [] => (false, [])
  end.

(** The loop labelled [Scan] of [scanChunk]: the index [i] at which the
    scan stops, at the first star outside a bracket expression. *)
Fixpoint scanLoop (pattern : GoString) (inrange : bool) : nat :=
  match pattern with
  | [] => 0
  | c :: pattern' =>
      if Ascii.eqb c "\" then
        match pattern' with
        | [] => 1
        | _ :: pattern'' => 2 + scanLoop pattern'' inrange
        end
      else if Ascii.eqb c "[" then 1 + scanLoop pattern' true
      else if Ascii.eqb c "]" then 1 + scanLoop pattern' false
      else if Ascii.eqb c "*" then
        if inrange then 1 + scanLoop pattern' inrange else 0
      else 1 + scanLoop pattern' inrange
  end%nat.

(** [scanChunk(pattern)]: the next segment of the pattern, a string
    without a star, possibly preceded by a star. *)
Definition scanChunk (pattern : GoString) : bool * GoString * GoString :=
  let '(star, pattern) := stripStars pattern in
  let i := scanLoop pattern false in
  (star, firstn i pattern, skipn i pattern).

(** [getEsc(chunk)]: a possibly escaped character of a character class;
    the third component tells that [err] is [ErrBadPattern]. *)
Definition getEsc (chunk : GoString) : Z * GoString * bool :=
  match chunk with
  | [] => (0, [], true)
  | c :: rest =>
      if Ascii.eqb c "-" || Ascii.eqb c "]" then (0, [], true)
      else if Ascii.eqb c "\" && (len rest =? 0) then (0, [], true)
      else
        let chunk := if Ascii.eqb c "\" then rest else chunk in
        let '(r, n) := utf8.DecodeRuneInString chunk in
        let err := (r =? utf8.RuneError) && (n =? 1)%nat in
        let nchunk := skipn n chunk in
        (r, nchunk, err || (len nchunk =? 0))
  end.

(** The loop of [matchChunk] that reads the ranges of a character class,
    up to its closing bracket; [r] is the rune of the name that the
    class is matched against.  [Some None] is [ErrBadPattern]; [None]
    is the end of the fuel. *)
Fixpoint classLoop (fuel : nat) (r : Z) (chunk : GoString)
    (match_ : bool) (nrange : Z) : option (option (GoString * bool)) :=
  match fuel with
  | O => None
  | S fuel' =>
      let closing :=
        match chunk with
        | c :: chunk' =>
            if Ascii.eqb c "]" && (0 <? nrange) then Some chunk' else None
        | [] => None
        end in
      match closing with
      | Some chunk' => Some (Some (chunk', match_))
      | None =>
          let '(lo, chunk, err) := getEsc chunk in
          if err then Some None
          else
            let dash :=
              match chunk with
              | c :: chunk' => if Ascii.eqb c "-" then Some chunk' else None
              | [] => None
              end in
            match dash with
            | Some chunk' =>
                let '(hi, chunk, err) := getEsc chunk' in
                if err then Some None
                else classLoop fuel' r chunk
                       (match_ || ((lo <=? r) && (r <=? hi))) (nrange + 1)
            | None =>
                classLoop fuel' r chunk
                  (match_ || ((lo <=? r) && (r <=? lo))) (nrange + 1)
            end
      end
  end.

(** The loop of [matchChunk(chunk, s)], with the flag [failed]. *)
Fixpoint matchChunk_loop (fuel : nat) (chunk s : GoString) (failed : bool)
  : option chunkResult :=
  match fuel with
  | O => None
  | S fuel' =>
      match chunk with
      | [] => Some (if failed then NoMatch else Matched s)
      | c :: chunk' =>
          let failed := failed || (len s =? 0) in
          if Ascii.eqb c "[" then
            (* character class *)
            let '(r, s) :=
              if failed then (0, s)
              else let '(r, n) := utf8.DecodeRuneInString s in (r, skipn n s) in
            let '(negated, chunk) :=
              match chunk' with
              | c1 :: chunk'' =>
                  if Ascii.eqb c1 "^" then (true, chunk'') else (false, chunk')
              | [] => (false, chunk')
              end in
            match classLoop fuel' r chunk false 0 with
            | None => None
            | Some None => Some BadPattern
            | Some (Some (chunk, match_)) =>
                matchChunk_loop fuel' chunk s
                  (failed || Bool.eqb match_ negated)
            end
          else if Ascii.eqb c "?" then
            if failed then matchChunk_loop fuel' chunk' s failed
            else
              match s with
              | s0 :: _ =>
                  let '(_, n) := utf8.DecodeRuneInString s in
                  matchChunk_loop fuel' chunk' (skipn n s)
                    (Ascii.eqb s0 Separator)
              | [] => matchChunk_loop fuel' chunk' s true
              end
          else if Ascii.eqb c "\" && (len chunk' =? 0) then Some BadPattern
          else
            (* a literal byte, after the backslash if there is one *)
            match (if Ascii.eqb c "\" then chunk' else chunk) with
            | d :: chunk'' =>
                if failed then matchChunk_loop fuel' chunk'' s failed
                else
                  match s with
                  | s0 :: s' =>
                      matchChunk_loop fuel' chunk'' s' (negb (Ascii.eqb d s0))
                  | [] => matchChunk_loop fuel' chunk'' s true
                  end
            | [] => Some BadPattern
            end
      end
  end.

(** [matchChunk(chunk, s)]: whether [chunk] matches the beginning of [s],
    and the remainder of [s] if so.  Every iteration consumes a byte of
    the chunk, so the fuel is enough (lemma [matchChunk_loop_fuel]). *)
Definition matchChunk (chunk s : GoString) : chunkResult :=
  match matchChunk_loop (S (length chunk)) chunk s false with
  | Some r => r
  | None => BadPattern
  end.

(** What the loop of [Match] over the positions after a star finds. *)
Inductive starResult : Type :=
  | StarFound (rest : GoString)    (* name = t; continue Pattern *)
  | StarBad                        (* return false, err *)
  | StarNone.                      (* the loop ends *)

(** [for i := 0; i < len(name) && name[i] != Separator; i++]: look for a
    match of [chunk] at [name[i+1:]]; [last] is [len(pattern) == 0]. *)
Fixpoint starLoop (chunk : GoString) (last : bool) (name : GoString)
  : starResult :=
  match name with
  | [] => StarNone
  | c :: name' =>
      if Ascii.eqb c Separator then StarNone
      else
        match matchChunk chunk name' with
        | Matched t =>
            if last && (0 <? len t) then starLoop chunk last name'
            else StarFound t
        | BadPattern => StarBad
        | NoMatch => starLoop chunk last name'
        end
  end.

(** The loop labelled [Pattern] of [Match]; the result is [matched] and
    whether [err] is [ErrBadPattern]. *)
Fixpoint Match_loop (fuel : nat) (pattern name : GoString)
  : option (bool * bool) :=
  match fuel with
  | O => None
  | S fuel' =>
      match pattern with
      | [] => Some (len name =? 0, false)
      | _ =>
          let '(star, chunk, pattern) := scanChunk pattern in
          if star && (len chunk =? 0) then
            (* a trailing star matches the rest, unless it has a separator *)
            Some (negb (strings.Contains name Separator), false)
          else
            let tryStar (_ : unit) :=
              if star then
                match starLoop chunk (len pattern =? 0) name with
                | StarFound t => Match_loop fuel' pattern t
                | StarBad => Some (false, true)
                | StarNone => Some (false, false)
                end
              else Some (false, false) in
            match matchChunk chunk name with
            | Matched t =>
                if (len t =? 0) || (0 <? len pattern)
                then Match_loop fuel' pattern t
                else tryStar tt
            | BadPattern => Some (false, true)
            | NoMatch => tryStar tt
            end
      end
  end.

(** [filepath.Match(pattern, name)].  Every iteration consumes a byte of
    the pattern, so the fuel is enough (lemma [Match_loop_fuel]). *)
Definition Match (pattern name : GoString) : bool * bool :=
  match Match_loop (S (length pattern)) pattern name with
  | Some r => r
  | None => (false, true)
  end.

End filepath.

(** ** The shim: [klog.go] *)

(** [Level] is [klogv2.Level], an [int32]; a program counter is a
    [uintptr]. *)
Abbreviation Level := Z.
Abbreviation uintptr := N.

Definition minInt32 : Z := - 2 ^ 31.
Definition maxInt32 : Z := 2 ^ 31 - 1.

(** The conversion [Level(v)] of an [int64] to [int32]. *)
Definition Level_of_int64 (v : Z) : Level := (v + 2 ^ 31) mod 2 ^ 32 - 2 ^ 31.

(** [modulePat] contains a filter for the [-vmodule] flag: a verbosity
    level and a file pattern to match. *)
Record modulePat : Type := mkModulePat {
  pattern : GoString;
  literal : bool;       (* The pattern is a literal string *)
  level : Level
}.

(** [(m *modulePat) match(file)]: whether the file matches the pattern;
    a string comparison if the pattern contains no metacharacters. *)
Definition modulePat_match (m : modulePat) (file : GoString) : bool :=
  if literal m then streq file (pattern m)
  else fst (filepath.Match (pattern m) file).

(** [isLiteral(pattern)]: the pattern has no metacharacters that require
    [filepath.Match] to be called. *)
Definition isLiteral (pattern : GoString) : bool :=
  negb (strings.ContainsAny pattern (str "\*?[]")).

(** The variable [global]: the filter and the cache of pc -> Level.  A Go
    map is [nil] until it is made; reading a nil map finds nothing and
    assigning to it panics. *)
Record global : Type := mkGlobal {
  vModuleFilter : list modulePat;
  vModuleCache : option (gmap uintptr Level)
}.

(** The zero value that [global] has when the program starts. *)
Definition global_init : global :=
  {| vModuleFilter := []; vModuleCache := None |}.

(** [v, ok := m[pc]] *)
Definition mapaccess (m : option (gmap uintptr Level)) (pc : uintptr)
  : option Level :=
  match m with
  | Some m => m !! pc
  | None => None
  end.

(** [m[pc] = v] *)
Definition mapassign (m : option (gmap uintptr Level)) (pc : uintptr)
    (v : Level) : outcome (option (gmap uintptr Level)) :=
  match m with
  | Some m => Returns (Some (<[pc := v]> m))
  | None => Panics NilMapAssignment
  end.

(** The loop of [vmoduleValue.Set] over the segments of the value:
    [filter] is the slice built so far. *)
Fixpoint Set_loop (pats : list GoString) (filter : list modulePat)
  : outcome (list modulePat) :=
  match pats with
  | [] => Returns filter
  | pat :: pats' =>
      if len pat =? 0 then
        (* Empty strings such as from a trailing comma can be ignored. *)
        Set_loop pats' filter
      else
        let patLev := strings.Split pat "=" in
        pattern ← index patLev 0;
        lev ← index patLev 1;
        let '(v, _) := strconv.ParseInt lev 10 32 in
        if v =? 0 then
          Set_loop pats' filter   (* Ignore. *)
        else
          Set_loop pats'
            (filter ++ [mkModulePat pattern (isLiteral pattern) (Level_of_int64 v)])
  end.

(** The statements of [vmoduleGet] that turn the file of the call site,
    something like [/a/b/c/d.go], into just the [d]. *)
Definition trimFile (file : GoString) : GoString :=
  let file :=
    if strings.HasSuffix file (str ".go")
    then firstn (Z.to_nat (len file - 3)) file
    else file in
  let slash := strings.LastIndex file "/" in
  if 0 <=? slash then skipn (Z.to_nat (slash + 1)) file else file.

(** The loop of [vmoduleGet] over [global.vModuleFilter]: the level of
    the first filter that matches, if there is one. *)
Fixpoint firstMatch (filters : list modulePat) (file : GoString)
  : option Level :=
  match filters with
  | [] => None
  | filter :: filters' =>
      if modulePat_match filter file then Some (level filter)
      else firstMatch filters' file
  end.

Section Shim.

(** The collaborators of the shim: the state of the engine that it
    forwards to ([k8s.io/klog/v2]) with the errors it reports, the flag
    value that [vmoduleValue] wraps, the engine's own verbosity check
    and the symbol table of the program. *)
Context {Engine Err : Type}.
Variable inner_Set : GoString -> Engine -> option Err * Engine.
                                      (* m.inner.Set(value) *)
Variable v2_V_Enabled : Level -> Engine -> bool.
                                      (* klogv2.V(level).Enabled() *)
Variable FileLine : uintptr -> GoString.
                                      (* runtime.FuncForPC(pc).FileLine(pc) *)

Record world : Type := mkWorld {
  engine : Engine;
  vmodule : global
}.

(** [(m *vmoduleValue) Set(value)].
    Syntax: [-vmodule=recordio=2,file=1,gfs*=3] *)
Definition vmoduleValue_Set (value : GoString) (w : world)
  : outcome (option Err * world) :=
  let '(err, e) := inner_Set value (engine w) in
  match err with
  | Some err => Returns (Some err, mkWorld e (vmodule w))
  | None =>
      filter ← Set_loop (strings.Split value ",") [];
      Returns (None, mkWorld e
                 {| vModuleFilter := filter; vModuleCache := Some ∅ |})
  end.

(** [vmoduleGet(pc)]: the loglevel of the [-vmodule=] rule associated
    with the program counter; 0 if no rule matches. *)
Definition vmoduleGet (pc : uintptr) (g : global) : outcome (Level * global) :=
  match mapaccess (vModuleCache g) pc with
  | Some v => Returns (v, g)
  | None =>
      let file := trimFile (FileLine pc) in
      let v := match firstMatch (vModuleFilter g) file with
               | Some l => l
               | None => 0
               end in
      cache ← mapassign (vModuleCache g) pc v;
      Returns (v, {| vModuleFilter := vModuleFilter g; vModuleCache := cache |})
  end.

(** [V(level)]: whether verbosity at the call site is at least the
    requested level.  [caller] is what [runtime.Callers(2, pcs[:])]
    finds: the program counter of the call site, or nothing. *)
Definition V (level : Level) (caller : option uintptr) (w : world)
  : outcome (bool * world) :=
  if v2_V_Enabled level (engine w) then Returns (true, w)
  else
    match caller with
    | None => Returns (false, w)
    | Some pc =>
        '(verbosity, g) ← vmoduleGet pc (vmodule w);
        Returns (level <=? verbosity, mkWorld (engine w) g)
    end.

End Shim.

Arguments world : clear implicits.

(** *** Logging through [Verbose] *)

Section Forwarding.

(** The arguments of a logging call are formatted by package [fmt], and
    the line goes to the engine. *)
Context {Engine Arg : Type}.
Variable Sprint : list Arg -> GoString.        (* fmt.Sprint(args...) *)
Variable Sprintln : list Arg -> GoString.      (* fmt.Sprintln(args...) *)
Variable Sprintf : GoString -> list Arg -> GoString.
                                               (* fmt.Sprintf(format, args...) *)
Variable v2_InfoDepth : Z -> GoString -> Engine -> Engine.
                                               (* klogv2.InfoDepth(depth, msg) *)

(** [Info(args...)], [Infoln(args...)] and [Infof(format, args...)]. *)
Definition Info (args : list Arg) (e : Engine) : Engine :=
  v2_InfoDepth 1 (Sprint args) e.

Definition Infoln (args : list Arg) (e : Engine) : Engine :=
  v2_InfoDepth 1 (Sprintln args) e.

Definition Infof (format : GoString) (args : list Arg) (e : Engine) : Engine :=
  v2_InfoDepth 1 (Sprintf format args) e.

(** [(v Verbose) Info(args...)] and its relatives: the global function,
    guarded by the value of [v]. *)
Definition Verbose_Info (v : bool) (args : list Arg) (e : Engine) : Engine :=
  if v then v2_InfoDepth 1 (Sprint args) e else e.

Definition Verbose_Infoln (v : bool) (args : list Arg) (e : Engine) : Engine :=
  if v then v2_InfoDepth 1 (Sprintln args) e else e.

Definition Verbose_Infof (v : bool) (format : GoString) (args : list Arg)
    (e : Engine) : Engine :=
  if v then v2_InfoDepth 1 (Sprintf format args) e else e.

End Forwarding.

(** [strings.Join(elems, sep)] for a separator of one byte: used to write
    down configuration strings from their segments. *)
Fixpoint Join (elems : list GoString) (sep : ascii) : GoString :=
  match elems with
  | [] => []
  | [e] => e
  | e :: elems' => e ++ sep :: Join elems' sep
  end.

(** The filter that [vmoduleValue.Set] builds from [value], before it
    takes the lock. *)
Definition Set_filter (value : GoString) : outcome (list modulePat) :=
  Set_loop (strings.Split value ",") [].

(** The level that the filter gives to a file: 0 if no rule matches. *)
Definition filterLevel (filters : list modulePat) (file : GoString) : Level :=
  match firstMatch filters file with
  | Some l => l
  | None => 0
  end.

(** Two simple flag values to wrap: one that accepts every string, and
    one that rejects every string with the error [tt]. *)
Definition accept_all (value : GoString) (e : unit) : option unit * unit :=
  (None, e).
Definition reject_all (value : GoString) (e : unit) : option unit * unit :=
  (Some tt, e).
Definition never_enabled (l : Level) (e : unit) : bool := false.

(** ** Package [k8s.io/klog/v2]: the engine

    [InitFlags] (klog.go, lines 164-173) has the engine register its
    flags and wraps the value of the engine's own [-vmodule] flag: in
    the program the [inner] of a [vmoduleValue] is the engine's
    [*moduleSpec], and the [klogv2.V] that [V] asks is called from
    [klog.go].  This module has the two, from the source of the
    engine.  The engine's [modulePat], [match] and [isLiteral] are the
    ones of the shim, word for word, and so are the statements of its
    [setV] that shorten the file name.  Of the engine's [logging] the
    module keeps the fields that decide what [V] returns; [vmap], where
    the engine keeps what [setV] has computed until the filter is set
    again, is left out. *)

Module klogv2.

(** The messages of the two errors of [moduleSpec.Set]. *)
Definition errVmoduleSyntax : GoString :=
  str "syntax error: expect comma-separated list of filename=N".

Definition errNegativeLevel : GoString :=
  str "negative value for vmodule level".

Record loggingT : Type := mkLogging {
  verbosity : Level;               (* V logging level, the value of the -v flag *)
  filterLength : Z;                (* length of the vmodule filter, an int32 *)
  vmoduleFilter : list modulePat   (* vmodule.filter *)
}.

(** The engine when the program starts: [-v=0] and no [-vmodule]. *)
Definition logging_init : loggingT :=
  {| verbosity := 0; filterLength := 0; vmoduleFilter := [] |}.

(** [l.setVState(verbosity, filter, setFilter)]: the state it leaves. *)
Definition setVState (verbosity : Level) (filter : list modulePat)
    (setFilter : bool) (l : loggingT) : loggingT :=
  {| verbosity := verbosity;
     filterLength := Level_of_int64 (len filter);
     vmoduleFilter := if setFilter then filter else vmoduleFilter l |}.

(** The loop of [moduleSpec.Set] over the segments of the value: an
    error, or the filter. *)
Fixpoint moduleSpec_Set_loop (pats : list GoString) (filter : list modulePat)
  : GoString + list modulePat :=
  match pats with
  | [] => inr filter
  | pat :: pats' =>
      if len pat =? 0 then
        (* Empty strings such as from a trailing comma can be ignored. *)
        moduleSpec_Set_loop pats' filter
      else
        match strings.Split pat "=" with
        | [pattern; lev] =>
            if (len pattern =? 0) || (len lev =? 0) then inl errVmoduleSyntax
            else
              let '(v, err) := strconv.ParseInt lev 10 32 in
              match err with
              | Some _ => inl errVmoduleSyntax
              | None =>
                  if v <? 0 then inl errNegativeLevel
                  else if v =? 0 then
                    moduleSpec_Set_loop pats' filter   (* Ignore. *)
                  else
                    moduleSpec_Set_loop pats'
                      (filter ++ [mkModulePat pattern (isLiteral pattern)
                                    (Level_of_int64 v)])
              end
        | _ => inl errVmoduleSyntax   (* len(patLev) != 2 *)
        end
  end.

(** [(m *moduleSpec) Set(value)].
    Syntax: [-vmodule=recordio=2,file=1,gfs*=3] *)
Definition moduleSpec_Set (value : GoString) (l : loggingT)
  : option GoString * loggingT :=
  match moduleSpec_Set_loop (strings.Split value ",") [] with
  | inl err => (Some err, l)
  | inr filter => (None, setVState (verbosity l) filter true l)
  end.

(** [l.setV(pc)]: the V level for a given PC when vmodule is enabled. *)
Definition setV (FileLine : uintptr -> GoString) (pc : uintptr) (l : loggingT)
  : Level :=
  filterLevel (vmoduleFilter l) (trimFile (FileLine pc)).

(** [V(level).Enabled()]; [caller] is what the engine's
    [runtime.Callers(2, logging.pcs[:])] finds: the function that
    called [klogv2.V]. *)
Definition V_Enabled (FileLine : uintptr -> GoString) (level : Level)
    (caller : option uintptr) (l : loggingT) : bool :=
  if level <=? verbosity l then true
  else if 0 <? filterLength l then
    match caller with
    | None => false
    | Some pc => level <=? setV FileLine pc l
    end
  else false.

End klogv2.

(** The engine's check as [V] of [klog.go] reaches it: the caller that
    the engine finds is [V] itself, at the program counter [pcV]. *)
Definition wired_V_Enabled (FileLine : uintptr -> GoString) (pcV : uintptr)
    (level : Level) (e : klogv2.loggingT) : bool :=
  klogv2.V_Enabled FileLine level (Some pcV) e.

(** A decimal digit, and the value of a string of decimal digits. *)
Definition isDigit (c : ascii) : bool :=
  (48 <=? byteval c) && (byteval c <=? 57).

Definition digitsValue (ds : GoString) : Z :=
  fold_left (fun n c => n * 10 + (byteval c - 48)) ds 0.

(** A level text without its sign. *)
Definition unsignedPart (t : GoString) : GoString :=
  match t with
  | c :: t' => if Ascii.eqb c "+" || Ascii.eqb c "-" then t' else t
  | [] => []
  end.

(** A level text with invalid syntax: after the sign there is nothing, or
    there is a byte that is not a decimal digit, and the digits before it
    do not exceed the largest 32-bit unsigned number. *)
Inductive malformedLevel (t : GoString) : Prop :=
  | malformed_empty :
      unsignedPart t = [] -> malformedLevel t
  | malformed_byte (ds : GoString) (c : ascii) (rest : GoString) :
      unsignedPart t = ds ++ c :: rest ->
      forallb isDigit ds = true -> isDigit c = false ->
      digitsValue ds <= 2 ^ 32 - 1 ->
      malformedLevel t.

(** ** [strconv.ParseInt] with base 10 and 32 bits, in pieces *)

(** The constants [cutoff] and [maxVal] of [ParseUint] for this base and
    this size. *)
Abbreviation cutoff10 := (strconv.maxUint64 / 10 + 1).
Abbreviation maxVal32 := (2 ^ 32 - 1).

(** The value of digits read after [n]. *)
Definition digitsFrom (n : Z) (ds : GoString) : Z :=
  fold_left (fun n c => n * 10 + (byteval c - 48)) ds n.

(** [ParseInt] after the sign has been picked off. *)
Definition ParseInt_signed (neg : bool) (s1 : GoString) : Z * option strconv.NumError :=
  let '(un, err) := strconv.ParseUint s1 10 32 in
  match err with
  | Some strconv.ErrSyntax => (0, Some strconv.ErrSyntax)
  | _ =>
      let cutoff := 2 ^ (32 - 1) in
      if negb neg && (cutoff <=? un) then (cutoff - 1, Some strconv.ErrRange)
      else if neg && (cutoff <? un) then (- cutoff, Some strconv.ErrRange)
      else ((if neg then - un else un), None)
  end.

(** ** The runs of the shim *)

Section Runs.

Context {Engine Err : Type}.
Variable inner_Set : GoString -> Engine -> option Err * Engine.
Variable v2_V_Enabled : Level -> Engine -> bool.
Variable FileLine : uintptr -> GoString.

Abbreviation Set_ := (vmoduleValue_Set inner_Set).
Abbreviation Get_ := (vmoduleGet FileLine).
Abbreviation V_ := (V v2_V_Enabled FileLine).

(** The level that the current filter gives to a call site. *)
Definition siteLevel (g : global) (pc : uintptr) : Level :=
  filterLevel (vModuleFilter g) (trimFile (FileLine pc)).

(** Every entry of the cache holds the level that the current filter
    gives to its call site. *)
Definition cache_consistent (g : global) : Prop :=
  forall pc v, mapaccess (vModuleCache g) pc = Some v -> v = siteLevel g pc.

(** The calls that do not update the filter: [V], the [vmoduleGet]
    inside it, and every other call of the package, which is forwarded
    to the engine. *)
Inductive query_step : world Engine -> world Engine -> Prop :=
  | query_V level caller w b w' :
      V_ level caller w = Returns (b, w') -> query_step w w'
  | query_Get pc w l g :
      Get_ pc (vmodule w) = Returns (l, g) ->
      query_step w (mkWorld (engine w) g)
  | query_engine e w :
      query_step w (mkWorld e (vmodule w)).

Inductive step : world Engine -> world Engine -> Prop :=
  | step_Set value w r w' :
      Set_ value w = Returns (r, w') -> step w w'
  | step_query w w' :
      query_step w w' -> step w w'.

(** The states of a run, from the zero value of [global]. *)
Inductive reachable : world Engine -> Prop :=
  | reachable_init e : reachable (mkWorld e global_init)
  | reachable_step w w' : reachable w -> step w w' -> reachable w'.

(** The state right after an update, and after any queries. *)
Definition updated (filter : list modulePat) (g : global) : Prop :=
  vModuleFilter g = filter
  /\ (exists m, vModuleCache g = Some m)
  /\ cache_consistent g.

End Runs.

(** ** A small program *)

(** A symbol table: the call site 1 is in [/src/pkg/abc.go], the call
    site 2 in [/src/pkg/gopherflakes.go], every other one in [main.go]. *)
Definition demoFileLine (pc : uintptr) : GoString :=
  if (pc =? 1)%N then str "/src/pkg/abc.go"
  else if (pc =? 2)%N then str "/src/pkg/gopherflakes.go"
  else str "main.go".

Definition demoWorld (filter : list modulePat) : world unit :=
  mkWorld tt (mkGlobal filter (Some ∅)).

(** The program after [InitFlags]: the flag value that is wrapped is
    the engine's, the engine starts with [-v=0], and the call of
    [klogv2.V] in [klog.go] is the call site 0. *)
Definition pcV : uintptr := 0%N.


Definition programInit : world klogv2.loggingT :=
  mkWorld klogv2.logging_init global_init.

Definition program_Set (value : GoString) (w : world klogv2.loggingT)
  : outcome (option GoString * world klogv2.loggingT) :=
  vmoduleValue_Set klogv2.moduleSpec_Set value w.


(** The set-up of the tests of the repository about [-vmodule]: the
    program after [InitFlags], with every call site but the one of
    [klog.go] in the file of the tests.  [runV] sets the spec and asks
    [V(level)] there. *)
Definition testFileLine (pc : uintptr) : GoString :=
  if (pc =? pcV)%N then str "/go/src/k8s.io/klog/klog.go"
  else str "/go/src/k8s.io/klog/klog_test.go".

Definition runV (spec : GoString) (level : Level) : option bool :=
  match program_Set spec programInit with
  | Returns (None, w) =>
      match V (wired_V_Enabled testFileLine pcV) testFileLine level (Some 1%N) w with
      | Returns (b, _) => Some b
      | Panics _ => None
      end
  | _ => None
  end.

(** ** Shell-style globs, as the specification words them

    A second definition of what a pattern matches, written from the
    words of the specification and not from the code: a pattern is a
    sequence of terms, [*] matches any run of characters, [?] a single
    character, [[...]] a character of a class, any other character
    itself, and the pattern has to match the whole name.  The syntax
    of a class is the one of the documentation of [filepath.Match]:
    [[^...]] negates, [lo-hi] is a range, and a backslash makes the next
    character an ordinary one.  The characters of a Go string are its
    runes. *)

(** The runes of a string, as [for _, r := range s] yields them. *)
Fixpoint runes_fuel (fuel : nat) (s : GoString) : list Z :=
  match fuel with
  | O => []
  | S fuel' =>
      match s with
      | [] => []
      | _ => let '(r, n) := utf8.DecodeRuneInString s in
             r :: runes_fuel fuel' (skipn n s)
      end
  end.

Definition runes (s : GoString) : list Z := runes_fuel (length s) s.

Inductive term : Type :=
  | Star                                           (* [*] *)
  | Any                                            (* [?] *)
  | Class (negated : bool) (ranges : list (Z * Z)) (* [[...]] *)
  | Lit (c : Z).                                   (* a character *)

(** The characters with a meaning in a pattern. *)
Definition chStar : Z := 42.       (* * *)
Definition chDash : Z := 45.       (* - *)
Definition chQuestion : Z := 63.   (* ? *)
Definition chOpen : Z := 91.       (* [ *)
Definition chBackslash : Z := 92.  (* \ *)
Definition chClose : Z := 93.      (* ] *)
Definition chCaret : Z := 94.      (* ^ *)

(** The ranges of a class, up to its closing bracket, after the ranges
    [acc] that have been read; and what follows the class.  A class has
    a range at least; a bracket or a dash that stands for itself is
    written after a backslash. *)
Fixpoint readClass (cs : list Z) (acc : list (Z * Z))
  : option (list (Z * Z) * list Z) :=
  match cs with
  | [] => None
  | c :: cs1 =>
      if c =? chClose then
        match acc with
        | [] => None
        | _ => Some (rev acc, cs1)
        end
      else if c =? chDash then None
      else
        match (if c =? chBackslash then cs1 else cs) with
        | [] => None
        | lo :: cs2 =>
            match cs2 with
            | [] => None
            | d :: cs3 =>
                if d =? chDash then
                  match cs3 with
                  | [] => None
                  | h :: cs4 =>
                      if (h =? chDash) || (h =? chClose) then None
                      else
                        match (if h =? chBackslash then cs4 else cs3) with
                        | [] => None
                        | hi :: cs5 => readClass cs5 ((lo, hi) :: acc)
                        end
                  end
                else readClass cs2 ((lo, lo) :: acc)
            end
        end
  end.

(** The first term of a pattern, and what follows it. *)
Definition readTerm (cs : list Z) : option (term * list Z) :=
  match cs with
  | [] => None
  | c :: cs1 =>
      if c =? chStar then Some (Star, cs1)
      else if c =? chQuestion then Some (Any, cs1)
      else if c =? chOpen then
        let '(negated, body) :=
          match cs1 with
          | d :: cs2 => if d =? chCaret then (true, cs2) else (false, cs1)
          | [] => (false, cs1)
          end in
        match readClass body [] with
        | Some (ranges, rest) => Some (Class negated ranges, rest)
        | None => None
        end
      else if c =? chBackslash then
        match cs1 with
        | d :: cs2 => Some (Lit d, cs2)
        | [] => None
        end
      else Some (Lit c, cs1)
  end.

(** The terms of a pattern; [None] when the pattern is malformed.  A
    term has a character at least, so that the length of the pattern is
    fuel enough. *)
Fixpoint parseGlob_fuel (fuel : nat) (cs : list Z) : option (list term) :=
  match cs with
  | [] => Some []
  | _ =>
      match fuel with
      | O => None
      | S fuel' =>
          match readTerm cs with
          | Some (t, rest) => option_map (cons t) (parseGlob_fuel fuel' rest)
          | None => None
          end
      end
  end.

Definition parseGlob (cs : list Z) : option (list term) :=
  parseGlob_fuel (length cs) cs.

Definition inRanges (ranges : list (Z * Z)) (c : Z) : bool :=
  existsb (fun lohi => (fst lohi <=? c) && (c <=? snd lohi)) ranges.

(** Whether a term other than [*] matches a character. *)
Definition termMatches (t : term) (c : Z) : bool :=
  match t with
  | Star => false
  | Any => true
  | Class negated ranges => xorb negated (inRanges ranges c)
  | Lit x => c =? x
  end.

(** Whether the terms match the whole of the characters [cs]: a [*]
    takes any run of characters, every other term takes one. *)
Fixpoint globMatches (ts : list term) (cs : list Z) : bool :=
  match ts with
  | [] => match cs with [] => true | _ => false end
  | Star :: ts' =>
      (fix run (cs : list Z) : bool :=
         globMatches ts' cs
         || match cs with
            | [] => false
            | _ :: cs' => run cs'
            end) cs
  | t :: ts' =>
      match cs with
      | c :: cs' => termMatches t c && globMatches ts' cs'
      | [] => false
      end
  end.

(** Whether the glob [pattern] matches the candidate [name]. *)
Definition globSpec (pattern name : GoString) : bool :=
  match parseGlob (runes pattern) with
  | Some ts => globMatches ts (runes name)
  | None => false
  end.

(** The same glob when every byte of the name and of the pattern is
    taken for a character. *)
Definition globBytes (pattern name : GoString) : bool :=
  match parseGlob (map byteval pattern) with
  | Some ts => globMatches ts (map byteval name)
  | None => false
  end.

(** A string of ASCII bytes. *)
Definition isASCII (s : GoString) : bool :=
  forallb (fun c => byteval c <? 128) s.

(** The name of a file [€.go]: one character, three bytes. *)
Definition euro : GoString := map ascii_of_nat [226; 130; 172]%nat.

(** ** Definitions for the proofs about [filepath.Match] *)

(** The values of the bytes of a string: its characters when the
    string is ASCII. *)
Abbreviation bs := (map byteval).

(** A term of a chunk: in a chunk, which [scanChunk] cuts at a star, a
    star is a character like any other. *)
Definition readUnit (cs : list Z) : option (term * list Z) :=
  match cs with
  | [] => None
  | c :: cs1 => if c =? chStar then Some (Lit c, cs1) else readTerm cs
  end.

(** The terms of a chunk; [None] when the chunk is malformed. *)
Fixpoint chunkTerms_fuel (fuel : nat) (cs : list Z) : option (list term) :=
  match cs with
  | [] => Some []
  | _ =>
      match fuel with
      | O => None
      | S fuel' =>
          match readUnit cs with
          | Some (t, rest) => option_map (cons t) (chunkTerms_fuel fuel' rest)
          | None => None
          end
      end
  end.

Definition chunkTerms (cs : list Z) : option (list term) :=
  chunkTerms_fuel (length cs) cs.

(** Whether the terms match the first characters of [cs], one each. *)
Fixpoint prefixOK (ts : list term) (cs : list Z) : bool :=
  match ts with
  | [] => true
  | t :: ts' =>
      match cs with
      | c :: cs' => termMatches t c && prefixOK ts' cs'
      | [] => false
      end
  end.

(** What [matchChunk] returns for a well-formed chunk. *)
Definition chunkOutcome (ts : list term) (s : GoString) (failed : bool)
  : filepath.chunkResult :=
  if failed then filepath.NoMatch
  else if prefixOK ts (bs s) then filepath.Matched (skipn (length ts) s)
       else filepath.NoMatch.

(** A character of a class, after its backslash if it has one: the
    bytes [pre] that it takes, the character and what follows. *)
Inductive escaped : GoString -> GoString -> ascii -> GoString -> Prop :=
  | escaped_backslash c x t :
      byteval c = chBackslash -> escaped (c :: x :: t) [c; x] x t
  | escaped_plain c t :
      byteval c <> chBackslash -> escaped (c :: t) [c] c t.

(** What [readClass] does after the first character [lo] of a range, and
    after the dash of the range. *)
Definition afterDash (lo : ascii) (t3 : GoString) (acc : list (Z * Z))
  : option (list (Z * Z) * list Z) :=
  match t3 with
  | [] => None
  | h :: t4 =>
      if (byteval h =? chDash) || (byteval h =? chClose) then None
      else
        match (if byteval h =? chBackslash then t4 else h :: t4) with
        | [] => None
        | hi :: t5 => readClass (bs t5) ((byteval lo, byteval hi) :: acc)
        end
  end.

Definition afterLo (lo : ascii) (w : GoString) (acc : list (Z * Z))
  : option (list (Z * Z) * list Z) :=
  match w with
  | [] => None
  | d :: t3 =>
      if byteval d =? chDash then afterDash lo t3 acc
      else readClass (bs w) ((byteval lo, byteval lo) :: acc)
  end.

(** The cut of the pattern at a chunk, and the terms of the pattern. *)
Definition cut_ok (p : GoString) : Prop :=
  parseGlob (bs p) =
  match chunkTerms (bs (firstn (filepath.scanLoop p false) p)) with
  | None => None
  | Some ts =>
      option_map (app ts) (parseGlob (bs (skipn (filepath.scanLoop p false) p)))
  end.

(** Whether the terms of a pattern, if it has any, match. *)
Definition matchO (o : option (list term)) (cs : list Z) : bool :=
  match o with
  | Some ts => globMatches ts cs
  | None => false
  end.

(** Whether [Match] goes on with the rest [t] of the name after a chunk:
    at the last chunk the name has to be exhausted. *)
Definition accept (last : bool) (t : GoString) : bool :=
  (len t =? 0) || negb last.

(** The first position of [s] where the terms of the chunk match and
    [Match] goes on: what is left of [s] there. *)
Fixpoint goSearch (ts : list term) (last : bool) (s : GoString)
  : option GoString :=
  let here := prefixOK ts (bs s) && accept last (skipn (length ts) s) in
  match s with
  | [] => if here then Some (skipn (length ts) s) else None
  | _ :: s' => if here then Some (skipn (length ts) s) else goSearch ts last s'
  end.

(** What follows the chunk in the pattern: nothing when the chunk is the
    last one, and otherwise terms that begin with a star, or a malformed
    pattern. *)
Definition follows (last : bool) (R : option (list term)) : Prop :=
  if last then R = Some []
  else R = None \/ exists rts, R = Some (Star :: rts).

(** ** Well-formed rules, an engine that logs, plain patterns *)

(** What every rule of a filter built by [vmoduleValue.Set] satisfies. *)
Definition wellFormedRule (m : modulePat) : Prop :=
  level m <> 0
  /\ minInt32 <= level m <= maxInt32
  /\ literal m = isLiteral (pattern m)
  /\ ~ In ","%char (pattern m)
  /\ ~ In "="%char (pattern m).

(** An engine that keeps the lines it is given, with their depths; its
    own verbosity is off and its flag value accepts every string. *)
Definition logEngine : Type := list (Z * GoString).

Definition log_InfoDepth (depth : Z) (msg : GoString) (e : logEngine)
  : logEngine := e ++ [(depth, msg)].

Definition log_V_Enabled (l : Level) (e : logEngine) : bool := false.

Definition log_Set (value : GoString) (e : logEngine) : option unit * logEngine :=
  (None, e).

(** A byte that [filepath.Match] takes for itself: none of [\], [*], [?]
    and [[]. *)
Definition plain (c : ascii) : bool :=
  negb (existsb (Ascii.eqb c) (str "\*?[")).

(** The rest of [s] after [prefix], when [s] begins with it. *)
Fixpoint cutPrefix (prefix s : GoString) : option GoString :=
  match prefix, s with
  | [], _ => Some s
  | c :: prefix', d :: s' =>
      if Ascii.eqb c d then cutPrefix prefix' s' else None
  | _ :: _, [] => None
  end.

(** Whether [name] is [p] after some bytes, at least one and none of
    them a separator. *)
Fixpoint endsAfterSkip (p name : GoString) : bool :=
  match name with
  | [] => false
  | c :: name' =>
      if Ascii.eqb c filepath.Separator then false
      else if streq name' p then true
      else endsAfterSkip p name'
  end.

(** * Properties *)

(** ** Strings *)

Lemma streq_eq (s t : GoString) : streq s t = true <-> s = t.
Proof.
  revert t; induction s as [|c s IH]; intros [|d t]; simpl; split;
    try congruence; try discriminate.
  - rewrite andb_true_iff, Ascii.eqb_eq, IH. intros [-> ->]; reflexivity.
  - intros [= -> ->]. rewrite Ascii.eqb_refl. apply IH. reflexivity.
Qed.

Lemma streq_refl (s : GoString) : streq s s = true.
Proof. apply streq_eq; reflexivity. Qed.

Lemma Split_not_nil (s : GoString) (sep : ascii) : strings.Split s sep <> [].
Proof.
  induction s as [|c s IH]; simpl; [discriminate|].
  destruct (Ascii.eqb c sep); [discriminate|].
  destruct (strings.Split s sep); discriminate.
Qed.

Lemma Split_no_sep (s : GoString) (sep : ascii) :
  ~ In sep s -> strings.Split s sep = [s].
Proof.
  induction s as [|c s IH]; simpl; intros H; [reflexivity|].
  destruct (Ascii.eqb_spec c sep) as [->|_]; [tauto|].
  rewrite IH by tauto. reflexivity.
Qed.

Lemma Split_app_sep (a b : GoString) (sep : ascii) :
  ~ In sep a -> strings.Split (a ++ sep :: b) sep = a :: strings.Split b sep.
Proof.
  induction a as [|c a IH]; simpl; intros H.
  - rewrite Ascii.eqb_refl. reflexivity.
  - destruct (Ascii.eqb_spec c sep) as [->|_]; [tauto|].
    rewrite IH by tauto. reflexivity.
Qed.

Lemma Split_Join (elems : list GoString) (sep : ascii) :
  elems <> [] -> Forall (fun e => ~ In sep e) elems ->
  strings.Split (Join elems sep) sep = elems.
Proof.
  induction elems as [|e elems IH]; [congruence|].
  intros _ H. inversion H as [|? ? He Hes]; subst.
  destruct elems as [|e' elems].
  - simpl. apply Split_no_sep, He.
  - change (Join (e :: e' :: elems) sep) with (e ++ sep :: Join (e' :: elems) sep).
    rewrite Split_app_sep by exact He.
    rewrite IH; [reflexivity|discriminate|exact Hes].
Qed.

Lemma Split_In_sep (s : GoString) (sep : ascii) :
  In sep s -> exists a b rest, strings.Split s sep = a :: b :: rest.
Proof.
  induction s as [|c s IH]; simpl; [tauto|].
  intros H. destruct (Ascii.eqb_spec c sep) as [->|Hne].
  - destruct (strings.Split s sep) as [|b rest] eqn:E.
    + exfalso; eapply Split_not_nil; eauto.
    + eauto.
  - destruct H as [->|H]; [congruence|].
    destruct (IH H) as (a & b & rest & ->). eauto.
Qed.

(** ** The loop of [Set] *)

Lemma Set_loop_acc (pats : list GoString) (acc : list modulePat) :
  Set_loop pats acc = (fs ← Set_loop pats []; Returns (acc ++ fs)).
Proof.
  revert acc; induction pats as [|pat pats IH]; intros acc; simpl.
  - rewrite app_nil_r. reflexivity.
  - destruct (len pat =? 0); [apply IH|].
    destruct (index (strings.Split pat "=") 0) as [p|]; simpl; [|reflexivity].
    destruct (index (strings.Split pat "=") 1) as [l|]; simpl; [|reflexivity].
    destruct (strconv.ParseInt l 10 32) as [v e].
    destruct (v =? 0); [apply IH|].
    rewrite IH. rewrite (IH [_]).
    destruct (Set_loop pats []) as [fs|]; simpl; [|reflexivity].
    rewrite <- app_assoc. reflexivity.
Qed.

Lemma Set_loop_app (xs ys : list GoString) (acc : list modulePat) :
  Set_loop (xs ++ ys) acc = (fs ← Set_loop xs acc; Set_loop ys fs).
Proof.
  revert acc; induction xs as [|pat xs IH]; intros acc; simpl; [reflexivity|].
  destruct (len pat =? 0); [apply IH|].
  destruct (index (strings.Split pat "=") 0) as [p|]; simpl; [|reflexivity].
  destruct (index (strings.Split pat "=") 1) as [l|]; simpl; [|reflexivity].
  destruct (strconv.ParseInt l 10 32) as [v e].
  destruct (v =? 0); apply IH.
Qed.

Lemma index_Split_0 (pat : GoString) (sep : ascii) :
  exists p, index (strings.Split pat sep) 0 = Returns p.
Proof.
  unfold index. destruct (strings.Split pat sep) as [|p ps] eqn:E.
  - exfalso; eapply Split_not_nil; eauto.
  - exists p; reflexivity.
Qed.

Lemma index_Split_1 (pat : GoString) (sep : ascii) :
  In sep pat -> exists l, index (strings.Split pat sep) 1 = Returns l.
Proof.
  intros H. destruct (Split_In_sep pat sep H) as (a & b & rest & ->).
  exists b; reflexivity.
Qed.

Lemma index_Split_1_panics (pat : GoString) (sep : ascii) :
  ~ In sep pat ->
  index (strings.Split pat sep) 1 = Panics (IndexOutOfRange 1 1).
Proof. intros H. rewrite Split_no_sep by exact H. reflexivity. Qed.


(** ** C1: what [Set] signals *)

Section SetOutcome.
Context {Engine Err : Type}.
Variable inner_Set : GoString -> Engine -> option Err * Engine.


(** A segment without ['='] never lets [Set] return [nil]: either the
    wrapped flag value rejects the string, or indexing the split
    segment at 1 panics. *)
Lemma Set_foo_never_nil (w w' : world Engine) :
  vmoduleValue_Set inner_Set (str "foo") w <> Returns (None, w').
Proof.
  unfold vmoduleValue_Set.
  destruct (inner_Set (str "foo") (engine w)) as [[err|] e]; simpl; discriminate.
Qed.

(** ** C9: the error of the wrapped flag value *)

(** C9.  When the [Set] of the wrapped flag value returns an error,
    [vmoduleValue.Set] returns that error and leaves both the filter
    and the cache as they were. *)
Theorem Set_inner_error (value : GoString) (w : world Engine)
    (err : Err) (e : Engine) :
  inner_Set value (engine w) = (Some err, e) ->
  exists w', vmoduleValue_Set inner_Set value w = Returns (Some err, w')
             /\ vModuleFilter (vmodule w') = vModuleFilter (vmodule w)
             /\ vModuleCache (vmodule w') = vModuleCache (vmodule w).
Proof.
  intros H. unfold vmoduleValue_Set. rewrite H.
  eexists; split; [reflexivity|]. split; reflexivity.
Qed.

End SetOutcome.



Lemma Set_inner_error_witness :
  reject_all (str "a=1") tt = (Some tt, tt)
  /\ exists w', vmoduleValue_Set reject_all (str "a=1")
                  (mkWorld tt (mkGlobal [mkModulePat (str "x") true 2] (Some ∅)))
                = Returns (Some tt, w')
                /\ vModuleFilter (vmodule w') = [mkModulePat (str "x") true 2]
                /\ vModuleCache (vmodule w') = Some ∅.
Proof.
  split; [reflexivity|].
  exact (Set_inner_error reject_all (str "a=1")
           (mkWorld tt (mkGlobal [mkModulePat (str "x") true 2] (Some ∅)))
           tt tt eq_refl).
Defined.

(** ** [strconv.ParseInt] in base 10 with 32 bits *)

Lemma byteval_range (c : ascii) : 0 <= byteval c < 256.
Proof.
  unfold byteval. pose proof (N_ascii_bounded c) as H. lia.
Qed.

Lemma ParseUint_loop_digit (c : ascii) (s : GoString) (n : Z) :
  isDigit c = true -> 0 <= n <= maxVal32 ->
  strconv.ParseUint_loop 10 cutoff10 maxVal32 (c :: s) n =
  if maxVal32 <? n * 10 + (byteval c - 48)
  then (maxVal32, Some strconv.ErrRange)
  else strconv.ParseUint_loop 10 cutoff10 maxVal32 s (n * 10 + (byteval c - 48)).
Proof.
  intros Hd Hn. unfold isDigit in Hd. cbn [strconv.ParseUint_loop].
  rewrite Hd. apply andb_true_iff in Hd as [H1 H2].
  apply Z.leb_le in H1, H2.
  replace (10 <=? byteval c - 48) with false by (symmetry; apply Z.leb_gt; lia).
  assert (Hc : cutoff10 = 1844674407370955162) by reflexivity.
  replace (cutoff10 <=? n) with false by (symmetry; apply Z.leb_gt; lia).
  rewrite (Z.mod_small (n * 10)) by lia.
  rewrite (Z.mod_small (n * 10 + _)) by lia.
  replace (n * 10 + (byteval c - 48) <? n * 10) with false
    by (symmetry; apply Z.ltb_ge; lia).
  reflexivity.
Qed.

Lemma ParseUint_loop_nondigit (c : ascii) (s : GoString) (n : Z) :
  isDigit c = false ->
  strconv.ParseUint_loop 10 cutoff10 maxVal32 (c :: s) n = (0, Some strconv.ErrSyntax).
Proof.
  intros Hd. unfold isDigit in Hd. cbn [strconv.ParseUint_loop]. rewrite Hd.
  destruct ((97 <=? strconv.lower (byteval c)) && (strconv.lower (byteval c) <=? 122)) eqn:E;
    [|reflexivity].
  apply andb_true_iff in E as [H1 H2]. apply Z.leb_le in H1, H2.
  replace (10 <=? strconv.lower (byteval c) - 97 + 10) with true
    by (symmetry; apply Z.leb_le; lia).
  reflexivity.
Qed.

Lemma digitsFrom_mono (ds : GoString) (n : Z) :
  forallb isDigit ds = true -> 0 <= n -> n <= digitsFrom n ds.
Proof.
  revert n; induction ds as [|c ds IH]; intros n Hd Hn; simpl in *; [lia|].
  apply andb_true_iff in Hd as [Hc Hd].
  unfold isDigit in Hc. apply andb_true_iff in Hc as [H1 H2].
  apply Z.leb_le in H1, H2.
  specialize (IH (n * 10 + (byteval c - 48)) Hd). lia.
Qed.

Lemma ParseUint_loop_digits (ds rest : GoString) (n : Z) :
  forallb isDigit ds = true -> 0 <= n -> digitsFrom n ds <= maxVal32 ->
  strconv.ParseUint_loop 10 cutoff10 maxVal32 (ds ++ rest) n =
  strconv.ParseUint_loop 10 cutoff10 maxVal32 rest (digitsFrom n ds).
Proof.
  revert n; induction ds as [|c ds IH]; intros n Hd Hn Hv; [reflexivity|].
  simpl in Hd. apply andb_true_iff in Hd as [Hc Hd].
  assert (Hc' := Hc). unfold isDigit in Hc'. apply andb_true_iff in Hc' as [H1 H2].
  apply Z.leb_le in H1, H2.
  change (digitsFrom n (c :: ds)) with (digitsFrom (n * 10 + (byteval c - 48)) ds) in *.
  pose proof (digitsFrom_mono ds (n * 10 + (byteval c - 48)) Hd ltac:(lia)) as Hm.
  change ((c :: ds) ++ rest) with (c :: (ds ++ rest)).
  rewrite ParseUint_loop_digit by (auto; lia).
  replace (maxVal32 <? n * 10 + (byteval c - 48)) with false
    by (symmetry; apply Z.ltb_ge; lia).
  apply IH; [exact Hd|lia|exact Hv].
Qed.

(** What the loop returns: a value that fits, the largest value with
    [ErrRange], or 0 with [ErrSyntax]. *)
Lemma ParseUint_loop_result (s : GoString) (n : Z) :
  0 <= n <= maxVal32 ->
  let r := strconv.ParseUint_loop 10 cutoff10 maxVal32 s n in
  match snd r with
  | None => 0 <= fst r <= maxVal32 /\ forallb isDigit s = true
  | Some strconv.ErrRange => fst r = maxVal32
  | Some strconv.ErrSyntax => fst r = 0
  end.
Proof.
  revert n; induction s as [|c s IH]; intros n Hn; [simpl; auto|].
  destruct (isDigit c) eqn:Hc.
  - cbv zeta. rewrite ParseUint_loop_digit by auto.
    destruct (maxVal32 <? n * 10 + (byteval c - 48)) eqn:E; [reflexivity|].
    apply Z.ltb_ge in E.
    assert (Hc' := Hc). unfold isDigit in Hc'. apply andb_true_iff in Hc' as [H1 H2].
    apply Z.leb_le in H1, H2.
    specialize (IH (n * 10 + (byteval c - 48)) ltac:(lia)). cbv zeta in IH.
    destruct (snd (strconv.ParseUint_loop 10 cutoff10 maxVal32 s _)) as [[]|]; auto.
    destruct IH as [? ?]; split; [assumption|]. simpl. rewrite Hc. assumption.
  - cbv zeta. rewrite ParseUint_loop_nondigit by auto. reflexivity.
Qed.

Lemma ParseInt_unfold (s : GoString) :
  strconv.ParseInt s 10 32 =
  match s with
  | [] => (0, Some strconv.ErrSyntax)
  | c0 :: s' =>
      if Ascii.eqb c0 "+" then ParseInt_signed false s'
      else if Ascii.eqb c0 "-" then ParseInt_signed true s'
      else ParseInt_signed false s
  end.
Proof.
  destruct s as [|c0 s']; [reflexivity|].
  unfold strconv.ParseInt, ParseInt_signed.
  destruct (Ascii.eqb c0 "+"); [reflexivity|].
  destruct (Ascii.eqb c0 "-"); reflexivity.
Qed.

Lemma ParseInt_signed_range (neg : bool) (s1 : GoString) :
  minInt32 <= fst (ParseInt_signed neg s1) <= maxInt32.
Proof.
  unfold minInt32, maxInt32, ParseInt_signed, strconv.ParseUint.
  destruct s1 as [|c1 s1']; [simpl; lia|].
  pose proof (ParseUint_loop_result (c1 :: s1') 0 ltac:(lia)) as H. cbv zeta in H.
  change (strconv.maxUint64 / 10 + 1) with cutoff10.
  destruct (strconv.ParseUint_loop 10 cutoff10 maxVal32 (c1 :: s1') 0) as [un err].
  cbn [fst snd] in H.
  change (2 ^ (32 - 1)) with 2147483648.
  destruct err as [[]|]; [simpl; lia| |].
  - subst un. destruct neg; simpl; lia.
  - destruct H as [H _].
    destruct neg; cbn [negb andb].
    + destruct (2147483648 <? un) eqn:E; simpl; [lia|]. apply Z.ltb_ge in E. lia.
    + destruct (2147483648 <=? un) eqn:E; simpl; [lia|]. apply Z.leb_gt in E. lia.
Qed.

(** [ParseInt] with 32 bits returns an [int32], so that the conversion
    [Level(v)] leaves it as it is. *)
Lemma ParseInt_range (s : GoString) :
  minInt32 <= fst (strconv.ParseInt s 10 32) <= maxInt32.
Proof.
  rewrite ParseInt_unfold.
  destruct s as [|c0 s']; [unfold minInt32, maxInt32; simpl; lia|].
  destruct (Ascii.eqb c0 "+"); [apply ParseInt_signed_range|].
  destruct (Ascii.eqb c0 "-"); apply ParseInt_signed_range.
Qed.

Lemma Level_of_int64_id (v : Z) :
  minInt32 <= v <= maxInt32 -> Level_of_int64 v = v.
Proof.
  unfold minInt32, maxInt32, Level_of_int64. intros H.
  rewrite Z.mod_small by lia. lia.
Qed.

Lemma Level_of_ParseInt (s : GoString) :
  Level_of_int64 (fst (strconv.ParseInt s 10 32)) = fst (strconv.ParseInt s 10 32).
Proof. apply Level_of_int64_id, ParseInt_range. Qed.

Lemma ParseInt_unsignedPart (c : ascii) (t : GoString) :
  strconv.ParseInt (c :: t) 10 32 =
  ParseInt_signed (Ascii.eqb c "-") (unsignedPart (c :: t)).
Proof.
  rewrite ParseInt_unfold. unfold unsignedPart.
  destruct (Ascii.eqb_spec c "+") as [->|_]; [reflexivity|].
  destruct (Ascii.eqb c "-"); reflexivity.
Qed.

(** A level text with invalid syntax parses as 0, with [ErrSyntax]. *)
Lemma ParseInt_malformed (t : GoString) :
  malformedLevel t -> strconv.ParseInt t 10 32 = (0, Some strconv.ErrSyntax).
Proof.
  intros H. destruct t as [|c t]; [reflexivity|].
  rewrite ParseInt_unsignedPart.
  destruct H as [H|ds d rest H Hds Hd Hv]; rewrite H; [reflexivity|].
  unfold ParseInt_signed, strconv.ParseUint.
  destruct (ds ++ d :: rest) as [|x xs] eqn:E; [reflexivity|]. rewrite <- E.
  change (strconv.maxUint64 / 10 + 1) with cutoff10.
  rewrite ParseUint_loop_digits by (auto; lia).
  rewrite ParseUint_loop_nondigit by exact Hd. reflexivity.
Qed.

Lemma ParseUint_loop_ErrSyntax (s : GoString) (n : Z) :
  0 <= n <= maxVal32 ->
  snd (strconv.ParseUint_loop 10 cutoff10 maxVal32 s n) = Some strconv.ErrSyntax ->
  exists ds c rest, s = ds ++ c :: rest /\ forallb isDigit ds = true
                    /\ isDigit c = false /\ digitsFrom n ds <= maxVal32.
Proof.
  revert n; induction s as [|c s IH]; intros n Hn; [discriminate|].
  destruct (isDigit c) eqn:Hc.
  - rewrite ParseUint_loop_digit by auto.
    destruct (maxVal32 <? n * 10 + (byteval c - 48)) eqn:E; [discriminate|].
    apply Z.ltb_ge in E.
    assert (Hc' := Hc). unfold isDigit in Hc'. apply andb_true_iff in Hc' as [H1 H2].
    apply Z.leb_le in H1, H2.
    intros H. destruct (IH (n * 10 + (byteval c - 48)) ltac:(lia) H)
      as (ds & d & rest & -> & Hds & Hd & Hv).
    exists (c :: ds), d, rest. simpl. rewrite Hc. auto.
  - intros _. exists [], c, s. simpl. repeat split; auto; lia.
Qed.

(** And only such a text does. *)
Lemma ParseInt_ErrSyntax_malformed (t : GoString) :
  snd (strconv.ParseInt t 10 32) = Some strconv.ErrSyntax -> malformedLevel t.
Proof.
  destruct t as [|c t]; [intros _; apply malformed_empty; reflexivity|].
  rewrite ParseInt_unsignedPart.
  generalize (Ascii.eqb c "-") as neg. intros neg.
  destruct (unsignedPart (c :: t)) as [|x xs] eqn:Eu;
    [intros _; apply malformed_empty; exact Eu|].
  unfold ParseInt_signed, strconv.ParseUint.
  change (strconv.maxUint64 / 10 + 1) with cutoff10.
  pose proof (ParseUint_loop_ErrSyntax (x :: xs) 0 ltac:(lia)) as H.
  destruct (strconv.ParseUint_loop 10 cutoff10 maxVal32 (x :: xs) 0) as [un err].
  cbn [snd] in H. destruct err as [[]|].
  - intros _. destruct (H eq_refl) as (ds & d & rest & E & Hds & Hd & Hv).
    eapply malformed_byte; eauto. rewrite Eu; exact E.
  - destruct (negb neg && _); [discriminate|]. destruct (neg && _); discriminate.
  - destruct (negb neg && _); [discriminate|]. destruct (neg && _); discriminate.
Qed.

(** ** Segments *)

Lemma Set_filter_Join (segs : list GoString) :
  Forall (fun seg => ~ In ","%char seg) segs ->
  Set_filter (Join segs ",") = Set_loop segs [].
Proof.
  intros H. unfold Set_filter. destruct segs as [|seg segs]; [reflexivity|].
  rewrite Split_Join; [reflexivity|discriminate|exact H].
Qed.

(** One turn of the loop of [Set] on a segment [p=t]. *)
Lemma Set_loop_segment (p t : GoString) (pats : list GoString)
    (acc : list modulePat) :
  ~ In "="%char p -> ~ In "="%char t ->
  Set_loop ((p ++ "="%char :: t) :: pats) acc =
  let v := fst (strconv.ParseInt t 10 32) in
  if v =? 0 then Set_loop pats acc
  else Set_loop pats (acc ++ [mkModulePat p (isLiteral p) v]).
Proof.
  intros Hp Ht. cbn [Set_loop].
  replace (len (p ++ "="%char :: t) =? 0) with false.
  2:{ symmetry. apply Z.eqb_neq. unfold len. rewrite length_app. simpl. lia. }
  rewrite Split_app_sep by exact Hp. rewrite Split_no_sep by exact Ht.
  cbn [index nth_error mbind outcome_bind].
  pose proof (Level_of_ParseInt t) as HL.
  destruct (strconv.ParseInt t 10 32) as [v e]. cbn [fst] in *.
  rewrite HL. reflexivity.
Qed.

(** ** A level text with invalid syntax *)

(** The loop of [Set] takes a level text with invalid syntax (nothing
    after the sign, or a byte that is not a decimal digit before the
    digits exceed 32 bits) for zero: the filter that it builds is the
    one it builds when the segment is [p=0] and the one it builds when
    the segment is left out. *)
Lemma malformed_level_dropped (segs1 segs2 : list GoString) (p t : GoString) :
  Forall (fun seg => ~ In ","%char seg) (segs1 ++ segs2) ->
  ~ In ","%char p -> ~ In "="%char p ->
  ~ In ","%char t -> ~ In "="%char t ->
  malformedLevel t ->
  fst (strconv.ParseInt t 10 32) = 0
  /\ Set_filter (Join (segs1 ++ (p ++ str "=" ++ t) :: segs2) ",")
     = Set_filter (Join (segs1 ++ (p ++ str "=0") :: segs2) ",")
  /\ Set_filter (Join (segs1 ++ (p ++ str "=" ++ t) :: segs2) ",")
     = Set_filter (Join (segs1 ++ segs2) ",").
Proof.
  intros Hsegs Hp1 Hp2 Ht1 Ht2 Hmal.
  apply Forall_app in Hsegs as [Hs1 Hs2].
  pose proof (ParseInt_malformed t Hmal) as HP.
  assert (Hin : forall u, ~ In ","%char u ->
            Forall (fun seg => ~ In ","%char seg) (segs1 ++ (p ++ "="%char :: u) :: segs2)).
  { intros u Hu. apply Forall_app; split; [exact Hs1|]. constructor; [|exact Hs2].
    rewrite in_app_iff. simpl. intros [H|[H|H]]; [tauto|discriminate|tauto]. }
  assert (Hskip : forall u, ~ In "="%char u -> fst (strconv.ParseInt u 10 32) = 0 ->
            Set_loop (segs1 ++ (p ++ "="%char :: u) :: segs2) []
            = Set_loop (segs1 ++ segs2) []).
  { intros u Hu Hv. rewrite !Set_loop_app.
    destruct (Set_loop segs1 []) as [f|]; [|reflexivity]. cbn [mbind outcome_bind].
    rewrite Set_loop_segment by assumption. cbv zeta. rewrite Hv. reflexivity. }
  split; [rewrite HP; reflexivity|].
  change (str "=" ++ t) with ("="%char :: t).
  change (str "=0") with ("="%char :: str "0").
  rewrite !Set_filter_Join.
  - rewrite (Hskip t Ht2) by (rewrite HP; reflexivity).
    rewrite (Hskip (str "0")); [auto| |reflexivity].
    simpl. intros [H|[]]; discriminate.
  - apply Forall_app; split; assumption.
  - apply Hin. simpl. intros [H|[]]; discriminate.
  - apply Hin, Ht1.
Qed.

(** ** The loop over the filter *)

Lemma firstMatch_app (pre post : list modulePat) (file : GoString) :
  Forall (fun q => modulePat_match q file = false) pre ->
  firstMatch (pre ++ post) file = firstMatch post file.
Proof.
  induction 1 as [|q pre Hq _ IH]; simpl; [reflexivity|].
  rewrite Hq. exact IH.
Qed.

Lemma firstMatch_first (pre post : list modulePat) (r : modulePat)
    (file : GoString) :
  Forall (fun q => modulePat_match q file = false) pre ->
  modulePat_match r file = true ->
  firstMatch (pre ++ r :: post) file = Some (level r).
Proof.
  intros Hpre Hr. rewrite firstMatch_app by exact Hpre. simpl. rewrite Hr.
  reflexivity.
Qed.


(** ** The cache and the filter *)

Section Cache.
Context {Engine Err : Type}.
Variable inner_Set : GoString -> Engine -> option Err * Engine.
Variable v2_V_Enabled : Level -> Engine -> bool.
Variable FileLine : uintptr -> GoString.

Abbreviation Set_ := (vmoduleValue_Set inner_Set).
Abbreviation Get_ := (vmoduleGet FileLine).
Abbreviation V_ := (V v2_V_Enabled FileLine).

Local Abbreviation siteLevel := (siteLevel FileLine).
Local Abbreviation cache_consistent := (cache_consistent FileLine).
Local Abbreviation query_step := (query_step v2_V_Enabled FileLine).
Local Abbreviation step := (step inner_Set v2_V_Enabled FileLine).
Local Abbreviation reachable := (reachable inner_Set v2_V_Enabled FileLine).
Local Abbreviation updated := (updated FileLine).

Lemma Get_hit (pc : uintptr) (g : global) (v : Level) :
  mapaccess (vModuleCache g) pc = Some v -> Get_ pc g = Returns (v, g).
Proof. intros H. unfold vmoduleGet. rewrite H. reflexivity. Qed.

Lemma Get_miss (pc : uintptr) (g : global) (m : gmap uintptr Level) :
  vModuleCache g = Some m -> m !! pc = None ->
  Get_ pc g = Returns (siteLevel g pc,
                mkGlobal (vModuleFilter g) (Some (<[pc := siteLevel g pc]> m))).
Proof.
  intros Hc Hm. unfold vmoduleGet. rewrite Hc. simpl. rewrite Hm. reflexivity.
Qed.

(** On the zero value of [global] the cache is a nil map, and the
    assignment to it panics. *)
Lemma Get_nil_cache (pc : uintptr) (filter : list modulePat) :
  Get_ pc (mkGlobal filter None) = Panics NilMapAssignment.
Proof. reflexivity. Qed.

Lemma Get_preserves (pc : uintptr) (g g' : global) (l : Level) :
  Get_ pc g = Returns (l, g') ->
  vModuleFilter g' = vModuleFilter g
  /\ (cache_consistent g -> cache_consistent g')
  /\ (exists m, vModuleCache g' = Some m)
  /\ (cache_consistent g -> l = siteLevel g pc).
Proof.
  unfold vmoduleGet. destruct g as [filter [m|]]; simpl.
  - destruct (m !! pc) as [v|] eqn:Hm; simpl.
    + intros [= <- <-]. split; [reflexivity|]. split; [auto|].
      split; [eauto|]. intros Hc. apply Hc. exact Hm.
    + intros [= <- <-]. split; [reflexivity|]. split; [|split; [eauto|reflexivity]].
      intros Hc pc' v. unfold siteLevel; simpl.
      destruct (decide (pc = pc')) as [->|Hne].
      * rewrite lookup_insert_eq. intros [= <-]. reflexivity.
      * rewrite lookup_insert_ne by exact Hne. apply Hc.
  - discriminate.
Qed.

Lemma Get_updated (filter : list modulePat) (pc : uintptr) (g : global) :
  updated filter g ->
  exists g', Get_ pc g = Returns (filterLevel filter (trimFile (FileLine pc)), g')
             /\ updated filter g'.
Proof.
  intros (Hf & [m Hm] & Hc).
  assert (exists l g', Get_ pc g = Returns (l, g')) as (l & g' & HG).
  { destruct (m !! pc) as [v|] eqn:E.
    - exists v, g. apply Get_hit. rewrite Hm. exact E.
    - eexists _, _. apply Get_miss; eauto. }
  destruct (Get_preserves _ _ _ _ HG) as (Hf' & Hc' & Hm' & Hl).
  exists g'. rewrite HG, (Hl Hc). unfold siteLevel. rewrite Hf.
  split; [reflexivity|]. split; [congruence|]. split; auto.
Qed.

Lemma V_preserves (level : Level) (caller : option uintptr)
    (w w' : world Engine) (b : bool) :
  V_ level caller w = Returns (b, w') ->
  vModuleFilter (vmodule w') = vModuleFilter (vmodule w)
  /\ (cache_consistent (vmodule w) -> cache_consistent (vmodule w'))
  /\ ((exists m, vModuleCache (vmodule w) = Some m) ->
      exists m, vModuleCache (vmodule w') = Some m).
Proof.
  unfold V. destruct (v2_V_Enabled level (engine w)).
  - intros [= <- <-]. auto.
  - destruct caller as [pc|]; [|intros [= <- <-]; auto].
    destruct (Get_ pc (vmodule w)) as [[l g]|] eqn:HG; simpl; [|discriminate].
    intros [= <- <-]. simpl.
    destruct (Get_preserves _ _ _ _ HG) as (Hf & Hc & Hm & _). auto.
Qed.

Lemma query_step_updated (filter : list modulePat) (w w' : world Engine) :
  query_step w w' -> updated filter (vmodule w) -> updated filter (vmodule w').
Proof.
  intros Hs (Hf & Hm & Hc). destruct Hs as [level caller w b w' HV|pc w l g HG|e w].
  - destruct (V_preserves _ _ _ _ _ HV) as (Hf' & Hc' & Hm').
    split; [congruence|]. split; auto.
  - destruct (Get_preserves _ _ _ _ HG) as (Hf' & Hc' & Hm' & _).
    split; [simpl; congruence|]. split; auto.
  - split; auto.
Qed.

Lemma queries_updated (filter : list modulePat) (w w' : world Engine) :
  rtc query_step w w' -> updated filter (vmodule w) -> updated filter (vmodule w').
Proof.
  induction 1 as [|w w1 w2 Hs _ IH]; [auto|].
  intros H. apply IH. eapply query_step_updated; eauto.
Qed.

Lemma Set_nil (value : GoString) (w w' : world Engine) :
  Set_ value w = Returns (None, w') ->
  exists filter, Set_filter value = Returns filter
                 /\ vmodule w' = mkGlobal filter (Some ∅).
Proof.
  unfold vmoduleValue_Set.
  destruct (inner_Set value (engine w)) as [[err|] e]; [discriminate|].
  fold (Set_filter value). destruct (Set_filter value) as [filter|]; [|discriminate].
  simpl. intros [= <-]. eauto.
Qed.

Lemma Set_err (value : GoString) (w w' : world Engine) (err : Err) :
  Set_ value w = Returns (Some err, w') -> vmodule w' = vmodule w.
Proof.
  unfold vmoduleValue_Set.
  destruct (inner_Set value (engine w)) as [[err'|] e].
  - intros [= _ <-]. reflexivity.
  - destruct (Set_loop _ _); discriminate.
Qed.

Lemma Set_updated (value : GoString) (w w' : world Engine) :
  Set_ value w = Returns (None, w') ->
  exists filter, Set_filter value = Returns filter
                 /\ updated filter (vmodule w').
Proof.
  intros H. destruct (Set_nil _ _ _ H) as (filter & Hf & Hg).
  exists filter. split; [exact Hf|]. rewrite Hg.
  split; [reflexivity|]. split; [eauto|].
  intros pc v. simpl. rewrite lookup_empty. discriminate.
Qed.

Lemma step_consistent (w w' : world Engine) :
  step w w' -> cache_consistent (vmodule w) -> cache_consistent (vmodule w').
Proof.
  intros Hs Hc. destruct Hs as [value w r w' HS|w w' Hq].
  - destruct r as [err|].
    + rewrite (Set_err _ _ _ _ HS). exact Hc.
    + destruct (Set_updated _ _ _ HS) as (filter & _ & _ & _ & H). exact H.
  - destruct Hq as [level caller w b w' HV|pc w l g HG|e w].
    + destruct (V_preserves _ _ _ _ _ HV) as (_ & H & _). auto.
    + destruct (Get_preserves _ _ _ _ HG) as (_ & H & _). auto.
    + exact Hc.
Qed.

Lemma reachable_consistent (w : world Engine) :
  reachable w -> cache_consistent (vmodule w).
Proof.
  induction 1 as [e|w w' _ IH Hs].
  - intros pc v. discriminate.
  - eapply step_consistent; eauto.
Qed.

(** ** C2: the cache follows the filter *)


(** ** C3: the first rule that matches *)

(** C3.  The loop over the filter goes through the rules in the order
    of their declaration and returns the level of the first rule that
    matches, whatever the rules after it are; so does [vmoduleGet] for
    a call site that is not in the cache.  In particular, from the spec
    ["a*=1,abc=5"], a call site whose file name is ["abc"] resolves to
    1 and not to 5. *)
Theorem first_match_wins :
  (forall (pre post : list modulePat) (r : modulePat) (file : GoString),
      Forall (fun q => modulePat_match q file = false) pre ->
      modulePat_match r file = true ->
      firstMatch (pre ++ r :: post) file = Some (level r)
      /\ forall g pc,
           updated (pre ++ r :: post) g ->
           trimFile (FileLine pc) = file ->
           exists g', Get_ pc g = Returns (level r, g'))
  /\ (forall w w1 pc,
        Set_ (str "a*=1,abc=5") w = Returns (None, w1) ->
        trimFile (FileLine pc) = str "abc" ->
        vModuleFilter (vmodule w1)
        = [mkModulePat (str "a*") false 1; mkModulePat (str "abc") true 5]
        /\ exists g', Get_ pc (vmodule w1) = Returns (1, g')).
Proof.
  split.
  - intros pre post r file Hpre Hr.
    pose proof (firstMatch_first pre post r file Hpre Hr) as HF.
    split; [exact HF|]. intros g pc Hu Hfile.
    destruct (Get_updated _ pc g Hu) as (g' & HG & _).
    exists g'. rewrite HG. unfold filterLevel. rewrite Hfile, HF. reflexivity.
  - intros w w1 pc HS Hfile.
    destruct (Set_updated _ _ _ HS) as (filter & Hf & Hu).
    injection Hf as <-.
    split; [apply Hu|].
    destruct (Get_updated _ pc _ Hu) as (g' & HG & _).
    exists g'. rewrite HG, Hfile. reflexivity.
Qed.


(** ** C6: the threshold *)


(** ** C8: the same update twice *)

(** C8.  When [Set] of [s] has returned, a second [Set] of [s] right
    after it returns too and leaves the filter and the cache exactly
    as the first one left them, so that every call site resolves to the
    same level after two updates as after one.  (The flag value that
    the shim wraps is any flag value: when it rejected [s] the first
    time, it is taken to reject it the second time.) *)
Theorem Set_twice (s : GoString) (w w1 : world Engine) (r1 : option Err) :
  Set_ s w = Returns (r1, w1) ->
  (r1 <> None -> fst (inner_Set s (engine w1)) <> None) ->
  exists r2 w2,
    Set_ s w1 = Returns (r2, w2)
    /\ vmodule w2 = vmodule w1
    /\ forall pc, Get_ pc (vmodule w2) = Get_ pc (vmodule w1).
Proof.
  intros HS Hstable.
  assert (exists r2 w2, Set_ s w1 = Returns (r2, w2) /\ vmodule w2 = vmodule w1)
    as (r2 & w2 & H2 & Heq).
  { destruct r1 as [err|].
    - unfold vmoduleValue_Set. specialize (Hstable ltac:(discriminate)).
      destruct (inner_Set s (engine w1)) as [[err'|] e]; [|simpl in Hstable; tauto].
      eexists _, _. split; reflexivity.
    - destruct (Set_nil _ _ _ HS) as (filter & Hf & Hg).
      unfold vmoduleValue_Set.
      destruct (inner_Set s (engine w1)) as [[err'|] e].
      + eexists _, _. split; reflexivity.
      + fold (Set_filter s). rewrite Hf. simpl.
        eexists _, _. split; [reflexivity|]. rewrite Hg. reflexivity. }
  exists r2, w2. split; [exact H2|]. split; [exact Heq|].
  intros pc. rewrite Heq. reflexivity.
Qed.

End Cache.

Ltac not_in := simpl; intuition discriminate.

(** ** C4 and C10: what the engine's flag value rejects *)

(** One turn of the loop of [moduleSpec.Set] ends in an error or goes on
    with the segments that are left. *)
Lemma moduleSpec_Set_loop_step (pat : GoString) (pats : list GoString)
    (filter : list modulePat) :
  (exists err, klogv2.moduleSpec_Set_loop (pat :: pats) filter = inl err)
  \/ (exists filter', klogv2.moduleSpec_Set_loop (pat :: pats) filter
                      = klogv2.moduleSpec_Set_loop pats filter').
Proof.
  cbn [klogv2.moduleSpec_Set_loop].
  destruct (len pat =? 0); [right; eauto|].
  destruct (strings.Split pat "=") as [|q [|l [|x xs]]]; [left; eauto..| |left; eauto].
  destruct ((len q =? 0) || (len l =? 0)); [left; eauto|].
  destruct (strconv.ParseInt l 10 32) as [v [e|]]; [left; eauto|].
  destruct (v <? 0); [left; eauto|].
  destruct (v =? 0); right; eauto.
Qed.

(** A segment whose level text does not parse, or parses to a negative
    level, makes the loop end in an error, wherever it is. *)
Lemma moduleSpec_Set_loop_rejects (segs1 segs2 : list GoString) (p t : GoString)
    (filter : list modulePat) :
  ~ In "="%char p -> ~ In "="%char t ->
  snd (strconv.ParseInt t 10 32) <> None \/ fst (strconv.ParseInt t 10 32) < 0 ->
  exists err,
    klogv2.moduleSpec_Set_loop (segs1 ++ (p ++ "="%char :: t) :: segs2) filter
    = inl err.
Proof.
  intros Hp Ht Hbad. revert filter.
  induction segs1 as [|seg segs1 IH]; intros filter.
  - cbn [app klogv2.moduleSpec_Set_loop].
    replace (len (p ++ "="%char :: t) =? 0) with false.
    2:{ symmetry. apply Z.eqb_neq. unfold len. rewrite length_app. simpl. lia. }
    rewrite Split_app_sep by exact Hp. rewrite Split_no_sep by exact Ht.
    destruct ((len p =? 0) || (len t =? 0)); [eauto|].
    destruct (strconv.ParseInt t 10 32) as [v [e|]]; [eauto|].
    cbn [fst snd] in Hbad. destruct Hbad as [H|H]; [congruence|].
    replace (v <? 0) with true by (symmetry; apply Z.ltb_lt; exact H). eauto.
  - cbn [app].
    destruct (moduleSpec_Set_loop_step seg (segs1 ++ (p ++ "="%char :: t) :: segs2)
                filter) as [[err H]|[filter' H]]; rewrite H; [eauto|apply IH].
Qed.

Lemma moduleSpec_Set_rejects (segs1 segs2 : list GoString) (p t : GoString)
    (l : klogv2.loggingT) :
  Forall (fun seg => ~ In ","%char seg) (segs1 ++ segs2) ->
  ~ In ","%char p -> ~ In "="%char p ->
  ~ In ","%char t -> ~ In "="%char t ->
  snd (strconv.ParseInt t 10 32) <> None \/ fst (strconv.ParseInt t 10 32) < 0 ->
  exists err,
    klogv2.moduleSpec_Set (Join (segs1 ++ (p ++ str "=" ++ t) :: segs2) ",") l
    = (Some err, l).
Proof.
  intros Hsegs Hp1 Hp2 Ht1 Ht2 Hbad. apply Forall_app in Hsegs as [Hs1 Hs2].
  unfold klogv2.moduleSpec_Set. change (str "=" ++ t) with ("="%char :: t).
  rewrite Split_Join.
  - destruct (moduleSpec_Set_loop_rejects segs1 segs2 p t [] Hp2 Ht2 Hbad) as [err ->].
    eauto.
  - destruct segs1; discriminate.
  - apply Forall_app; split; [exact Hs1|]. constructor; [|exact Hs2].
    rewrite in_app_iff. simpl. intros [H|[H|H]]; [tauto|discriminate|tauto].
Qed.

(** [Set] in the program, on a value that the engine's flag value
    rejects: the error comes back and nothing has changed. *)
Lemma program_Set_rejects (value : GoString) (w : world klogv2.loggingT)
    (err : GoString) :
  klogv2.moduleSpec_Set value (engine w) = (Some err, engine w) ->
  program_Set value w = Returns (Some err, w).
Proof.
  intros H. unfold program_Set, vmoduleValue_Set. rewrite H.
  destruct w; reflexivity.
Qed.

(** C4 (as amended).  [Set] hands the whole value to the flag value it
    wraps before it looks at it.  In the program that is the engine's
    [-vmodule] value, which rejects a value with a segment [p=t] whose
    level text does not parse as a 32-bit integer in base 10, be it for
    its syntax or for its range: [Set] returns that error, and the filter
    and the cache are left as they were.  The shim adds no error of its
    own: what [Set] returns is what the wrapped flag value returned.
    And its own loop takes a level text with invalid syntax for zero and
    drops the rule: whenever [Set] returns nil on such a value, the
    filter that it installs is the one of the value with [p=0] for the
    segment and the one of the value without the segment. *)
Theorem malformed_level_text (segs1 segs2 : list GoString) (p t : GoString) :
  Forall (fun seg => ~ In ","%char seg) (segs1 ++ segs2) ->
  ~ In ","%char p -> ~ In "="%char p ->
  ~ In ","%char t -> ~ In "="%char t ->
  let value := Join (segs1 ++ (p ++ str "=" ++ t) :: segs2) "," in
  (snd (strconv.ParseInt t 10 32) <> None ->
   forall w : world klogv2.loggingT,
     exists err, program_Set value w = Returns (Some err, w))
  /\ (forall (Engine Err : Type)
             (inner_Set : GoString -> Engine -> option Err * Engine)
             (w w' : world Engine) (r : option Err),
        vmoduleValue_Set inner_Set value w = Returns (r, w') ->
        r = fst (inner_Set value (engine w)))
  /\ (malformedLevel t ->
      fst (strconv.ParseInt t 10 32) = 0
      /\ forall (Engine Err : Type)
                (inner_Set : GoString -> Engine -> option Err * Engine)
                (w w' : world Engine),
           vmoduleValue_Set inner_Set value w = Returns (None, w') ->
           exists filter,
             vmodule w' = mkGlobal filter (Some ∅)
             /\ Set_filter (Join (segs1 ++ (p ++ str "=0") :: segs2) ",")
                = Returns filter
             /\ Set_filter (Join (segs1 ++ segs2) ",") = Returns filter).
Proof.
  intros Hsegs Hp1 Hp2 Ht1 Ht2 value. split; [|split].
  - intros Herr w.
    destruct (moduleSpec_Set_rejects segs1 segs2 p t (engine w)
                Hsegs Hp1 Hp2 Ht1 Ht2 (or_introl Herr)) as [err H].
    exists err. apply program_Set_rejects, H.
  - intros Engine Err inner_Set w w' r. unfold vmoduleValue_Set.
    destruct (inner_Set value (engine w)) as [[err|] e]; cbn [fst].
    + intros [= <- _]. reflexivity.
    + destruct (Set_loop (strings.Split value ",") []); cbn [mbind outcome_bind];
        [|discriminate].
      intros [= <- _]. reflexivity.
  - intros Hmal.
    destruct (malformed_level_dropped segs1 segs2 p t Hsegs Hp1 Hp2 Ht1 Ht2 Hmal)
      as (H0 & E0 & E1).
    split; [exact H0|]. intros Engine Err inner_Set w w' HS.
    destruct (Set_nil inner_Set _ _ _ HS) as (filter & Hf & Hg).
    exists filter. split; [exact Hg|]. fold value in E0, E1.
    rewrite <- E0, <- E1. auto.
Qed.

Lemma malformed_level_text_witness :
  let w := mkWorld (klogv2.mkLogging 0 1 [mkModulePat (str "abc") true 2])
             (mkGlobal [mkModulePat (str "abc") true 2] (Some ∅)) in
  (exists err, program_Set (str "a*=1,foo=bar,abc=5") w = Returns (Some err, w))
  /\ malformedLevel (str "bar")
  /\ fst (strconv.ParseInt (str "bar") 10 32) = 0
  /\ (forall w', vmoduleValue_Set accept_all (str "a*=1,foo=bar,abc=5")
                   (mkWorld tt global_init) = Returns (None, w') ->
        exists filter,
          vmodule w' = mkGlobal filter (Some ∅)
          /\ Set_filter (str "a*=1,foo=0,abc=5") = Returns filter
          /\ Set_filter (str "a*=1,abc=5") = Returns filter).
Proof.
  intros w.
  assert (Hbar : malformedLevel (str "bar")).
  { apply (malformed_byte _ [] "b"%char (str "ar")); [reflexivity..|].
    unfold digitsValue; cbn [fold_left]; lia. }
  pose proof (malformed_level_text [str "a*=1"] [str "abc=5"] (str "foo") (str "bar")
                ltac:(repeat constructor; not_in) ltac:(not_in) ltac:(not_in)
                ltac:(not_in) ltac:(not_in)) as (Ha & _ & Hc).
  split; [apply Ha; discriminate|]. split; [exact Hbar|].
  destruct (Hc Hbar) as [H0 Hf]. split; [exact H0|].
  intros w'. apply (Hf unit unit accept_all).
Defined.

(** C4 fails as stated in the program: on ["foo=bar"], and on a level
    text out of range too, [Set] returns the error of the engine's flag
    value and the filter stays what it was, while on ["foo=0"] it
    returns nil and installs the empty filter. *)
Lemma malformed_level_is_an_error :
  exists w,
    program_Set (str "abc=2") programInit = Returns (None, w)
    /\ vModuleFilter (vmodule w) = [mkModulePat (str "abc") true 2]
    /\ program_Set (str "foo=bar") w = Returns (Some klogv2.errVmoduleSyntax, w)
    /\ program_Set (str "foo=99999999999") w
       = Returns (Some klogv2.errVmoduleSyntax, w)
    /\ exists w0, program_Set (str "foo=0") w = Returns (None, w0)
                  /\ vModuleFilter (vmodule w0) = [].
Proof.
  eexists. split; [reflexivity|]. split; [reflexivity|]. split; [reflexivity|].
  split; [reflexivity|]. eexists. split; reflexivity.
Qed.

(** C10 (as amended).  A negative level is rejected.  In the program the
    flag value that [Set] hands the value to is the engine's, which
    returns an error on a value with a segment [p=t] whose level text
    parses as a negative integer; the error is the one of the negative
    level when no segment before it fails and [p] is not empty.  [Set]
    returns that error and leaves the filter and the cache as they were:
    no rule with a negative level is added, and every call site resolves
    as before. *)
Theorem negative_level_is_rejected (segs1 segs2 : list GoString) (p t : GoString)
    (w : world klogv2.loggingT) :
  Forall (fun seg => ~ In ","%char seg) (segs1 ++ segs2) ->
  ~ In ","%char p -> ~ In "="%char p ->
  ~ In ","%char t -> ~ In "="%char t ->
  fst (strconv.ParseInt t 10 32) < 0 ->
  (exists err,
      program_Set (Join (segs1 ++ (p ++ str "=" ++ t) :: segs2) ",") w
      = Returns (Some err, w))
  /\ (p <> [] -> snd (strconv.ParseInt t 10 32) = None ->
      program_Set (Join ((p ++ str "=" ++ t) :: segs2) ",") w
      = Returns (Some klogv2.errNegativeLevel, w))
  /\ (forall (pc : uintptr) (FileLine : uintptr -> GoString) err w',
        program_Set (Join (segs1 ++ (p ++ str "=" ++ t) :: segs2) ",") w
        = Returns (err, w') ->
        vModuleFilter (vmodule w') = vModuleFilter (vmodule w)
        /\ vmoduleGet FileLine pc (vmodule w') = vmoduleGet FileLine pc (vmodule w)).
Proof.
  intros Hsegs Hp1 Hp2 Ht1 Ht2 Hneg.
  assert (Hrej : exists err,
             program_Set (Join (segs1 ++ (p ++ str "=" ++ t) :: segs2) ",") w
             = Returns (Some err, w)).
  { destruct (moduleSpec_Set_rejects segs1 segs2 p t (engine w)
                Hsegs Hp1 Hp2 Ht1 Ht2 (or_intror Hneg)) as [err H].
    exists err. apply program_Set_rejects, H. }
  split; [exact Hrej|]. split.
  - intros Hp Herr. apply program_Set_rejects.
    apply Forall_app in Hsegs as [_ Hs2].
    unfold klogv2.moduleSpec_Set. change (str "=" ++ t) with ("="%char :: t).
    rewrite Split_Join.
    2:{ discriminate. }
    2:{ constructor; [|exact Hs2].
        rewrite in_app_iff. simpl. intros [H|[H|H]]; [tauto|discriminate|tauto]. }
    cbn [klogv2.moduleSpec_Set_loop].
    replace (len (p ++ "="%char :: t) =? 0) with false.
    2:{ symmetry. apply Z.eqb_neq. unfold len. rewrite length_app. simpl. lia. }
    rewrite Split_app_sep by exact Hp2. rewrite Split_no_sep by exact Ht2.
    replace (len p =? 0) with false.
    2:{ destruct p; [congruence|reflexivity]. }
    replace (len t =? 0) with false.
    2:{ destruct t; [simpl in Hneg; lia|reflexivity]. }
    cbn [orb].
    destruct (strconv.ParseInt t 10 32) as [v e]. cbn [fst snd] in *. subst e.
    replace (v <? 0) with true by (symmetry; apply Z.ltb_lt; exact Hneg).
    reflexivity.
  - intros pc FileLine err w' H. destruct Hrej as [err0 H0].
    rewrite H0 in H. injection H as _ <-. split; reflexivity.
Qed.

Lemma negative_level_is_rejected_witness :
  let w := mkWorld (klogv2.mkLogging 0 1 [mkModulePat (str "abc") true 2])
             (mkGlobal [mkModulePat (str "abc") true 2] (Some ∅)) in
  (exists err, program_Set (str "x=1,foo=-3") w = Returns (Some err, w))
  /\ program_Set (str "foo=-3,x=1") w = Returns (Some klogv2.errNegativeLevel, w).
Proof.
  intros w. split.
  - exact (proj1 (negative_level_is_rejected [str "x=1"] [] (str "foo") (str "-3") w
                    ltac:(repeat constructor; not_in) ltac:(not_in) ltac:(not_in)
                    ltac:(not_in) ltac:(not_in) ltac:(vm_compute; reflexivity))).
  - exact (proj1 (proj2 (negative_level_is_rejected [] [str "x=1"] (str "foo")
                           (str "-3") w
                           ltac:(repeat constructor; not_in) ltac:(not_in)
                           ltac:(not_in) ltac:(not_in) ltac:(not_in)
                           ltac:(vm_compute; reflexivity)))
             ltac:(discriminate) eq_refl).
Defined.

(** C10 fails as stated in the program: on ["foo=-3"] [Set] returns the
    error of the engine's flag value, and the filter, which has no rule
    for [foo], stays what it was. *)
Lemma negative_level_adds_no_rule :
  exists w,
    program_Set (str "abc=2") programInit = Returns (None, w)
    /\ vModuleFilter (vmodule w) = [mkModulePat (str "abc") true 2]
    /\ strconv.ParseInt (str "-3") 10 32 = (-3, None)
    /\ program_Set (str "foo=-3") w = Returns (Some klogv2.errNegativeLevel, w).
Proof. eexists. repeat split; reflexivity. Qed.

(** ** The theorems at work on a small program *)


Lemma first_match_wins_witness :
  firstMatch ([] ++ mkModulePat (str "a*") false 1 :: [mkModulePat (str "abc") true 5])
             (str "abc") = Some 1
  /\ exists g', vmoduleGet demoFileLine 1
                  (mkGlobal [mkModulePat (str "a*") false 1;
                             mkModulePat (str "abc") true 5] (Some ∅))
                = Returns (1, g').
Proof.
  split.
  - exact (proj1 (proj1 (first_match_wins accept_all demoFileLine) []
                    [mkModulePat (str "abc") true 5]
                    (mkModulePat (str "a*") false 1) (str "abc")
                    (List.Forall_nil _) eq_refl)).
  - exact (proj2 (proj2 (first_match_wins accept_all demoFileLine)
                    (mkWorld tt global_init)
                    (demoWorld [mkModulePat (str "a*") false 1;
                                mkModulePat (str "abc") true 5])
                    1%N eq_refl eq_refl)).
Defined.



Lemma Set_twice_witness :
  exists r2 w2,
    vmoduleValue_Set accept_all (str "a*=1,abc=5")
      (demoWorld [mkModulePat (str "a*") false 1; mkModulePat (str "abc") true 5])
    = Returns (r2, w2)
    /\ vmodule w2 = mkGlobal [mkModulePat (str "a*") false 1;
                              mkModulePat (str "abc") true 5] (Some ∅)
    /\ forall pc, vmoduleGet demoFileLine pc (vmodule w2)
                  = vmoduleGet demoFileLine pc
                      (mkGlobal [mkModulePat (str "a*") false 1;
                                 mkModulePat (str "abc") true 5] (Some ∅)).
Proof.
  refine (Set_twice accept_all demoFileLine (str "a*=1,abc=5")
            (mkWorld tt global_init)
            (demoWorld [mkModulePat (str "a*") false 1; mkModulePat (str "abc") true 5])
            None eq_refl _).
  intros H. exfalso. apply H. reflexivity.
Defined.

(** ** C7: the file name of a call site *)

Lemma HasSuffix_spec (s suffix : GoString) :
  strings.HasSuffix s suffix = true <-> exists q, s = q ++ suffix.
Proof.
  unfold strings.HasSuffix, len. split.
  - intros H. apply andb_true_iff in H as [_ H]. apply streq_eq in H.
    exists (firstn (length s - length suffix) s).
    pose proof (firstn_skipn (length s - length suffix) s) as E.
    rewrite H in E. symmetry. exact E.
  - intros [q ->]. apply andb_true_iff. split.
    + apply Z.leb_le. rewrite length_app. lia.
    + apply streq_eq. rewrite length_app.
      replace (length q + length suffix - length suffix)%nat with (length q) by lia.
      rewrite skipn_app, skipn_all, Nat.sub_diag. reflexivity.
Qed.

Lemma LastIndex_spec (s : GoString) (c : ascii) :
  (strings.LastIndex s c = -1 /\ ~ In c s)
  \/ (exists d b, s = d ++ c :: b /\ ~ In c b /\ strings.LastIndex s c = len d).
Proof.
  induction s as [|x s IH]; [left; simpl; tauto|].
  cbn [strings.LastIndex]. destruct IH as [[Hr Hn]|(d & b & -> & Hb & Hr)].
  - rewrite Hr. cbn [Z.leb Z.compare].
    destruct (Ascii.eqb_spec x c) as [->|Hne].
    + right. exists [], s. auto.
    + left. split; [reflexivity|]. simpl. intros [H|H]; [congruence|tauto].
  - right. rewrite Hr.
    replace (0 <=? len d) with true by (symmetry; apply Z.leb_le; unfold len; lia).
    exists (x :: d), b. split; [reflexivity|]. split; [exact Hb|].
    unfold len. simpl length. lia.
Qed.

(** C7.  The name that is matched against the filter comes from the path
    of the call site in two steps.  First the suffix [".go"] is removed
    when the path ends with it, and the path is left as it is otherwise:
    this gives [stem].  Then everything up to and including the last
    ['/'] of [stem] is removed, and [stem] is left as it is when there is
    no ['/'] in it.  [vmoduleGet] matches that name when the call site is
    not in the cache. *)
Theorem trimFile_base_name :
  (forall path : GoString,
      exists stem,
        (path = stem ++ str ".go"
         \/ (stem = path /\ forall q, path <> q ++ str ".go"))
        /\ ((exists dir, stem = dir ++ "/"%char :: trimFile path
                         /\ ~ In "/"%char (trimFile path))
            \/ (trimFile path = stem /\ ~ In "/"%char stem)))
  /\ (forall (FileLine : uintptr -> GoString) (g : global) (m : gmap uintptr Level)
             (pc : uintptr),
        vModuleCache g = Some m -> m !! pc = None ->
        exists g', vmoduleGet FileLine pc g
                   = Returns (filterLevel (vModuleFilter g) (trimFile (FileLine pc)), g')).
Proof.
  split.
  - intros path. unfold trimFile.
    set (stem := if strings.HasSuffix path (str ".go")
                 then firstn (Z.to_nat (len path - 3)) path else path).
    exists stem. split.
    + subst stem. destruct (strings.HasSuffix path (str ".go")) eqn:E.
      * left. apply HasSuffix_spec in E as [q ->].
        unfold len. rewrite length_app. simpl length.
        replace (Z.to_nat _) with (length q + 0)%nat by lia.
        rewrite firstn_app_2. simpl. rewrite app_nil_r. reflexivity.
      * right. split; [reflexivity|]. intros q Hq.
        assert (strings.HasSuffix path (str ".go") = true)
          by (apply HasSuffix_spec; eauto).
        congruence.
    + destruct (LastIndex_spec stem "/") as [[Hr Hn]|(d & b & Hs & Hb & Hr)].
      * right. rewrite Hr. split; [reflexivity|exact Hn].
      * left. rewrite Hr.
        replace (0 <=? len d) with true by (symmetry; apply Z.leb_le; unfold len; lia).
        assert (Hk : skipn (Z.to_nat (len d + 1)) stem = b).
        { rewrite Hs. unfold len.
          replace (Z.to_nat _) with (length d + 1)%nat by lia.
          rewrite skipn_app.
          replace (length d + 1 - length d)%nat with 1%nat by lia.
          rewrite skipn_all2 by lia. reflexivity. }
        rewrite Hk. exists d. split; [exact Hs|exact Hb].
  - intros FileLine g m pc Hc Hm. eexists. apply Get_miss; eauto.
Qed.

Lemma trimFile_base_name_witness :
  trimFile (str "/src/pkg/abc.go") = str "abc"
  /\ exists g', vmoduleGet demoFileLine 1
                  (mkGlobal [mkModulePat (str "abc") true 5] (Some ∅))
                = Returns (filterLevel [mkModulePat (str "abc") true 5]
                             (trimFile (demoFileLine 1)), g').
Proof.
  split; [reflexivity|].
  exact (proj2 trimFile_base_name demoFileLine
           (mkGlobal [mkModulePat (str "abc") true 5] (Some ∅)) ∅ 1%N
           eq_refl eq_refl).
Defined.

Example trimFile_examples :
  map (fun p => trimFile (str p))
      ["/a/b/c/d.go"; "d.go"; "/a/b/d"; "d"; "/a/b/.go"; "a.go/b"; ".go"; "go"]%string
  = map str ["d"; "d"; "d"; "d"; ""; "b"; ""; "go"]%string.
Proof. reflexivity. Qed.

(** ** ASCII strings *)

Lemma byteval_inj (c d : ascii) : byteval c = byteval d -> c = d.
Proof.
  unfold byteval. intros H. apply N2Z.inj in H.
  rewrite <- (ascii_N_embedding c), <- (ascii_N_embedding d), H. reflexivity.
Qed.

Lemma eqb_byteval (c d : ascii) : Ascii.eqb c d = (byteval c =? byteval d).
Proof.
  destruct (Ascii.eqb_spec c d) as [->|Hne].
  - symmetry. apply Z.eqb_refl.
  - symmetry. apply Z.eqb_neq. intros H. apply Hne, byteval_inj, H.
Qed.

Lemma isASCII_cons (c : ascii) (s : GoString) :
  isASCII (c :: s) = true <-> byteval c < 128 /\ isASCII s = true.
Proof.
  unfold isASCII. simpl. rewrite andb_true_iff, Z.ltb_lt. reflexivity.
Qed.

Lemma isASCII_app (s t : GoString) :
  isASCII (s ++ t) = true <-> isASCII s = true /\ isASCII t = true.
Proof. unfold isASCII. rewrite forallb_app, andb_true_iff. reflexivity. Qed.

Lemma isASCII_skipn (n : nat) (s : GoString) :
  isASCII s = true -> isASCII (skipn n s) = true.
Proof.
  intros H. rewrite <- (firstn_skipn n s) in H. apply isASCII_app in H. tauto.
Qed.

Lemma isASCII_firstn (n : nat) (s : GoString) :
  isASCII s = true -> isASCII (firstn n s) = true.
Proof.
  intros H. rewrite <- (firstn_skipn n s) in H. apply isASCII_app in H. tauto.
Qed.

Lemma Decode_ascii (c : ascii) (s : GoString) :
  byteval c < 128 -> utf8.DecodeRuneInString (c :: s) = (byteval c, 1%nat).
Proof.
  intros H. unfold utf8.DecodeRuneInString, utf8.first.
  replace (byteval c <? 128) with true by (symmetry; apply Z.ltb_lt; exact H).
  reflexivity.
Qed.

Lemma runes_fuel_ascii (fuel : nat) (s : GoString) :
  isASCII s = true -> (length s <= fuel)%nat -> runes_fuel fuel s = bs s.
Proof.
  revert s; induction fuel as [|fuel IH]; intros [|c s] Hs Hl; cbn [length] in Hl;
    try reflexivity; try lia.
  apply isASCII_cons in Hs as [Hc Hs].
  cbn [runes_fuel]. rewrite Decode_ascii by exact Hc.
  change (skipn 1 (c :: s)) with s. cbn [map].
  rewrite IH by (auto; lia). reflexivity.
Qed.

Lemma runes_ascii (s : GoString) : isASCII s = true -> runes s = bs s.
Proof. intros H. apply runes_fuel_ascii; [exact H|lia]. Qed.

(** The tests of the code on a byte, as tests on its value. *)
Lemma eqb_star (c : ascii) : Ascii.eqb c "*" = (byteval c =? chStar).
Proof. apply eqb_byteval. Qed.
Lemma eqb_dash (c : ascii) : Ascii.eqb c "-" = (byteval c =? chDash).
Proof. apply eqb_byteval. Qed.
Lemma eqb_question (c : ascii) : Ascii.eqb c "?" = (byteval c =? chQuestion).
Proof. apply eqb_byteval. Qed.
Lemma eqb_open (c : ascii) : Ascii.eqb c "[" = (byteval c =? chOpen).
Proof. apply eqb_byteval. Qed.
Lemma eqb_backslash (c : ascii) : Ascii.eqb c "\" = (byteval c =? chBackslash).
Proof. apply eqb_byteval. Qed.
Lemma eqb_close (c : ascii) : Ascii.eqb c "]" = (byteval c =? chClose).
Proof. apply eqb_byteval. Qed.
Lemma eqb_caret (c : ascii) : Ascii.eqb c "^" = (byteval c =? chCaret).
Proof. apply eqb_byteval. Qed.

Ltac to_values :=
  rewrite ?eqb_star, ?eqb_dash, ?eqb_question, ?eqb_open, ?eqb_backslash,
    ?eqb_close, ?eqb_caret in *.

(** ** The character classes of [matchChunk] *)

Lemma getEsc_ascii (chunk : GoString) :
  isASCII chunk = true ->
  filepath.getEsc chunk =
  match chunk with
  | [] => (0, [], true)
  | c :: rest =>
      if (byteval c =? chDash) || (byteval c =? chClose) then (0, [], true)
      else
        match (if byteval c =? chBackslash then rest else chunk) with
        | [] => (0, [], true)
        | x :: tl => (byteval x, tl, match tl with [] => true | _ => false end)
        end
  end.
Proof.
  intros HA. destruct chunk as [|c rest]; [reflexivity|].
  unfold filepath.getEsc. to_values.
  destruct ((byteval c =? chDash) || (byteval c =? chClose)); [reflexivity|].
  apply isASCII_cons in HA as [Hc Hrest].
  destruct (byteval c =? chBackslash) eqn:Eb.
  - destruct rest as [|x tl]; [reflexivity|]. cbn [andb len length Z.of_nat Z.eqb].
    apply isASCII_cons in Hrest as [Hx Htl].
    rewrite Decode_ascii by exact Hx. cbn [skipn].
    replace (byteval x =? utf8.RuneError) with false
      by (symmetry; apply Z.eqb_neq; unfold utf8.RuneError; lia).
    destruct tl; reflexivity.
  - cbn [andb]. rewrite Decode_ascii by exact Hc. cbn [skipn].
    replace (byteval c =? utf8.RuneError) with false
      by (symmetry; apply Z.eqb_neq; unfold utf8.RuneError; lia).
    destruct rest; reflexivity.
Qed.

Lemma inRanges_cons (lo hi : Z) (acc : list (Z * Z)) (r : Z) :
  inRanges ((lo, hi) :: acc) r = inRanges acc r || ((lo <=? r) && (r <=? hi)).
Proof. unfold inRanges. simpl. apply orb_comm. Qed.

Lemma inRanges_rev (acc : list (Z * Z)) (r : Z) :
  inRanges (rev acc) r = inRanges acc r.
Proof.
  unfold inRanges. induction acc as [|x acc IH]; [reflexivity|].
  simpl. rewrite existsb_app, IH. simpl. rewrite orb_false_r. apply orb_comm.
Qed.

Lemma len_cons {A : Type} (x : A) (l : list A) : len (x :: l) = len l + 1.
Proof. unfold len. cbn [length]. lia. Qed.

Lemma len_pos_cons {A : Type} (x : A) (l : list A) : (0 <? len (x :: l)) = true.
Proof. apply Z.ltb_lt. rewrite len_cons. unfold len. lia. Qed.

Lemma len_eq0_cons {A : Type} (x : A) (l : list A) : (len (x :: l) =? 0) = false.
Proof. apply Z.eqb_neq. rewrite len_cons. unfold len. lia. Qed.

(** One turn of the loop over the ranges of a class, on ASCII bytes. *)
Lemma classLoop_unfold (fuel : nat) (r : Z) (chunk : GoString)
    (m : bool) (nr : Z) :
  isASCII chunk = true ->
  filepath.classLoop (S fuel) r chunk m nr =
  match chunk with
  | [] => Some None
  | c1 :: t1 =>
      if byteval c1 =? chClose then
        if 0 <? nr then Some (Some (t1, m)) else Some None
      else if byteval c1 =? chDash then Some None
      else
        match (if byteval c1 =? chBackslash then t1 else chunk) with
        | [] => Some None
        | lo :: t2 =>
            match t2 with
            | [] => Some None
            | d :: t3 =>
                if byteval d =? chDash then
                  match t3 with
                  | [] => Some None
                  | h :: t4 =>
                      if (byteval h =? chDash) || (byteval h =? chClose)
                      then Some None
                      else
                        match (if byteval h =? chBackslash then t4 else t3) with
                        | [] => Some None
                        | hi :: t5 =>
                            match t5 with
                            | [] => Some None
                            | _ =>
                                filepath.classLoop fuel r t5
                                  (m || ((byteval lo <=? r) && (r <=? byteval hi)))
                                  (nr + 1)
                            end
                        end
                  end
                else
                  filepath.classLoop fuel r t2
                    (m || ((byteval lo <=? r) && (r <=? byteval lo))) (nr + 1)
            end
        end
  end.
Proof.
  intros HA. cbn [filepath.classLoop]. rewrite getEsc_ascii by exact HA.
  destruct chunk as [|c1 t1]; [reflexivity|]. to_values.
  destruct (byteval c1 =? chClose) eqn:Eclose; cbn [andb orb].
  { destruct (0 <? nr); [reflexivity|]. rewrite orb_true_r. reflexivity. }
  destruct (byteval c1 =? chDash); cbn [orb]; [reflexivity|].
  assert (HA2 : isASCII (if byteval c1 =? chBackslash then t1 else c1 :: t1) = true).
  { destruct (byteval c1 =? chBackslash); [|exact HA].
    apply isASCII_cons in HA. tauto. }
  destruct (if byteval c1 =? chBackslash then t1 else c1 :: t1) as [|lo t2];
    [reflexivity|].
  apply isASCII_cons in HA2 as [_ HA2].
  destruct t2 as [|d t3]; [reflexivity|]. to_values.
  destruct (byteval d =? chDash); [|reflexivity].
  apply isASCII_cons in HA2 as [_ HA3].
  rewrite getEsc_ascii by exact HA3.
  destruct t3 as [|h t4]; [reflexivity|].
  destruct ((byteval h =? chDash) || (byteval h =? chClose)); [reflexivity|].
  destruct (if byteval h =? chBackslash then t4 else h :: t4) as [|hi t5];
    [reflexivity|].
  destruct t5; reflexivity.
Qed.

(** The loop over the ranges of a class reads what [readClass] reads. *)
Lemma classLoop_spec (fuel : nat) (r : Z) (chunk : GoString) (acc : list (Z * Z)) :
  isASCII chunk = true -> (length chunk < fuel)%nat ->
  match readClass (bs chunk) acc with
  | None =>
      filepath.classLoop fuel r chunk (inRanges acc r) (len acc) = Some None
  | Some (rs, rest) =>
      exists chunk',
        rest = bs chunk' /\ isASCII chunk' = true
        /\ (length chunk' < length chunk)%nat
        /\ filepath.classLoop fuel r chunk (inRanges acc r) (len acc)
           = Some (Some (chunk', inRanges rs r))
  end.
Proof.
  revert chunk acc. induction fuel as [|fuel IH]; intros chunk acc HA Hl; [lia|].
  rewrite classLoop_unfold by exact HA.
  destruct chunk as [|c1 t1]; [reflexivity|].
  cbn [map readClass].
  destruct (byteval c1 =? chClose).
  { destruct acc as [|a acc']; [reflexivity|]. rewrite len_pos_cons.
    exists t1. rewrite inRanges_rev. apply isASCII_cons in HA.
    cbn [length]. repeat split; [tauto|lia]. }
  destruct (byteval c1 =? chDash); [reflexivity|].
  assert (Hlo : isASCII (if byteval c1 =? chBackslash then t1 else c1 :: t1) = true
                /\ (length (if (byteval c1 =? chBackslash)%Z then t1 else c1 :: t1)
                    <= length (c1 :: t1))%nat
                /\ (if byteval c1 =? chBackslash then bs t1 else byteval c1 :: bs t1)
                   = bs (if byteval c1 =? chBackslash then t1 else c1 :: t1)).
  { destruct (byteval c1 =? chBackslash); cbn [length]; [|auto].
    apply isASCII_cons in HA. split; [tauto|]. split; [lia|reflexivity]. }
  destruct Hlo as (HA2 & Hl2 & ->).
  destruct (if byteval c1 =? chBackslash then t1 else c1 :: t1) as [|lo t2];
    [reflexivity|].
  apply isASCII_cons in HA2 as [_ HA2]. cbn [map].
  destruct t2 as [|d t3]; [reflexivity|]. cbn [map].
  destruct (byteval d =? chDash).
  - (* a range lo-hi *)
    apply isASCII_cons in HA2 as [_ HA3].
    destruct t3 as [|h t4]; [reflexivity|]. cbn [map].
    destruct ((byteval h =? chDash) || (byteval h =? chClose)); [reflexivity|].
    assert (Hhi : isASCII (if byteval h =? chBackslash then t4 else h :: t4) = true
                  /\ (length (if (byteval h =? chBackslash)%Z then t4 else h :: t4)
                      <= length (h :: t4))%nat
                  /\ (if byteval h =? chBackslash then bs t4 else byteval h :: bs t4)
                     = bs (if byteval h =? chBackslash then t4 else h :: t4)).
    { destruct (byteval h =? chBackslash); cbn [length]; [|auto].
      apply isASCII_cons in HA3. split; [tauto|]. split; [lia|reflexivity]. }
    destruct Hhi as (HA4 & Hl4 & ->).
    destruct (if byteval h =? chBackslash then t4 else h :: t4) as [|hi t5];
      [reflexivity|].
    apply isASCII_cons in HA4 as [_ HA5]. cbn [map].
    cbn [length] in *.
    destruct t5 as [|x t6]; [reflexivity|].
    rewrite <- (inRanges_cons (byteval lo) (byteval hi)), <- (len_cons (byteval lo, byteval hi)).
    specialize (IH (x :: t6) ((byteval lo, byteval hi) :: acc) HA5
                  ltac:(cbn [length] in *; lia)).
    destruct (readClass (bs (x :: t6)) ((byteval lo, byteval hi) :: acc))
      as [[rs rest]|]; [|exact IH].
    destruct IH as (chunk' & E1 & E2 & E3 & E4).
    exists chunk'. cbn [length] in *. repeat split; auto. lia.
  - (* a single character *)
    cbn [length] in *.
    rewrite <- (inRanges_cons (byteval lo) (byteval lo)), <- (len_cons (byteval lo, byteval lo)).
    specialize (IH (d :: t3) ((byteval lo, byteval lo) :: acc) HA2
                  ltac:(cbn [length] in *; lia)).
    cbn [map] in IH.
    destruct (readClass (byteval d :: bs t3) ((byteval lo, byteval lo) :: acc))
      as [[rs rest]|]; [|exact IH].
    destruct IH as (chunk' & E1 & E2 & E3 & E4).
    exists chunk'. cbn [length] in *. repeat split; auto. lia.
Qed.

(** ** [matchChunk] and the terms of a chunk *)

Lemma chunkOutcome_failed (ts : list term) (s : GoString) :
  chunkOutcome ts s true = filepath.NoMatch.
Proof. reflexivity. Qed.

Lemma chunkOutcome_cons (t : term) (ts : list term) (s : GoString) (failed : bool) :
  chunkOutcome (t :: ts) s failed =
  match s with
  | [] => filepath.NoMatch
  | s0 :: s1 => chunkOutcome ts s1 (failed || negb (termMatches t (byteval s0)))
  end.
Proof.
  unfold chunkOutcome. destruct failed; [destruct s; reflexivity|].
  destruct s as [|s0 s1]; [reflexivity|]. cbn [map prefixOK orb length skipn].
  destruct (termMatches t (byteval s0)); reflexivity.
Qed.

Ltac values_eq :=
  repeat match goal with
         | H : (_ =? _) = true |- _ => apply Z.eqb_eq in H
         | H : (_ =? _) = false |- _ => apply Z.eqb_neq in H
         end;
  unfold chStar, chDash, chQuestion, chOpen, chBackslash, chClose, chCaret in *.

Lemma not_In_cons {A : Type} (x y : A) (l : list A) :
  ~ In x (y :: l) <-> y <> x /\ ~ In x l.
Proof. simpl. tauto. Qed.

Lemma matchChunk_loop_spec (fuel : nat) (chunk s : GoString) (failed : bool) :
  isASCII chunk = true -> isASCII s = true -> ~ In filepath.Separator s ->
  (length chunk < fuel)%nat ->
  filepath.matchChunk_loop fuel chunk s failed =
  Some match chunkTerms_fuel fuel (bs chunk) with
       | None => filepath.BadPattern
       | Some ts => chunkOutcome ts s failed
       end.
Proof.
  revert chunk s failed.
  induction fuel as [|fuel IH]; intros chunk s failed HA Hs Hsep Hl; [lia|].
  destruct chunk as [|c chunk']; [destruct failed; reflexivity|].
  apply isASCII_cons in HA as [Hc HA']. cbn [length] in Hl.
  cbn [filepath.matchChunk_loop map chunkTerms_fuel readUnit readTerm].
  to_values.
  destruct (byteval c =? chOpen) eqn:Eopen.
  { (* a character class *)
    replace (byteval c =? chStar) with false by (symmetry; values_eq; lia).
    replace (byteval c =? chQuestion) with false by (symmetry; values_eq; lia).
    (* the negation *)
    set (nb := match chunk' with
               | c1 :: chunk'' =>
                   if Ascii.eqb c1 "^" then (true, chunk'') else (false, chunk')
               | [] => (false, chunk')
               end).
    assert (Hnb : isASCII (snd nb) = true /\ (length (snd nb) <= length chunk')%nat
                  /\ match bs chunk' with
                     | d :: cs2 => if d =? chCaret then (true, cs2) else (false, bs chunk')
                     | [] => (false, bs chunk')
                     end = (fst nb, bs (snd nb))).
    { subst nb. destruct chunk' as [|c1 chunk'']; [auto|]. to_values. cbn [map].
      destruct (byteval c1 =? chCaret); cbn [fst snd length]; [|auto].
      apply isASCII_cons in HA'. split; [tauto|]. split; [lia|reflexivity]. }
    destruct Hnb as (HAb & Hlb & ->). destruct nb as [negated body].
    cbn [fst snd] in *.
    (* the character of the name *)
    set (rs' := if failed || (len s =? 0) then (0, s)
                else let '(r, n) := utf8.DecodeRuneInString s in (r, skipn n s)).
    pose proof (classLoop_spec fuel (fst rs') body [] HAb ltac:(lia)) as HC.
    change (inRanges [] (fst rs')) with false in HC. change (len []) with 0 in HC.
    destruct rs' as [r s'] eqn:Ers. cbn [fst] in HC.
    destruct (readClass (bs body) []) as [[ranges rest]|].
    2:{ rewrite HC. reflexivity. }
    destruct HC as (chunk3 & -> & HA3 & Hl3 & ->).
    assert (Hs' : isASCII s' = true /\ ~ In filepath.Separator s'
                  /\ forall ts,
                       chunkOutcome (Class negated ranges :: ts) s failed
                       = chunkOutcome ts s'
                           (failed || (len s =? 0)
                            || Bool.eqb (inRanges ranges r) negated)).
    { subst rs'. destruct s as [|s0 s1].
      - rewrite orb_true_r in Ers. injection Ers as <- <-.
        split; [exact Hs|]. split; [exact Hsep|]. intros ts.
        rewrite chunkOutcome_cons, orb_true_r. reflexivity.
      - rewrite len_eq0_cons, orb_false_r in Ers.
        rewrite len_eq0_cons, orb_false_r.
        destruct failed.
        + injection Ers as <- <-.
          split; [exact Hs|]. split; [exact Hsep|]. intros ts.
          rewrite chunkOutcome_cons. reflexivity.
        + apply isASCII_cons in Hs as [Hs0 Hs1].
          apply not_In_cons in Hsep as [_ Hsep1].
          rewrite Decode_ascii in Ers by exact Hs0. injection Ers as <- <-.
          split; [exact Hs1|]. split; [exact Hsep1|]. intros ts.
          rewrite chunkOutcome_cons. cbn [orb termMatches]. f_equal.
          destruct (inRanges ranges (byteval s0)), negated; reflexivity. }
    destruct Hs' as (HAs' & Hsep' & Hout).
    rewrite (IH chunk3 s' _ HA3 HAs' Hsep' ltac:(lia)).
    destruct (chunkTerms_fuel fuel (bs chunk3)) as [ts|]; cbn [option_map];
      [|reflexivity].
    rewrite Hout. reflexivity. }
  destruct (byteval c =? chQuestion) eqn:Equestion.
  { (* a single character *)
    replace (byteval c =? chStar) with false by (symmetry; values_eq; lia).
    assert (Hq : forall ts, chunkOutcome (Any :: ts) s failed
                   = chunkOutcome ts (if failed || (len s =? 0) then s else skipn 1 s)
                       (failed || (len s =? 0))).
    { intros ts. rewrite chunkOutcome_cons. destruct s as [|s0 s1].
      - rewrite orb_true_r. reflexivity.
      - rewrite len_eq0_cons, orb_false_r. cbn [termMatches negb].
        rewrite orb_false_r. destruct failed; reflexivity. }
    destruct (failed || (len s =? 0)) eqn:Ef.
    - rewrite (IH chunk' s _ HA' Hs Hsep ltac:(lia)).
      destruct (chunkTerms_fuel fuel (bs chunk')) as [ts|]; cbn [option_map];
        [|reflexivity].
      rewrite Hq. reflexivity.
    - destruct s as [|s0 s1]; [rewrite orb_true_r in Ef; discriminate|].
      apply isASCII_cons in Hs as [Hs0 Hs1].
      apply not_In_cons in Hsep as [Hne Hsep1].
      rewrite Decode_ascii by exact Hs0.
      replace (Ascii.eqb s0 filepath.Separator) with false
        by (symmetry; apply Ascii.eqb_neq; exact Hne).
      rewrite (IH chunk' _ _ HA' ltac:(exact Hs1) ltac:(exact Hsep1) ltac:(lia)).
      destruct (chunkTerms_fuel fuel (bs chunk')) as [ts|]; cbn [option_map];
        [|reflexivity].
      rewrite Hq. reflexivity. }
  (* a literal byte *)
  assert (Hlit : forall (d : ascii) ts, chunkOutcome (Lit (byteval d) :: ts) s failed
                   = match s with
                     | s0 :: s' =>
                         chunkOutcome ts (if failed then s else s')
                           (if failed then true else negb (Ascii.eqb d s0))
                     | [] => chunkOutcome ts s true
                     end).
  { intros d ts. rewrite chunkOutcome_cons. destruct s as [|s0 s1]; [reflexivity|].
    cbn [termMatches]. rewrite eqb_byteval, (Z.eqb_sym (byteval s0)).
    destruct failed; reflexivity. }
  assert (Hgo : forall (d : ascii) (chunk'' : GoString),
            isASCII chunk'' = true -> (length chunk'' < fuel)%nat ->
            (if failed || (len s =? 0)
             then filepath.matchChunk_loop fuel chunk'' s (failed || (len s =? 0))
             else match s with
                  | s0 :: s' => filepath.matchChunk_loop fuel chunk'' s' (negb (Ascii.eqb d s0))
                  | [] => filepath.matchChunk_loop fuel chunk'' s true
                  end)
            = Some match option_map (cons (Lit (byteval d)))
                           (chunkTerms_fuel fuel (bs chunk'')) with
                   | Some ts => chunkOutcome ts s failed
                   | None => filepath.BadPattern
                   end).
  { intros d chunk'' HA'' Hl''.
    destruct s as [|s0 s1].
    - rewrite orb_true_r.
      rewrite (IH chunk'' _ _ HA'' Hs Hsep Hl'').
      destruct (chunkTerms_fuel fuel (bs chunk'')) as [ts|]; cbn [option_map];
        [|reflexivity].
      rewrite Hlit. reflexivity.
    - rewrite len_eq0_cons, orb_false_r.
      destruct failed.
      + rewrite (IH chunk'' _ _ HA'' Hs Hsep Hl'').
        destruct (chunkTerms_fuel fuel (bs chunk'')) as [ts|]; cbn [option_map];
          [|reflexivity].
        rewrite Hlit. reflexivity.
      + pose proof Hs as Hs2. apply isASCII_cons in Hs2 as [Hs0 Hs1].
        pose proof Hsep as Hsep2. apply not_In_cons in Hsep2 as [Hne Hsep1].
        rewrite (IH chunk'' _ _ HA'' Hs1 Hsep1 Hl'').
        destruct (chunkTerms_fuel fuel (bs chunk'')) as [ts|]; cbn [option_map];
          [|reflexivity].
        rewrite Hlit. reflexivity. }
  destruct (byteval c =? chBackslash) eqn:Eback.
  - replace (byteval c =? chStar) with false by (symmetry; values_eq; lia).
    destruct chunk' as [|d chunk'']; [reflexivity|].
    rewrite len_eq0_cons. cbn [andb map].
    apply isASCII_cons in HA' as [_ HA'']. cbn [length] in Hl.
    apply Hgo; [exact HA''|lia].
  - cbn [andb].
    destruct (byteval c =? chStar); apply Hgo; solve [exact HA'|lia].
Qed.

(** ** Enough fuel *)

Lemma readClass_shorter (cs : list Z) :
  forall acc rs rest,
    readClass cs acc = Some (rs, rest) -> (length rest < length cs)%nat.
Proof.
  induction cs as [cs IH] using (induction_ltof1 _ (@length Z)).
  unfold ltof in IH. intros acc rs rest.
  destruct cs as [|c cs1]; [discriminate|]. cbn [readClass].
  destruct (c =? chClose).
  { destruct acc; [discriminate|]. intros [= _ <-]. cbn [length]. lia. }
  destruct (c =? chDash); [discriminate|].
  assert (Hlo : (length (if (c =? chBackslash)%Z then cs1 else c :: cs1)
                 <= length (c :: cs1))%nat).
  { destruct (c =? chBackslash)%Z; cbn [length]; lia. }
  destruct (if c =? chBackslash then cs1 else c :: cs1) as [|lo cs2]; [discriminate|].
  destruct cs2 as [|d cs3]; [discriminate|].
  cbn [length] in *.
  destruct (d =? chDash).
  - destruct cs3 as [|h cs4]; [discriminate|].
    destruct ((h =? chDash) || (h =? chClose)); [discriminate|].
    assert (Hhi : (length (if (h =? chBackslash)%Z then cs4 else h :: cs4)
                   <= length (h :: cs4))%nat).
    { destruct (h =? chBackslash)%Z; cbn [length]; lia. }
    destruct (if h =? chBackslash then cs4 else h :: cs4) as [|hi cs5]; [discriminate|].
    cbn [length] in *. intros H. apply IH in H; cbn [length]; lia.
  - intros H. apply IH in H; cbn [length] in *; lia.
Qed.

Lemma readTerm_shorter (cs : list Z) (t : term) (rest : list Z) :
  readTerm cs = Some (t, rest) -> (length rest < length cs)%nat.
Proof.
  destruct cs as [|c cs1]; [discriminate|]. cbn [readTerm length].
  destruct (c =? chStar); [intros [= _ <-]; lia|].
  destruct (c =? chQuestion); [intros [= _ <-]; lia|].
  destruct (c =? chOpen).
  - set (nb := match cs1 with
               | d :: cs2 => if d =? chCaret then (true, cs2) else (false, cs1)
               | [] => (false, cs1)
               end).
    assert (Hnb : (length (snd nb) <= length cs1)%nat).
    { subst nb. destruct cs1 as [|d cs2]; [cbn; lia|].
      destruct (d =? chCaret); cbn [snd length]; lia. }
    destruct nb as [negated body]. cbn [snd] in Hnb.
    destruct (readClass body []) as [[ranges rest']|] eqn:E; [|discriminate].
    apply readClass_shorter in E. intros [= _ <-]. lia.
  - destruct (c =? chBackslash).
    + destruct cs1 as [|d cs2]; [discriminate|]. intros [= _ <-]. cbn [length]. lia.
    + intros [= _ <-]. lia.
Qed.

Lemma readUnit_shorter (cs : list Z) (t : term) (rest : list Z) :
  readUnit cs = Some (t, rest) -> (length rest < length cs)%nat.
Proof.
  destruct cs as [|c cs1]; [discriminate|]. cbn [readUnit].
  destruct (c =? chStar); [intros [= _ <-]; cbn [length]; lia|].
  apply readTerm_shorter.
Qed.

Lemma chunkTerms_fuel_enough (n m : nat) (cs : list Z) :
  (length cs <= n)%nat -> (length cs <= m)%nat ->
  chunkTerms_fuel n cs = chunkTerms_fuel m cs.
Proof.
  revert m cs; induction n as [|n IH]; intros m cs Hn Hm.
  - destruct cs; [destruct m; reflexivity|cbn [length] in Hn; lia].
  - destruct cs as [|c cs1]; [destruct m; reflexivity|].
    destruct m as [|m]; [cbn [length] in Hm; lia|].
    cbn [chunkTerms_fuel].
    destruct (readUnit (c :: cs1)) as [[t rest]|] eqn:E; [|reflexivity].
    apply readUnit_shorter in E. cbn [length] in *.
    rewrite (IH m rest) by lia. reflexivity.
Qed.

Lemma parseGlob_fuel_enough (n m : nat) (cs : list Z) :
  (length cs <= n)%nat -> (length cs <= m)%nat ->
  parseGlob_fuel n cs = parseGlob_fuel m cs.
Proof.
  revert m cs; induction n as [|n IH]; intros m cs Hn Hm.
  - destruct cs; [destruct m; reflexivity|cbn [length] in Hn; lia].
  - destruct cs as [|c cs1]; [destruct m; reflexivity|].
    destruct m as [|m]; [cbn [length] in Hm; lia|].
    cbn [parseGlob_fuel].
    destruct (readTerm (c :: cs1)) as [[t rest]|] eqn:E; [|reflexivity].
    apply readTerm_shorter in E. cbn [length] in *.
    rewrite (IH m rest) by lia. reflexivity.
Qed.

Lemma parseGlob_nil : parseGlob [] = Some [].
Proof. reflexivity. Qed.

Lemma parseGlob_step (cs : list Z) :
  cs <> [] ->
  parseGlob cs = match readTerm cs with
                 | Some (t, rest) => option_map (cons t) (parseGlob rest)
                 | None => None
                 end.
Proof.
  intros Hne. destruct cs as [|c cs1]; [congruence|].
  unfold parseGlob. cbn [length parseGlob_fuel].
  destruct (readTerm (c :: cs1)) as [[t rest]|] eqn:E; [|reflexivity].
  apply readTerm_shorter in E. cbn [length] in E.
  rewrite (parseGlob_fuel_enough (length cs1) (length rest)) by lia. reflexivity.
Qed.

Lemma chunkTerms_nil : chunkTerms [] = Some [].
Proof. reflexivity. Qed.

Lemma chunkTerms_step (cs : list Z) :
  cs <> [] ->
  chunkTerms cs = match readUnit cs with
                  | Some (t, rest) => option_map (cons t) (chunkTerms rest)
                  | None => None
                  end.
Proof.
  intros Hne. destruct cs as [|c cs1]; [congruence|].
  unfold chunkTerms. cbn [length chunkTerms_fuel].
  destruct (readUnit (c :: cs1)) as [[t rest]|] eqn:E; [|reflexivity].
  apply readUnit_shorter in E. cbn [length] in E.
  rewrite (chunkTerms_fuel_enough (length cs1) (length rest)) by lia. reflexivity.
Qed.

(** [matchChunk] on ASCII bytes, by the terms of the chunk. *)
Lemma matchChunk_spec (chunk s : GoString) :
  isASCII chunk = true -> isASCII s = true -> ~ In filepath.Separator s ->
  filepath.matchChunk chunk s =
  match chunkTerms (bs chunk) with
  | None => filepath.BadPattern
  | Some ts => chunkOutcome ts s false
  end.
Proof.
  intros HA Hs Hsep. unfold filepath.matchChunk.
  rewrite matchChunk_loop_spec by (auto; lia).
  unfold chunkTerms.
  rewrite (chunkTerms_fuel_enough (S (length chunk)) (length (bs chunk)))
    by (rewrite length_map; lia).
  reflexivity.
Qed.

Lemma readUnit_not_Star (cs : list Z) (t : term) (rest : list Z) :
  readUnit cs = Some (t, rest) -> t <> Star.
Proof.
  destruct cs as [|c cs1]; [discriminate|]. cbn [readUnit readTerm].
  destruct (c =? chStar); [intros [= <- _]; discriminate|].
  destruct (c =? chQuestion); [intros [= <- _]; discriminate|].
  destruct (c =? chOpen).
  - destruct (match cs1 with
              | d :: cs2 => if d =? chCaret then (true, cs2) else (false, cs1)
              | [] => (false, cs1)
              end) as [negated body].
    destruct (readClass body []) as [[ranges rest']|]; [|discriminate].
    intros [= <- _]; discriminate.
  - destruct (c =? chBackslash).
    + destruct cs1; [discriminate|]. intros [= <- _]; discriminate.
    + intros [= <- _]; discriminate.
Qed.

Lemma chunkTerms_fuel_no_Star (fuel : nat) (cs : list Z) (ts : list term) :
  chunkTerms_fuel fuel cs = Some ts -> Forall (fun t => t <> Star) ts.
Proof.
  revert cs ts; induction fuel as [|fuel IH]; intros cs ts.
  - destruct cs; [intros [= <-]; constructor|discriminate].
  - destruct cs as [|c cs1]; [intros [= <-]; constructor|].
    cbn [chunkTerms_fuel].
    destruct (readUnit (c :: cs1)) as [[t rest]|] eqn:E; [|discriminate].
    destruct (chunkTerms_fuel fuel rest) as [ts'|] eqn:E'; [|discriminate].
    intros [= <-]. constructor; [eapply readUnit_not_Star; eauto|eapply IH; eauto].
Qed.

(** ** Where [scanChunk] cuts the pattern *)

Lemma scanLoop_backslash (c x : ascii) (t : GoString) (b : bool) :
  byteval c = chBackslash ->
  filepath.scanLoop (c :: x :: t) b = (2 + filepath.scanLoop t b)%nat.
Proof.
  intros H. cbn [filepath.scanLoop]. to_values. rewrite H. reflexivity.
Qed.

Lemma scanLoop_backslash_end (c : ascii) (b : bool) :
  byteval c = chBackslash -> filepath.scanLoop [c] b = 1%nat.
Proof.
  intros H. cbn [filepath.scanLoop]. to_values. rewrite H. reflexivity.
Qed.

Lemma scanLoop_close (c : ascii) (t : GoString) (b : bool) :
  byteval c = chClose ->
  filepath.scanLoop (c :: t) b = (1 + filepath.scanLoop t false)%nat.
Proof.
  intros H. cbn [filepath.scanLoop]. to_values. rewrite H. reflexivity.
Qed.

Lemma scanLoop_open (c : ascii) (t : GoString) (b : bool) :
  byteval c = chOpen ->
  filepath.scanLoop (c :: t) b = (1 + filepath.scanLoop t true)%nat.
Proof.
  intros H. cbn [filepath.scanLoop]. to_values. rewrite H. reflexivity.
Qed.

(** Inside brackets the scan goes over every byte but a backslash and a
    closing bracket in the same way. *)
Lemma scanLoop_inrange (c : ascii) (t : GoString) :
  byteval c <> chBackslash -> byteval c <> chClose ->
  filepath.scanLoop (c :: t) true = (1 + filepath.scanLoop t true)%nat.
Proof.
  intros H1 H2. cbn [filepath.scanLoop]. to_values.
  apply Z.eqb_neq in H1, H2. rewrite H1, H2.
  destruct (byteval c =? chOpen); [reflexivity|].
  destruct (byteval c =? chStar); reflexivity.
Qed.

(** Outside brackets, over a byte that is not special. *)
Lemma scanLoop_plain (c : ascii) (t : GoString) :
  byteval c <> chBackslash -> byteval c <> chOpen -> byteval c <> chStar ->
  filepath.scanLoop (c :: t) false = (1 + filepath.scanLoop t false)%nat.
Proof.
  intros H1 H2 H3. cbn [filepath.scanLoop]. to_values.
  apply Z.eqb_neq in H1, H2, H3. rewrite H1, H2, H3.
  destruct (byteval c =? chClose); reflexivity.
Qed.

Lemma scanLoop_star (c : ascii) (t : GoString) :
  byteval c = chStar -> filepath.scanLoop (c :: t) false = 0%nat.
Proof.
  intros H. cbn [filepath.scanLoop]. to_values. rewrite H. reflexivity.
Qed.

Lemma escaped_app (s pre : GoString) (x : ascii) (t : GoString) :
  escaped s pre x t -> s = pre ++ t.
Proof. destruct 1; reflexivity. Qed.

Lemma escaped_spec (c : ascii) (t : GoString) :
  match (if byteval c =? chBackslash then t else c :: t) with
  | [] => byteval c = chBackslash /\ t = []
  | x :: t' =>
      exists pre, escaped (c :: t) pre x t'
  end.
Proof.
  destruct (byteval c =? chBackslash) eqn:E.
  - apply Z.eqb_eq in E. destruct t as [|x t']; [auto|].
    exists [c; x]. constructor; exact E.
  - apply Z.eqb_neq in E. exists [c]. constructor; exact E.
Qed.

Lemma escaped_bs (c : ascii) (t : GoString) :
  (if byteval c =? chBackslash then bs t else byteval c :: bs t)
  = bs (if byteval c =? chBackslash then t else c :: t).
Proof. destruct (byteval c =? chBackslash); reflexivity. Qed.

(** The scan inside brackets goes over an escaped character that is not
    an unescaped closing bracket. *)
Lemma scanLoop_escaped (s pre : GoString) (x : ascii) (t : GoString) :
  escaped s pre x t ->
  match s with c :: _ => byteval c <> chClose | [] => True end ->
  filepath.scanLoop s true = (length pre + filepath.scanLoop t true)%nat.
Proof.
  destruct 1 as [c x t Hc|c t Hc]; intros Hclose.
  - apply scanLoop_backslash; exact Hc.
  - apply scanLoop_inrange; assumption.
Qed.

(** Reading an escaped character from the values of the bytes. *)
Lemma readClass_step (c : ascii) (t : GoString) (acc : list (Z * Z)) :
  byteval c <> chClose -> byteval c <> chDash ->
  readClass (bs (c :: t)) acc =
  match (if byteval c =? chBackslash then t else c :: t) with
  | [] => None
  | lo :: t2 =>
      match t2 with
      | [] => None
      | d :: t3 =>
          if byteval d =? chDash then
            match t3 with
            | [] => None
            | h :: t4 =>
                if (byteval h =? chDash) || (byteval h =? chClose) then None
                else
                  match (if byteval h =? chBackslash then t4 else h :: t4) with
                  | [] => None
                  | hi :: t5 => readClass (bs t5) ((byteval lo, byteval hi) :: acc)
                  end
            end
          else readClass (bs t2) ((byteval lo, byteval lo) :: acc)
      end
  end.
Proof.
  intros H1 H2. apply Z.eqb_neq in H1, H2.
  cbn [map readClass]. rewrite H1, H2. rewrite escaped_bs.
  destruct (if byteval c =? chBackslash then t else c :: t) as [|lo t2];
    [reflexivity|].
  cbn [map]. destruct t2 as [|d t3]; [reflexivity|]. cbn [map].
  destruct (byteval d =? chDash); [|reflexivity].
  destruct t3 as [|h t4]; [reflexivity|]. cbn [map].
  destruct ((byteval h =? chDash) || (byteval h =? chClose)); [reflexivity|].
  rewrite escaped_bs.
  destruct (if byteval h =? chBackslash then t4 else h :: t4); reflexivity.
Qed.

Lemma readClass_afterLo (s pre : GoString) (lo : ascii) (t2 : GoString) :
  escaped s pre lo t2 ->
  match s with c :: _ => byteval c <> chClose /\ byteval c <> chDash | [] => True end ->
  forall w acc, readClass (bs (pre ++ w)) acc = afterLo lo w acc.
Proof.
  destruct 1 as [c x t Hc|c t Hc]; intros [H1 H2] w acc.
  - change ([c; x] ++ w) with (c :: x :: w).
    rewrite readClass_step by assumption.
    rewrite Hc, Z.eqb_refl. reflexivity.
  - change ([c] ++ w) with (c :: w).
    rewrite readClass_step by assumption.
    apply Z.eqb_neq in Hc. rewrite Hc. reflexivity.
Qed.

Lemma afterDash_escaped (s pre : GoString) (hi : ascii) (t5 : GoString) :
  escaped s pre hi t5 ->
  match s with c :: _ => byteval c <> chClose /\ byteval c <> chDash | [] => True end ->
  forall lo w acc,
    afterDash lo (pre ++ w) acc = readClass (bs w) ((byteval lo, byteval hi) :: acc).
Proof.
  destruct 1 as [c x t Hc|c t Hc]; intros [H1 H2] lo w acc;
    apply Z.eqb_neq in H1, H2.
  - change ([c; x] ++ w) with (c :: x :: w). cbn [afterDash].
    rewrite H1, H2, Hc, Z.eqb_refl. reflexivity.
  - change ([c] ++ w) with (c :: w). cbn [afterDash].
    apply Z.eqb_neq in Hc. rewrite H1, H2, Hc. reflexivity.
Qed.

Lemma scanLoop_true_pos (c : ascii) (t : GoString) :
  exists j, filepath.scanLoop (c :: t) true = S j.
Proof.
  destruct (Z.eq_dec (byteval c) chBackslash) as [Hb|Hb].
  - destruct t as [|x t].
    + rewrite scanLoop_backslash_end by exact Hb. eauto.
    + rewrite scanLoop_backslash by exact Hb. eauto.
  - destruct (Z.eq_dec (byteval c) chClose) as [Hc|Hc].
    + rewrite scanLoop_close by exact Hc. eauto.
    + rewrite scanLoop_inrange by assumption. eauto.
Qed.

(** The class that [readClass] reads ends where the scan leaves the
    brackets; and when the class is malformed, so is what the scan cuts
    off.  *)
Lemma class_cut (body : GoString) :
  forall acc,
    match readClass (bs body) acc with
    | Some (rs, rest) =>
        exists u body',
          body = u ++ body' /\ rest = bs body'
          /\ filepath.scanLoop body true
             = (length u + filepath.scanLoop body' false)%nat
          /\ forall z, readClass (bs (u ++ z)) acc = Some (rs, bs z)
    | None =>
        readClass (bs (firstn (filepath.scanLoop body true) body)) acc = None
    end.
Proof.
  induction body as [body IH] using (induction_ltof1 _ (@length ascii)).
  unfold ltof in IH. intros acc.
  destruct body as [|c1 t1]; [reflexivity|].
  destruct (Z.eq_dec (byteval c1) chClose) as [Hclose|Hclose].
  { (* the closing bracket *)
    cbn [map readClass]. rewrite Hclose, Z.eqb_refl.
    rewrite scanLoop_close by exact Hclose.
    destruct acc as [|a acc'].
    - cbn [Nat.add firstn map readClass]. rewrite Hclose, Z.eqb_refl. reflexivity.
    - exists [c1], t1. repeat split.
      intros z. cbn [app map readClass]. rewrite Hclose, Z.eqb_refl. reflexivity. }
  destruct (Z.eq_dec (byteval c1) chDash) as [Hdash|Hdash].
  { cbn [map readClass]. apply Z.eqb_neq in Hclose. rewrite Hclose.
    rewrite Hdash, Z.eqb_refl.
    rewrite scanLoop_inrange by (rewrite Hdash; discriminate).
    cbn [Nat.add firstn map readClass]. rewrite Hclose, Hdash, Z.eqb_refl.
    reflexivity. }
  pose proof (escaped_spec c1 t1) as Hesc.
  rewrite readClass_step by assumption.
  destruct (if byteval c1 =? chBackslash then t1 else c1 :: t1) as [|lo t2].
  { destruct Hesc as [Hb ->]. rewrite scanLoop_backslash_end by exact Hb.
    cbn [firstn Nat.add]. rewrite readClass_step by assumption.
    rewrite Hb, Z.eqb_refl. reflexivity. }
  destruct Hesc as [pre Hesc].
  pose proof (escaped_app _ _ _ _ Hesc) as Hs.
  pose proof (readClass_afterLo _ _ _ _ Hesc (conj Hclose Hdash)) as Hlo.
  rewrite (scanLoop_escaped _ _ _ _ Hesc Hclose). rewrite Hs.
  assert (Hpre : (0 < length pre)%nat) by (destruct Hesc; cbn [length]; lia).
  assert (Hlen : forall t : GoString, (length t <= length t2)%nat ->
                   (length t < length (c1 :: t1))%nat).
  { intros t Ht. rewrite Hs, length_app. lia. }
  clear Hs.
  destruct t2 as [|d t3].
  { cbn [filepath.scanLoop]. rewrite app_nil_r, Nat.add_0_r, firstn_all.
    rewrite <- (app_nil_r pre), Hlo. reflexivity. }
  destruct (Z.eq_dec (byteval d) chDash) as [Hd|Hd].
  - (* a range lo-hi *)
    rewrite Hd, Z.eqb_refl.
    assert (Hscan_d : forall t, filepath.scanLoop (d :: t) true
                                = (1 + filepath.scanLoop t true)%nat).
    { intros t. apply scanLoop_inrange; rewrite Hd; discriminate. }
    rewrite Hscan_d.
    destruct t3 as [|h t4].
    { cbn [filepath.scanLoop]. rewrite firstn_app_2. cbn [firstn Nat.add].
      rewrite Hlo. cbn [afterLo]. rewrite Hd, Z.eqb_refl. reflexivity. }
    destruct ((byteval h =? chDash) || (byteval h =? chClose)) eqn:Eh.
    { destruct (scanLoop_true_pos h t4) as [j ->].
      rewrite firstn_app_2. cbn [Nat.add firstn].
      rewrite Hlo. cbn [afterLo afterDash]. rewrite Hd, Z.eqb_refl, Eh. reflexivity. }
    apply orb_false_iff in Eh as [Eh1 Eh2]. apply Z.eqb_neq in Eh1, Eh2.
    pose proof (escaped_spec h t4) as Hesc2.
    destruct (if byteval h =? chBackslash then t4 else h :: t4) as [|hi t5] eqn:Ehi.
    { destruct Hesc2 as [Hb ->]. rewrite scanLoop_backslash_end by exact Hb.
      rewrite firstn_app_2. cbn [Nat.add firstn].
      rewrite Hlo. cbn [afterLo afterDash]. rewrite Hd, Z.eqb_refl.
      apply Z.eqb_neq in Eh1, Eh2. rewrite Eh1, Eh2. cbn [orb].
      rewrite Hb, Z.eqb_refl. reflexivity. }
    destruct Hesc2 as [pre2 Hesc2].
    pose proof (escaped_app _ _ _ _ Hesc2) as Hs2.
    pose proof (afterDash_escaped _ _ _ _ Hesc2 (conj Eh2 Eh1)) as Hhi.
    rewrite (scanLoop_escaped _ _ _ _ Hesc2 Eh2). rewrite Hs2.
    assert (Hlen5 : (length t5 < length (c1 :: t1))%nat).
    { apply Hlen. cbn [length].
      assert (length (h :: t4) = length (pre2 ++ t5)) by (rewrite Hs2; reflexivity).
      rewrite length_app in H. cbn [length] in H. lia. }
    specialize (IH t5 Hlen5 ((byteval lo, byteval hi) :: acc)).
    destruct (readClass (bs t5) ((byteval lo, byteval hi) :: acc)) as [[rs rest]|].
    + destruct IH as (u' & body' & E1 & E2 & E3 & E4).
      exists (pre ++ d :: pre2 ++ u'), body'.
      split; [rewrite E1, <- !app_assoc; cbn [app]; rewrite <- !app_assoc; reflexivity|].
      split; [exact E2|]. split.
      * rewrite E3, !length_app. cbn [length]. rewrite length_app. lia.
      * intros z. rewrite <- !app_assoc. rewrite Hlo. cbn [app afterLo].
        rewrite Hd, Z.eqb_refl. rewrite <- !app_assoc. rewrite Hhi. apply E4.
    + replace (length pre + (1 + (length pre2 + filepath.scanLoop t5 true)))%nat
        with (length pre + S (length pre2 + filepath.scanLoop t5 true))%nat by lia.
      rewrite firstn_app_2. cbn [firstn Nat.add]. rewrite firstn_app_2.
      rewrite Hlo. cbn [afterLo]. rewrite Hd, Z.eqb_refl. rewrite Hhi. exact IH.
  - (* a single character *)
    apply Z.eqb_neq in Hd. rewrite Hd.
    specialize (IH (d :: t3) (Hlen _ (Nat.le_refl _)) ((byteval lo, byteval lo) :: acc)).
    destruct (readClass (bs (d :: t3)) ((byteval lo, byteval lo) :: acc))
      as [[rs rest]|].
    + destruct IH as (u' & body' & E1 & E2 & E3 & E4).
      assert (Hu' : exists u'', u' = d :: u'').
      { destruct u' as [|d' u''].
        - specialize (E4 []). discriminate.
        - injection E1 as <- _. eauto. }
      destruct Hu' as [u'' ->].
      exists (pre ++ d :: u''), body'.
      split; [rewrite E1, <- app_assoc; reflexivity|].
      split; [exact E2|]. split.
      * rewrite E3, !length_app. lia.
      * intros z. rewrite <- app_assoc. rewrite Hlo. cbn [app afterLo]. rewrite Hd.
        apply E4.
    + destruct (scanLoop_true_pos d t3) as [j Hj]. rewrite Hj in *.
      rewrite firstn_app_2. cbn [firstn Nat.add] in *.
      rewrite Hlo. cbn [afterLo]. rewrite Hd. exact IH.
Qed.

Lemma option_map_app_nil (o : option (list term)) : option_map (app []) o = o.
Proof. destruct o; reflexivity. Qed.

Lemma skipn_app_2 {A : Type} (l1 l2 : list A) (n : nat) :
  skipn (length l1 + n) (l1 ++ l2) = skipn n l2.
Proof.
  rewrite skipn_app. rewrite skipn_all2 by lia.
  replace (length l1 + n - length l1)%nat with n by lia. reflexivity.
Qed.

(** One term [tm], written with the bytes [u], at the head of a pattern. *)
Lemma cut_step (p u p' : GoString) (tm : term) :
  p = u ++ p' -> u <> [] ->
  (forall w, readTerm (bs (u ++ w)) = Some (tm, bs w)) ->
  (forall w, readUnit (bs (u ++ w)) = readTerm (bs (u ++ w))) ->
  filepath.scanLoop p false = (length u + filepath.scanLoop p' false)%nat ->
  cut_ok p' -> cut_ok p.
Proof.
  intros -> Hu Hterm Hunit Hscan IH. unfold cut_ok in *.
  rewrite Hscan, firstn_app_2, skipn_app_2.
  assert (Hne : forall w, bs (u ++ w) <> []).
  { intros w. destruct u; [congruence|discriminate]. }
  rewrite parseGlob_step, chunkTerms_step by apply Hne.
  rewrite Hunit, !Hterm, IH.
  destruct (chunkTerms (bs (firstn (filepath.scanLoop p' false) p'))) as [ts|];
    [|reflexivity].
  cbn [option_map].
  destruct (parseGlob (bs (skipn (filepath.scanLoop p' false) p'))); reflexivity.
Qed.

Lemma scan_cut (p : GoString) : cut_ok p.
Proof.
  induction p as [p IH] using (induction_ltof1 _ (@length ascii)).
  unfold ltof in IH.
  destruct p as [|c t]; [reflexivity|].
  destruct (Z.eq_dec (byteval c) chStar) as [Hstar|Hstar].
  { unfold cut_ok. rewrite scanLoop_star by exact Hstar.
    cbn [firstn skipn map]. rewrite chunkTerms_nil, option_map_app_nil. reflexivity. }
  assert (Hunit : forall w, readUnit (bs (c :: w)) = readTerm (bs (c :: w))).
  { intros w. cbn [map readUnit]. apply Z.eqb_neq in Hstar. rewrite Hstar. reflexivity. }
  destruct (Z.eq_dec (byteval c) chBackslash) as [Hback|Hback].
  { destruct t as [|x t'].
    - unfold cut_ok. rewrite scanLoop_backslash_end by exact Hback.
      cbn [firstn]. rewrite parseGlob_step, chunkTerms_step by discriminate.
      rewrite Hunit. cbn [map readTerm]. rewrite Hback. reflexivity.
    - apply (cut_step _ [c; x] t' (Lit (byteval x))); try reflexivity; try discriminate.
      + intros w. cbn [app map readTerm]. rewrite Hback. reflexivity.
      + intros w. apply Hunit.
      + apply scanLoop_backslash; exact Hback.
      + apply IH. cbn [length]. lia. }
  destruct (Z.eq_dec (byteval c) chOpen) as [Hopen|Hopen].
  { (* a character class *)
    assert (Hcaret : (exists d t'', t = d :: t'' /\ byteval d = chCaret)
                     \/ (match t with d :: _ => byteval d <> chCaret | [] => True end)).
    { destruct t as [|d t'']; [right; exact I|].
      destruct (Z.eq_dec (byteval d) chCaret); [left; eauto|right; assumption]. }
    destruct Hcaret as [(d & t'' & -> & Hd)|Hd].
    - (* a negated class *)
      assert (Hread : forall w, readTerm (bs (c :: d :: w)) =
                        match readClass (bs w) [] with
                        | Some (ranges, rest) => Some (Class true ranges, rest)
                        | None => None
                        end).
      { intros w. cbn [map readTerm]. rewrite Hopen, Hd. reflexivity. }
      assert (Hscan : filepath.scanLoop (c :: d :: t'') false
                      = (2 + filepath.scanLoop t'' true)%nat).
      { rewrite scanLoop_open by exact Hopen.
        rewrite scanLoop_inrange by (rewrite Hd; discriminate). reflexivity. }
      pose proof (class_cut t'' []) as HC.
      destruct (readClass (bs t'') []) as [[rs rest]|] eqn:E.
      + destruct HC as (u & body' & -> & -> & E3 & E4).
        apply (cut_step _ (c :: d :: u) body' (Class true rs));
          try reflexivity; try discriminate.
        * intros w. cbn [app]. rewrite Hread, E4. reflexivity.
        * intros w. apply Hunit.
        * rewrite Hscan, E3. cbn [length]. lia.
        * apply IH. cbn [length]. rewrite length_app. lia.
      + unfold cut_ok. rewrite Hscan. cbn [Nat.add firstn].
        rewrite parseGlob_step, chunkTerms_step by discriminate.
        rewrite Hunit, !Hread, E, HC. reflexivity.
    - (* a class *)
      assert (Hread : forall w,
                match w with x :: _ => byteval x <> chCaret | [] => True end ->
                readTerm (bs (c :: w)) =
                match readClass (bs w) [] with
                | Some (ranges, rest) => Some (Class false ranges, rest)
                | None => None
                end).
      { intros w Hw. cbn [map readTerm]. rewrite Hopen. cbn.
        destruct w as [|x w]; [reflexivity|]. cbn [map].
        apply Z.eqb_neq in Hw. rewrite Hw. reflexivity. }
      assert (Hscan : filepath.scanLoop (c :: t) false
                      = (1 + filepath.scanLoop t true)%nat).
      { apply scanLoop_open; exact Hopen. }
      pose proof (class_cut t []) as HC.
      destruct (readClass (bs t) []) as [[rs rest]|] eqn:E.
      + destruct HC as (u & body' & -> & -> & E3 & E4).
        assert (Hu : exists x u', u = x :: u').
        { destruct u as [|x u']; [|eauto]. specialize (E4 []). discriminate. }
        destruct Hu as (x & u' & ->). cbn [app] in Hd.
        apply (cut_step _ (c :: x :: u') body' (Class false rs));
          try reflexivity; try discriminate.
        * intros w. cbn [app]. rewrite Hread by exact Hd.
          pose proof (E4 w) as E4w. cbn [app] in E4w. rewrite E4w. reflexivity.
        * intros w. apply Hunit.
        * rewrite Hscan, E3. cbn [length]. lia.
        * apply IH. cbn [length]. rewrite length_app. cbn [length]. lia.
      + unfold cut_ok. rewrite Hscan. cbn [Nat.add firstn].
        rewrite parseGlob_step, chunkTerms_step by discriminate.
        rewrite Hunit, !Hread, E, HC; [reflexivity| |exact Hd].
        destruct t as [|x t']; [exact I|].
        destruct (scanLoop_true_pos x t') as [j ->]. exact Hd. }
  (* a term of one byte: [?] or a character *)
  assert (Hone : exists tm, forall w, readTerm (bs (c :: w)) = Some (tm, bs w)).
  { apply Z.eqb_neq in Hstar, Hback, Hopen.
    destruct (byteval c =? chQuestion) eqn:Eq.
    - exists Any. intros w. cbn [map readTerm]. rewrite Hstar, Eq. reflexivity.
    - exists (Lit (byteval c)). intros w. cbn [map readTerm].
      rewrite Hstar, Eq, Hopen, Hback. reflexivity. }
  destruct Hone as [tm Hone].
  apply (cut_step _ [c] t tm); try reflexivity; try discriminate.
  - exact Hone.
  - intros w. apply Hunit.
  - apply scanLoop_plain; assumption.
  - apply IH. cbn [length]. lia.
Qed.

(** ** What a star takes *)

Lemma globMatches_star (ts : list term) (cs : list Z) :
  globMatches (Star :: ts) cs =
  globMatches ts cs
  || match cs with
     | [] => false
     | _ :: cs' => globMatches (Star :: ts) cs'
     end.
Proof. destruct cs; reflexivity. Qed.

Lemma globMatches_cons (t : term) (ts : list term) (cs : list Z) :
  t <> Star ->
  globMatches (t :: ts) cs =
  match cs with
  | c :: cs' => termMatches t c && globMatches ts cs'
  | [] => false
  end.
Proof. destruct t; [congruence|reflexivity..]. Qed.

Lemma globMatches_prefix (ts0 rts : list term) (cs : list Z) :
  Forall (fun t => t <> Star) ts0 ->
  globMatches (ts0 ++ rts) cs
  = prefixOK ts0 cs && globMatches rts (skipn (length ts0) cs).
Proof.
  intros H; revert cs; induction H as [|t ts0 Ht _ IH]; intros cs; [reflexivity|].
  cbn [app]. rewrite globMatches_cons by exact Ht. cbn [prefixOK length].
  destruct cs as [|c cs']; [reflexivity|]. cbn [skipn].
  rewrite IH, andb_assoc. reflexivity.
Qed.

Lemma prefixOK_length (ts : list term) (cs : list Z) :
  prefixOK ts cs = true -> (length ts <= length cs)%nat.
Proof.
  revert cs; induction ts as [|t ts IH]; intros cs; cbn [prefixOK length]; [lia|].
  destruct cs as [|c cs']; [discriminate|]. intros H.
  apply andb_true_iff in H as [_ H]. apply IH in H. cbn [length]. lia.
Qed.

(** A star can take more: what matches a suffix matches the whole. *)
Lemma globMatches_star_more (ts : list term) (pre cs : list Z) :
  globMatches (Star :: ts) cs = true ->
  globMatches (Star :: ts) (pre ++ cs) = true.
Proof.
  intros H. induction pre as [|c pre IH]; [exact H|].
  cbn [app]. rewrite globMatches_star, IH. apply orb_true_r.
Qed.

Lemma globMatches_star_skipn (ts : list term) (cs : list Z) (j : nat) :
  globMatches (Star :: ts) (skipn j cs) = true ->
  globMatches (Star :: ts) cs = true.
Proof.
  intros H. rewrite <- (firstn_skipn j cs). apply globMatches_star_more, H.
Qed.

(** A match after a star is a match of what follows the star, somewhere. *)
Lemma globMatches_star_somewhere (ts : list term) (cs : list Z) :
  globMatches (Star :: ts) cs = true ->
  exists j, globMatches ts (skipn j cs) = true.
Proof.
  induction cs as [|c cs IH]; rewrite globMatches_star.
  - rewrite orb_false_r. intros H. exists 0%nat. exact H.
  - intros H. apply orb_true_iff in H as [H|H].
    + exists 0%nat. exact H.
    + destruct (IH H) as [j Hj]. exists (S j). exact Hj.
Qed.

Lemma globMatches_star_here (ts : list term) (cs : list Z) :
  globMatches ts cs = true -> globMatches (Star :: ts) cs = true.
Proof. intros H. rewrite globMatches_star, H. reflexivity. Qed.

Lemma globMatches_star_star (ts : list term) (cs : list Z) :
  globMatches (Star :: Star :: ts) cs = globMatches (Star :: ts) cs.
Proof.
  apply eq_true_iff_eq. split.
  - intros H. apply globMatches_star_somewhere in H as [j Hj].
    eapply globMatches_star_skipn; eauto.
  - apply globMatches_star_here.
Qed.

Lemma globMatches_stars (k : nat) (ts : list term) (cs : list Z) :
  globMatches (repeat Star (S k) ++ ts) cs = globMatches (Star :: ts) cs.
Proof.
  induction k as [|k IH]; [reflexivity|].
  change (repeat Star (S (S k)) ++ ts) with (Star :: Star :: repeat Star k ++ ts).
  rewrite globMatches_star_star. exact IH.
Qed.

(** ** The stars at the head of the pattern *)

Lemma stripStars_spec (p : GoString) :
  exists k,
    p = repeat "*"%char k ++ snd (filepath.stripStars p)
    /\ fst (filepath.stripStars p) = (0 <? k)%nat
    /\ match snd (filepath.stripStars p) with
       | c :: _ => byteval c <> chStar
       | [] => True
       end.
Proof.
  induction p as [|c p IH]; [exists 0%nat; repeat split|].
  cbn [filepath.stripStars]. to_values.
  destruct (byteval c =? chStar) eqn:E.
  - destruct IH as (k & Hp & _ & Hhd). exists (S k). cbn [fst snd].
    apply Z.eqb_eq in E.
    assert (c = "*"%char) by (apply byteval_inj; exact E). subst c.
    split; [cbn [repeat app]; congruence|]. split; [reflexivity|exact Hhd].
  - exists 0%nat. cbn [fst snd repeat app]. apply Z.eqb_neq in E. auto.
Qed.

Lemma parseGlob_stars (k : nat) (q : GoString) :
  parseGlob (bs (repeat "*"%char k ++ q))
  = option_map (app (repeat Star k)) (parseGlob (bs q)).
Proof.
  induction k as [|k IH]; [cbn [repeat app]; rewrite option_map_app_nil; reflexivity|].
  cbn [repeat app]. rewrite parseGlob_step by discriminate.
  cbn [map readTerm]. change (byteval "*" =? chStar) with true. cbn iota.
  rewrite IH. destruct (parseGlob (bs q)); reflexivity.
Qed.

(** A pattern that begins with a star begins with the term [Star]. *)
Lemma parseGlob_head_star (c : ascii) (q : GoString) :
  byteval c = chStar ->
  parseGlob (bs (c :: q)) = option_map (cons Star) (parseGlob (bs q)).
Proof.
  intros H. rewrite parseGlob_step by discriminate.
  cbn [map readTerm]. rewrite H. reflexivity.
Qed.

(** The scan stops at the end of the pattern or at a star. *)
Lemma scanLoop_stop (p : GoString) :
  forall b,
    match skipn (filepath.scanLoop p b) p with
    | [] => True
    | c :: _ => byteval c = chStar
    end.
Proof.
  induction p as [p IH] using (induction_ltof1 _ (@length ascii)).
  unfold ltof in IH. intros b.
  destruct p as [|c t]; [exact I|].
  destruct (Z.eq_dec (byteval c) chBackslash) as [Hb|Hb].
  { destruct t as [|x t'].
    - rewrite scanLoop_backslash_end by exact Hb. exact I.
    - rewrite scanLoop_backslash by exact Hb. cbn [Nat.add skipn].
      apply IH. cbn [length]. lia. }
  destruct (Z.eq_dec (byteval c) chClose) as [Hc|Hc].
  { rewrite scanLoop_close by exact Hc. cbn [Nat.add skipn].
    apply IH. cbn [length]. lia. }
  destruct (Z.eq_dec (byteval c) chOpen) as [Ho|Ho].
  { rewrite scanLoop_open by exact Ho. cbn [Nat.add skipn].
    apply IH. cbn [length]. lia. }
  destruct b.
  - rewrite scanLoop_inrange by assumption. cbn [Nat.add skipn].
    apply IH. cbn [length]. lia.
  - destruct (Z.eq_dec (byteval c) chStar) as [Hs|Hs].
    + rewrite scanLoop_star by exact Hs. exact Hs.
    + rewrite scanLoop_plain by assumption. cbn [Nat.add skipn].
      apply IH. cbn [length]. lia.
Qed.

(** Outside brackets the scan takes a byte at least, unless the pattern
    is empty or begins with a star. *)
Lemma scanLoop_false_pos (c : ascii) (t : GoString) :
  byteval c <> chStar -> exists j, filepath.scanLoop (c :: t) false = S j.
Proof.
  intros Hs.
  destruct (Z.eq_dec (byteval c) chBackslash) as [Hb|Hb].
  { destruct t as [|x t'].
    - rewrite scanLoop_backslash_end by exact Hb. eauto.
    - rewrite scanLoop_backslash by exact Hb. eauto. }
  destruct (Z.eq_dec (byteval c) chOpen) as [Ho|Ho].
  { rewrite scanLoop_open by exact Ho. eauto. }
  rewrite scanLoop_plain by assumption. eauto.
Qed.

(** ** The search of [Match] after a star *)

Lemma accept_spec (last : bool) (t : GoString) :
  accept last t = negb (last && (0 <? len t)).
Proof.
  unfold accept. destruct t as [|x t].
  - destruct last; reflexivity.
  - rewrite len_eq0_cons, len_pos_cons. destruct last; reflexivity.
Qed.

Lemma starLoop_spec (chunk : GoString) (ts : list term) (last : bool) :
  isASCII chunk = true -> chunkTerms (bs chunk) = Some ts ->
  forall s, isASCII s = true -> ~ In filepath.Separator s ->
    filepath.starLoop chunk last s =
    match s with
    | [] => filepath.StarNone
    | _ :: s' =>
        match goSearch ts last s' with
        | Some t => filepath.StarFound t
        | None => filepath.StarNone
        end
    end.
Proof.
  intros HA Hts s. induction s as [|c s' IH]; intros Hs Hsep; [reflexivity|].
  apply isASCII_cons in Hs as [_ Hs']. apply not_In_cons in Hsep as [Hc Hsep'].
  cbn [filepath.starLoop].
  replace (Ascii.eqb c filepath.Separator) with false
    by (symmetry; apply Ascii.eqb_neq; exact Hc).
  rewrite matchChunk_spec by assumption. rewrite Hts.
  unfold chunkOutcome.
  assert (Hgo : goSearch ts last s' =
                if prefixOK ts (bs s') && accept last (skipn (length ts) s')
                then Some (skipn (length ts) s')
                else match s' with [] => None | _ :: s'' => goSearch ts last s'' end).
  { destruct s'; reflexivity. }
  rewrite Hgo, accept_spec.
  destruct (prefixOK ts (bs s')); cbn [andb].
  - destruct (last && (0 <? len (skipn (length ts) s'))); cbn [negb]; [|reflexivity].
    rewrite IH by assumption. destruct s'; reflexivity.
  - rewrite IH by assumption. destruct s'; reflexivity.
Qed.

Lemma goSearch_at (ts : list term) (last : bool) (s t : GoString) :
  goSearch ts last s = Some t -> exists j, t = skipn (j + length ts) s.
Proof.
  induction s as [|c s' IH].
  - cbn [goSearch]. destruct (_ && _); [|discriminate].
    intros [= <-]. exists 0%nat. reflexivity.
  - cbn [goSearch]. destruct (_ && _).
    + intros [= <-]. exists 0%nat. reflexivity.
    + intros H. destruct (IH H) as [j ->]. exists (S j). reflexivity.
Qed.

Lemma goSearch_suffix (ts : list term) (last : bool) (s t : GoString) :
  goSearch ts last s = Some t -> exists pre, s = pre ++ t.
Proof.
  intros H. apply goSearch_at in H as [j ->].
  exists (firstn (j + length ts) s). symmetry. apply firstn_skipn.
Qed.

Lemma bs_skipn (n : nat) (s : GoString) : bs (skipn n s) = skipn n (bs s).
Proof. symmetry. apply skipn_map. Qed.

Lemma globMatches_nil (cs : list Z) :
  globMatches [] cs = match cs with [] => true | _ => false end.
Proof. reflexivity. Qed.

(** The first position is as good as any other. *)
Lemma goSearch_spec (ts : list term) (last : bool) (R : option (list term)) :
  Forall (fun t => t <> Star) ts -> follows last R ->
  forall s,
    match goSearch ts last s with
    | Some t => matchO R (bs t)
    | None => false
    end
    = matchO (option_map (fun r => Star :: ts ++ r) R) (bs s).
Proof.
  intros Hts HR s.
  destruct R as [rts|].
  2:{ cbn [option_map matchO]. destruct (goSearch ts last s); reflexivity. }
  cbn [option_map matchO].
  induction s as [|c s' IH].
  - cbn [goSearch map]. rewrite globMatches_star, orb_false_r.
    rewrite globMatches_prefix by exact Hts. cbn [map].
    destruct (prefixOK ts []) eqn:Ep; cbn [andb]; [|reflexivity].
    unfold accept.
    assert (Hsk : skipn (length ts) (@nil ascii) = []) by (destruct (length ts); reflexivity).
    assert (Hsk' : skipn (length ts) (@nil Z) = []) by (destruct (length ts); reflexivity).
    rewrite Hsk, Hsk'. reflexivity.
  - cbn [goSearch]. cbn [map]. rewrite globMatches_star.
    cbn [map] in IH. rewrite <- IH. clear IH.
    rewrite globMatches_prefix by exact Hts.
    change (byteval c :: bs s') with (bs (c :: s')). rewrite <- bs_skipn.
    set (t := skipn (length ts) (c :: s')).
    destruct (prefixOK ts (bs (c :: s'))) eqn:Ep; cbn [andb]; [|reflexivity].
    unfold accept. destruct last; cbn [negb]; unfold follows in HR.
    + (* the last chunk *)
      injection HR as ->. rewrite orb_false_r, globMatches_nil.
      destruct t as [|x t'] eqn:Et.
      * reflexivity.
      * rewrite len_eq0_cons. reflexivity.
    + rewrite orb_true_r.
      destruct HR as [HR|[rts' HR]]; [discriminate|]. injection HR as ->.
      destruct (globMatches (Star :: rts') (bs t)) eqn:Eg; [reflexivity|].
      cbn [orb]. symmetry.
      destruct (goSearch ts false s') as [t2|] eqn:E2; [|reflexivity].
      apply not_true_is_false. intros Ht2.
      apply goSearch_at in E2 as [j ->].
      assert (Et : bs (skipn (j + length ts) s') = skipn (S j) (bs t)).
      { subst t. rewrite !bs_skipn, skipn_skipn. reflexivity. }
      rewrite Et in Ht2. apply globMatches_star_skipn in Ht2. congruence.
Qed.

(** ** [filepath.Match] on ASCII names *)

Lemma not_In_app {A : Type} (x : A) (l1 l2 : list A) :
  ~ In x (l1 ++ l2) -> ~ In x l2.
Proof. rewrite in_app_iff. tauto. Qed.

Lemma Contains_false (s : GoString) (c : ascii) :
  ~ In c s -> strings.Contains s c = false.
Proof.
  intros H. unfold strings.Contains. apply not_true_is_false. intros E.
  apply existsb_exists in E as (x & Hx & Ex). apply Ascii.eqb_eq in Ex. subst x.
  exact (H Hx).
Qed.

Lemma matchO_stars (k : nat) (ts : list term) (R : option (list term)) (cs : list Z) :
  matchO (option_map (app (repeat Star (S k))) (option_map (app ts) R)) cs
  = matchO (option_map (fun r => Star :: ts ++ r) R) cs.
Proof. destruct R as [rts|]; [apply globMatches_stars|reflexivity]. Qed.

Lemma matchO_prefix (ts : list term) (R : option (list term)) (cs : list Z) :
  Forall (fun t => t <> Star) ts ->
  matchO (option_map (app ts) R) cs
  = prefixOK ts cs && matchO R (skipn (length ts) cs).
Proof.
  intros H. destruct R as [rts|]; cbn [option_map matchO].
  - apply globMatches_prefix, H.
  - rewrite andb_false_r. reflexivity.
Qed.

Lemma globMatches_only_star (cs : list Z) : globMatches [Star] cs = true.
Proof.
  induction cs as [|c cs IH]; [reflexivity|].
  rewrite globMatches_star, IH. apply orb_true_r.
Qed.

Lemma Match_loop_spec (fuel : nat) (p n : GoString) :
  isASCII p = true -> isASCII n = true -> ~ In filepath.Separator n ->
  (length p < fuel)%nat ->
  option_map fst (filepath.Match_loop fuel p n)
  = Some (matchO (parseGlob (bs p)) (bs n)).
Proof.
  revert p n. induction fuel as [|fuel IH]; intros p n Hp Hn Hsep Hl; [lia|].
  destruct p as [|c0 p0]; [destruct n; reflexivity|].
  cbn [filepath.Match_loop]. unfold filepath.scanChunk.
  destruct (stripStars_spec (c0 :: p0)) as (k & Hk & Hstar & Hhd).
  destruct (filepath.stripStars (c0 :: p0)) as [star p1]. cbn [fst snd] in *.
  set (i := filepath.scanLoop p1 false).
  set (chunk := firstn i p1). set (rest := skipn i p1).
  assert (Hp1 : isASCII p1 = true).
  { rewrite Hk in Hp. apply isASCII_app in Hp. tauto. }
  assert (Hchunk : isASCII chunk = true) by (apply isASCII_firstn; exact Hp1).
  assert (Hrest : isASCII rest = true) by (apply isASCII_skipn; exact Hp1).
  assert (Hlen1 : length (c0 :: p0) = (k + length p1)%nat).
  { rewrite Hk at 1. rewrite length_app, repeat_length. reflexivity. }
  assert (Hsplit : (length chunk + length rest = length p1)%nat).
  { subst chunk rest. rewrite <- (firstn_skipn i p1) at 3.
    rewrite length_app. reflexivity. }
  (* the terms of the pattern *)
  assert (F1 : parseGlob (bs (c0 :: p0)) =
               option_map (app (repeat Star k))
                 match chunkTerms (bs chunk) with
                 | None => None
                 | Some ts => option_map (app ts) (parseGlob (bs rest))
                 end).
  { rewrite Hk at 1. rewrite parseGlob_stars. f_equal. apply scan_cut. }
  assert (F2 : follows (len rest =? 0) (parseGlob (bs rest))).
  { pose proof (scanLoop_stop p1 false) as Hstop. fold i rest in Hstop.
    unfold follows. destruct rest as [|x rest']; [reflexivity|].
    rewrite len_eq0_cons. rewrite parseGlob_head_star by exact Hstop.
    destruct (parseGlob (bs rest')); cbn [option_map]; eauto. }
  assert (F4 : chunk = [] -> p1 = []).
  { intros Hc. destruct p1 as [|x p1']; [reflexivity|].
    subst chunk i. destruct (scanLoop_false_pos x p1' Hhd) as [j Hj].
    rewrite Hj in Hc. discriminate. }
  destruct (star && (len chunk =? 0)) eqn:Etrail.
  { (* a trailing star *)
    apply andb_true_iff in Etrail as [Es Ec]. subst star.
    assert (chunk = []) as Hc0 by (destruct chunk; [reflexivity|rewrite len_eq0_cons in Ec; discriminate]).
    specialize (F4 Hc0). subst p1.
    cbn [option_map fst]. rewrite Contains_false by exact Hsep. cbn [negb].
    rewrite Hk, app_nil_r, <- (app_nil_r (repeat _ _)), parseGlob_stars.
    cbn [map]. rewrite parseGlob_nil. cbn [option_map matchO].
    destruct k as [|k']; [discriminate|].
    rewrite globMatches_stars, globMatches_only_star. reflexivity. }
  assert (F3 : (length rest < fuel)%nat).
  { assert ((0 < k \/ 0 < length chunk)%nat).
    { destruct k as [|k']; [|lia]. right. cbn in Hstar. subst star.
      destruct chunk as [|x ch] eqn:Ec; [|cbn [length]; lia].
      specialize (F4 eq_refl). subst p1. cbn in Hk. discriminate. }
    cbn [length] in *. lia. }
  rewrite matchChunk_spec by assumption.
  rewrite F1.
  destruct (chunkTerms (bs chunk)) as [ts|] eqn:Ets.
  2:{ cbn [option_map fst matchO]. destruct (repeat Star k); reflexivity. }
  pose proof (chunkTerms_fuel_no_Star _ _ _ Ets) as Hnostar.
  set (R := parseGlob (bs rest)) in *.
  (* what [Match] does with the rest of the name *)
  assert (HG : forall t pre, n = pre ++ t ->
                 option_map fst (filepath.Match_loop fuel rest t) = Some (matchO R (bs t))).
  { intros t pre Hn'. apply IH; [exact Hrest| | |exact F3].
    - rewrite Hn' in Hn. apply isASCII_app in Hn. tauto.
    - rewrite Hn' in Hsep. eapply not_In_app; eauto. }
  assert (Hacc : forall t, ((len t =? 0) || (0 <? len rest)) = accept (len rest =? 0) t).
  { intros t. unfold accept. f_equal. destruct rest; [reflexivity|].
    rewrite len_eq0_cons, len_pos_cons. reflexivity. }
  unfold chunkOutcome. cbn iota.
  destruct star.
  - (* after a star *)
    destruct k as [|k']; [discriminate|].
    rewrite matchO_stars, <- goSearch_spec with (last := (len rest =? 0)) by assumption.
    rewrite (starLoop_spec chunk ts) by assumption.
    assert (Hgo : goSearch ts (len rest =? 0) n =
                  if prefixOK ts (bs n) && accept (len rest =? 0) (skipn (length ts) n)
                  then Some (skipn (length ts) n)
                  else match n with [] => None | _ :: n' => goSearch ts (len rest =? 0) n' end).
    { destruct n; reflexivity. }
    rewrite Hgo.
    assert (Htail : option_map fst
                      match
                        match n with
                        | [] => filepath.StarNone
                        | _ :: s' =>
                            match goSearch ts (len rest =? 0) s' with
                            | Some t => filepath.StarFound t
                            | None => filepath.StarNone
                            end
                        end
                      with
                      | filepath.StarFound t => filepath.Match_loop fuel rest t
                      | filepath.StarBad => Some (false, true)
                      | filepath.StarNone => Some (false, false)
                      end
                    = Some match match n with
                                 | [] => None
                                 | _ :: n' => goSearch ts (len rest =? 0) n'
                                 end with
                           | Some t => matchO R (bs t)
                           | None => false
                           end).
    { destruct n as [|x n']; [reflexivity|].
      destruct (goSearch ts (len rest =? 0) n') as [t|] eqn:E; [|reflexivity].
      apply goSearch_suffix in E as [pre ->].
      apply (HG t (x :: pre)). reflexivity. }
    destruct (prefixOK ts (bs n)); cbn [andb]; [|exact Htail].
    rewrite Hacc.
    destruct (accept (len rest =? 0) (skipn (length ts) n)); [|exact Htail].
    apply (HG _ (firstn (length ts) n)). symmetry. apply firstn_skipn.
  - (* no star: the chunk has to match here *)
    destruct k as [|k']; [|discriminate].
    cbn [repeat]. rewrite option_map_app_nil.
    rewrite matchO_prefix by assumption. rewrite <- bs_skipn.
    destruct (prefixOK ts (bs n)); cbn [andb]; [|reflexivity].
    rewrite Hacc. unfold accept.
    destruct (len (skipn (length ts) n) =? 0) eqn:Et; cbn [orb].
    + apply (HG _ (firstn (length ts) n)). symmetry. apply firstn_skipn.
    + destruct (len rest =? 0) eqn:Er; cbn [negb].
      * (* the last chunk, and the name is not exhausted *)
        unfold follows in F2. rewrite F2. cbn [option_map fst matchO].
        rewrite globMatches_nil.
        destruct (skipn (length ts) n); [discriminate|reflexivity].
      * apply (HG _ (firstn (length ts) n)). symmetry. apply firstn_skipn.
Qed.

(** ** The fuel of [filepath.Match] is enough, on every string *)

Lemma DecodeRune_width (c : ascii) (s : GoString) :
  (1 <= snd (utf8.DecodeRuneInString (c :: s)) <= 4)%nat.
Proof.
  unfold utf8.DecodeRuneInString.
  repeat match goal with
         | |- context [if ?b then _ else _] => destruct b
         | |- context [match ?l with [] => _ | _ :: _ => _ end] => destruct l
         end; cbn [snd]; lia.
Qed.

Lemma getEsc_shorter (chunk nchunk : GoString) (r : Z) :
  filepath.getEsc chunk = (r, nchunk, false) ->
  (length nchunk < length chunk)%nat.
Proof.
  unfold filepath.getEsc. destruct chunk as [|c rest]; [discriminate|].
  destruct (Ascii.eqb c "-" || Ascii.eqb c "]"); [discriminate|].
  destruct (Ascii.eqb c "\" && (len rest =? 0)) eqn:E; [discriminate|].
  assert (Hdec : forall s : GoString, s <> [] -> (length s <= length (c :: rest))%nat ->
            (let '(r0, n) := utf8.DecodeRuneInString s in
             (r0, skipn n s, (r0 =? utf8.RuneError) && (n =? 1)%nat || (len (skipn n s) =? 0)))
            = (r, nchunk, false) -> (length nchunk < length (c :: rest))%nat).
  { intros s Hs Hl. destruct s as [|x s']; [congruence|].
    pose proof (DecodeRune_width x s') as Hw.
    destruct (utf8.DecodeRuneInString (x :: s')) as [r0 n]. cbn [snd] in Hw.
    intros [= _ <- _]. rewrite length_skipn. cbn [length] in *. lia. }
  destruct (Ascii.eqb c "\").
  - destruct rest as [|x rest']; [rewrite Z.eqb_refl in E; discriminate|].
    apply Hdec; [discriminate|cbn [length]; lia].
  - apply Hdec; [discriminate|lia].
Qed.

Lemma classLoop_total (fuel : nat) (r : Z) (chunk : GoString) (m : bool) (nr : Z) :
  (length chunk < fuel)%nat ->
  exists res,
    filepath.classLoop fuel r chunk m nr = Some res
    /\ match res with
       | Some (chunk', _) => (length chunk' < length chunk)%nat
       | None => True
       end.
Proof.
  revert chunk m nr. induction fuel as [|fuel IH]; intros chunk m nr Hl; [lia|].
  cbn [filepath.classLoop].
  destruct (match chunk with
            | [] => None
            | c :: chunk' => if Ascii.eqb c "]" && (0 <? nr) then Some chunk' else None
            end) as [chunk'|] eqn:Eclose.
  { eexists. split; [reflexivity|].
    destruct chunk as [|c ch]; [discriminate|].
    destruct (Ascii.eqb c "]" && (0 <? nr)); [|discriminate].
    injection Eclose as <-. cbn [length]. lia. }
  destruct (filepath.getEsc chunk) as [[lo chunk1] err] eqn:E1.
  destruct err; [eexists; split; [reflexivity|exact I]|].
  apply getEsc_shorter in E1.
  destruct (match chunk1 with
            | [] => None
            | c :: chunk' => if Ascii.eqb c "-" then Some chunk' else None
            end) as [chunk2|] eqn:Edash.
  - assert (Hl2 : (length chunk2 < length chunk1)%nat).
    { destruct chunk1 as [|c ch]; [discriminate|].
      destruct (Ascii.eqb c "-"); [|discriminate].
      injection Edash as <-. cbn [length]. lia. }
    destruct (filepath.getEsc chunk2) as [[hi chunk3] err] eqn:E2.
    destruct err; [eexists; split; [reflexivity|exact I]|].
    apply getEsc_shorter in E2.
    destruct (IH chunk3 (m || (lo <=? r) && (r <=? hi)) (nr + 1) ltac:(lia))
      as (res & -> & Hres).
    exists res. split; [reflexivity|]. destruct res as [[ch' b]|]; [lia|exact I].
  - destruct (IH chunk1 (m || (lo <=? r) && (r <=? lo)) (nr + 1) ltac:(lia))
      as (res & -> & Hres).
    exists res. split; [reflexivity|]. destruct res as [[ch' b]|]; [lia|exact I].
Qed.

Lemma matchChunk_loop_fuel (fuel : nat) (chunk s : GoString) (failed : bool) :
  (length chunk < fuel)%nat ->
  filepath.matchChunk_loop fuel chunk s failed <> None.
Proof.
  revert chunk s failed.
  induction fuel as [|fuel IH]; intros chunk s failed Hl; [lia|].
  destruct chunk as [|c chunk']; [discriminate|].
  cbn [length] in Hl. cbn [filepath.matchChunk_loop].
  destruct (Ascii.eqb c "[").
  { destruct (if failed || (len s =? 0)
              then (0, s)
              else let '(r, n) := utf8.DecodeRuneInString s in (r, skipn n s))
      as [r s'].
    set (nb := match chunk' with
               | c1 :: chunk'' =>
                   if Ascii.eqb c1 "^" then (true, chunk'') else (false, chunk')
               | [] => (false, chunk')
               end).
    assert (Hnb : (length (snd nb) <= length chunk')%nat).
    { subst nb. destruct chunk' as [|c1 chunk'']; [cbn; lia|].
      destruct (Ascii.eqb c1 "^"); cbn [snd length]; lia. }
    destruct nb as [negated body]. cbn [snd] in Hnb.
    destruct (classLoop_total fuel r body false 0 ltac:(lia)) as (res & -> & Hres).
    destruct res as [[chunk3 m]|]; [|discriminate].
    apply IH. lia. }
  destruct (Ascii.eqb c "?").
  { destruct (failed || (len s =? 0)); [apply IH; lia|].
    destruct s as [|s0 s1]; [apply IH; lia|].
    destruct (utf8.DecodeRuneInString (s0 :: s1)). apply IH. lia. }
  destruct (Ascii.eqb c "\" && (len chunk' =? 0)); [discriminate|].
  assert (Hd : (length (if Ascii.eqb c "\" then chunk' else c :: chunk')
                <= S (length chunk'))%nat).
  { destruct (Ascii.eqb c "\"); cbn [length]; lia. }
  destruct (if Ascii.eqb c "\" then chunk' else c :: chunk') as [|d chunk''];
    [discriminate|].
  cbn [length] in Hd.
  destruct (failed || (len s =? 0)); [apply IH; lia|].
  destruct s; apply IH; lia.
Qed.

Lemma scanChunk_shorter (c : ascii) (p : GoString) :
  let '(star, chunk, rest) := filepath.scanChunk (c :: p) in
  star && (len chunk =? 0) = false -> (length rest < length (c :: p))%nat.
Proof.
  unfold filepath.scanChunk.
  destruct (stripStars_spec (c :: p)) as (k & Hk & Hstar & Hhd).
  destruct (filepath.stripStars (c :: p)) as [star p1]. cbn [fst snd] in *.
  assert (Hlen : length (c :: p) = (k + length p1)%nat).
  { rewrite Hk at 1. rewrite length_app, repeat_length. reflexivity. }
  intros H. rewrite length_skipn.
  destruct p1 as [|x p1'].
  - destruct k as [|k']; [discriminate|]. cbn [length] in *. lia.
  - destruct (scanLoop_false_pos x p1' Hhd) as [j ->]. cbn [length] in *. lia.
Qed.

Lemma Match_loop_fuel (fuel : nat) (p n : GoString) :
  (length p < fuel)%nat -> filepath.Match_loop fuel p n <> None.
Proof.
  revert p n. induction fuel as [|fuel IH]; intros p n Hl; [lia|].
  destruct p as [|c p']; [discriminate|].
  cbn [filepath.Match_loop].
  pose proof (scanChunk_shorter c p') as Hs.
  destruct (filepath.scanChunk (c :: p')) as [[star chunk] rest].
  destruct (star && (len chunk =? 0)); [discriminate|].
  specialize (Hs eq_refl).
  assert (Hrest : forall t, filepath.Match_loop fuel rest t <> None).
  { intros t. apply IH. lia. }
  assert (Hstar : (if star
                   then match filepath.starLoop chunk (len rest =? 0) n with
                        | filepath.StarFound t => filepath.Match_loop fuel rest t
                        | filepath.StarBad => Some (false, true)
                        | filepath.StarNone => Some (false, false)
                        end
                   else Some (false, false)) <> None).
  { destruct star; [|discriminate].
    destruct (filepath.starLoop chunk (len rest =? 0) n); [apply Hrest|discriminate..]. }
  destruct (filepath.matchChunk chunk n) as [t| |]; [|exact Hstar|discriminate].
  destruct ((len t =? 0) || (0 <? len rest)); [apply Hrest|exact Hstar].
Qed.

(** [filepath.Match] on a pattern and a name of ASCII bytes, the name
    without a separator, is the glob of the specification. *)
Lemma Match_ascii (p n : GoString) :
  isASCII p = true -> isASCII n = true -> ~ In filepath.Separator n ->
  fst (filepath.Match p n) = globSpec p n.
Proof.
  intros Hp Hn Hsep. unfold filepath.Match, globSpec.
  pose proof (Match_loop_spec (S (length p)) p n Hp Hn Hsep ltac:(lia)) as H.
  rewrite !runes_ascii by assumption.
  destruct (filepath.Match_loop (S (length p)) p n) as [[b e]|]; [|discriminate].
  cbn [option_map fst] in *. injection H as ->. reflexivity.
Qed.

(** The name that [vmoduleGet] matches has no separator. *)
Lemma trimFile_no_slash (path : GoString) : ~ In "/"%char (trimFile path).
Proof.
  unfold trimFile.
  set (stem := if strings.HasSuffix path (str ".go")
               then firstn (Z.to_nat (len path - 3)) path else path).
  destruct (LastIndex_spec stem "/") as [[Hr Hn]|(d & b & Hs & Hb & Hr)].
  - rewrite Hr. exact Hn.
  - rewrite Hr.
    replace (0 <=? len d) with true by (symmetry; apply Z.leb_le; unfold len; lia).
    rewrite Hs. unfold len.
    replace (Z.to_nat _) with (length d + 1)%nat by lia.
    rewrite skipn_app_2. exact Hb.
Qed.

(** Every rule of a filter that [Set] builds is classified by
    [isLiteral]. *)
Lemma Set_loop_classified (pats : list GoString) (acc filter : list modulePat) :
  Forall (fun m => literal m = isLiteral (pattern m)) acc ->
  Set_loop pats acc = Returns filter ->
  Forall (fun m => literal m = isLiteral (pattern m)) filter.
Proof.
  revert acc; induction pats as [|pat pats IH]; intros acc Hacc; simpl.
  - intros [= <-]. exact Hacc.
  - destruct (len pat =? 0); [apply IH, Hacc|].
    destruct (index (strings.Split pat "=") 0) as [p|]; simpl; [|discriminate].
    destruct (index (strings.Split pat "=") 1) as [l|]; simpl; [|discriminate].
    destruct (strconv.ParseInt l 10 32) as [v e].
    destruct (v =? 0); [apply IH, Hacc|].
    apply IH. apply Forall_app. split; [exact Hacc|].
    constructor; [reflexivity|constructor].
Qed.

Lemma Set_filter_classified (value : GoString) (filter : list modulePat) :
  Set_filter value = Returns filter ->
  Forall (fun m => literal m = isLiteral (pattern m)) filter.
Proof. apply Set_loop_classified. constructor. Qed.

(** ** C5: what a rule matches *)

(** C5 (as amended).  A rule that [Set] classifies as literal (its
    pattern has none of the metacharacters) matches a candidate when the
    candidate is the very string of the pattern, and only then.  A glob
    rule of ASCII characters matches a candidate of ASCII characters
    (a candidate has no ['/'], see [trimFile_no_slash]) when the
    shell-style glob matches the whole candidate, and only then; a
    malformed pattern matches nothing.  In particular ["gopher*"] matches
    ["gopherflakes"] and not ["thegopher"], and ["?l*"] matches
    ["flake"] and not ["lake"]. *)
Theorem matcher_semantics (m : modulePat) (name : GoString) :
  literal m = isLiteral (pattern m) ->
  (isLiteral (pattern m) = true ->
   (modulePat_match m name = true <-> name = pattern m))
  /\ (isLiteral (pattern m) = false ->
      isASCII (pattern m) = true -> isASCII name = true ->
      ~ In "/"%char name ->
      modulePat_match m name = globSpec (pattern m) name
      /\ globSpec (pattern m) name = globBytes (pattern m) name)
  /\ (let rule p := mkModulePat (str p) (isLiteral (str p)) 1 in
      modulePat_match (rule "gopher*"%string) (str "gopherflakes") = true
      /\ modulePat_match (rule "gopher*"%string) (str "thegopher") = false
      /\ modulePat_match (rule "?l*"%string) (str "flake") = true
      /\ modulePat_match (rule "?l*"%string) (str "lake") = false).
Proof.
  intros Hlit. unfold modulePat_match. rewrite Hlit. split; [|split].
  - intros ->. apply streq_eq.
  - intros -> Hp Hn Hsep. split; [apply Match_ascii; assumption|].
    unfold globSpec, globBytes. rewrite !runes_ascii by assumption. reflexivity.
  - repeat split; reflexivity.
Qed.

Lemma matcher_semantics_witness :
  let m := mkModulePat (str "??[mno]?_*t") false 2 in
  literal m = isLiteral (pattern m)
  /\ isLiteral (pattern m) = false
  /\ isASCII (pattern m) = true /\ isASCII (str "klog_test") = true
  /\ ~ In "/"%char (str "klog_test")
  /\ modulePat_match m (str "klog_test") = globSpec (pattern m) (str "klog_test")
  /\ globSpec (pattern m) (str "klog_test") = true.
Proof.
  intros m.
  assert (Hsep : ~ In "/"%char (str "klog_test")) by (simpl; intuition discriminate).
  split; [reflexivity|]. split; [reflexivity|]. split; [reflexivity|].
  split; [reflexivity|]. split; [exact Hsep|]. split; [|reflexivity].
  exact (proj1 (proj1 (proj2 (matcher_semantics m (str "klog_test") eq_refl))
                  eq_refl eq_refl eq_refl Hsep)).
Defined.

(** C5 fails as stated on a name that is not ASCII.  [€] is one
    character, the glob [*??] asks for two at least, and the rule
    matches: after [filepath.Match] has tried the chunk [??] at the
    head of the name, its star skips one byte of the three of [€] and
    the chunk takes the two other bytes for two characters.  Nor does
    the rule match byte by byte: [?] matches the three bytes of [€]. *)
Lemma glob_of_two_matches_one_character :
  trimFile (str "/src/" ++ euro ++ str ".go") = euro
  /\ runes euro = [8364]
  /\ isLiteral (str "*??") = false
  /\ modulePat_match (mkModulePat (str "*??") (isLiteral (str "*??")) 2) euro = true
  /\ globSpec (str "*??") euro = false
  /\ modulePat_match (mkModulePat (str "?") (isLiteral (str "?")) 2) euro = true
  /\ globBytes (str "?") euro = false.
Proof. repeat split; reflexivity. Qed.

(** The table [vGlobs] of the tests of the repository: whether [V(2)]
    is enabled in the file [klog_test.go] after each spec. *)
Example TestVmoduleGlob :
  map (fun spec => runV (str spec) 2)
      ["klog_test=1"; "klog_test=2"; "klog_test=3";
       "*=2"; "?l*=2"; "????_*=2"; "??[mno]?_*t=2";
       "*x=2"; "m*=2"; "??_*=2"; "?[abc]?_*t=2"]%string
  = map Some [false; true; true;
              true; true; true; true;
              false; false; false; false].
Proof. reflexivity. Qed.

(** [TestVmoduleOn] and [TestVmoduleOff]. *)
Example TestVmoduleOn :
  map (runV (str "klog_test=2")) [1; 2; 3] = map Some [true; true; false]
  /\ map (runV (str "notthisfile=2")) [1; 2; 3] = map Some [false; false; false].
Proof. split; reflexivity. Qed.

(** * Further properties of the shim *)

(** ** More about [strings.Split] *)

Lemma Join_cons (c : ascii) (w : GoString) (ws : list GoString) (sep : ascii) :
  Join ((c :: w) :: ws) sep = c :: Join (w :: ws) sep.
Proof. destruct ws; reflexivity. Qed.

Lemma Join_Split (s : GoString) (sep : ascii) :
  Join (strings.Split s sep) sep = s.
Proof.
  induction s as [|c s IH]; [reflexivity|].
  cbn [strings.Split]. destruct (Ascii.eqb_spec c sep) as [->|_].
  - destruct (strings.Split s sep) as [|w ws] eqn:E.
    + exfalso; eapply Split_not_nil; eauto.
    + change (Join ([] :: w :: ws) sep) with (sep :: Join (w :: ws) sep).
      rewrite IH. reflexivity.
  - destruct (strings.Split s sep) as [|w ws] eqn:E.
    + exfalso; eapply Split_not_nil; eauto.
    + rewrite Join_cons, IH. reflexivity.
Qed.

Lemma Split_elems_no_sep (s : GoString) (sep : ascii) :
  Forall (fun e => ~ In sep e) (strings.Split s sep).
Proof.
  induction s as [|c s IH]; [repeat constructor; simpl; tauto|].
  cbn [strings.Split]. destruct (Ascii.eqb_spec c sep) as [->|Hne].
  - constructor; [simpl; tauto|exact IH].
  - destruct (strings.Split s sep) as [|w ws].
    + repeat constructor. simpl. intros [H|H]; [congruence|exact H].
    + inversion IH as [|? ? Hw Hws]; subst. constructor; [|exact Hws].
      simpl. intros [H|H]; [congruence|tauto].
Qed.

Lemma Split_length (s : GoString) (sep : ascii) :
  length (strings.Split s sep) = S (count_occ ascii_dec s sep).
Proof.
  induction s as [|c s IH]; [reflexivity|].
  cbn [strings.Split count_occ]. destruct (Ascii.eqb_spec c sep) as [->|Hne].
  - destruct (ascii_dec sep sep); [|congruence]. cbn [length]. rewrite IH. reflexivity.
  - destruct (ascii_dec c sep); [congruence|].
    destruct (strings.Split s sep) as [|w ws] eqn:E.
    + exfalso; eapply Split_not_nil; eauto.
    + exact IH.
Qed.

Lemma Split_elems_sub (s : GoString) (sep : ascii) (e : GoString) (c : ascii) :
  In e (strings.Split s sep) -> In c e -> In c s.
Proof.
  revert e; induction s as [|x s IH]; intros e; cbn [strings.Split].
  - intros [<-|[]] [].
  - destruct (Ascii.eqb_spec x sep) as [->|Hne].
    + intros [<-|H] Hc; [destruct Hc|]. right. eapply IH; eauto.
    + destruct (strings.Split s sep) as [|w ws] eqn:E.
      * intros [<-|[]] [->|[]]. left; reflexivity.
      * intros [<-|H] Hc.
        -- destruct Hc as [->|Hc]; [left; reflexivity|].
           right. apply (IH w); [left; reflexivity|exact Hc].
        -- right. apply (IH e); [right; exact H|exact Hc].
Qed.

Lemma Split_app (a b : GoString) (sep : ascii) :
  strings.Split (a ++ sep :: b) sep = strings.Split a sep ++ strings.Split b sep.
Proof.
  induction a as [|c a IH]; cbn [app strings.Split].
  - rewrite Ascii.eqb_refl. reflexivity.
  - rewrite IH. destruct (Ascii.eqb c sep); [reflexivity|].
    destruct (strings.Split a sep) as [|w ws] eqn:E.
    + exfalso; eapply Split_not_nil; eauto.
    + reflexivity.
Qed.

(** X1.  [strings.Split] cuts the value at the separators and nowhere else. *)
Theorem Split_cuts_at_separators (s : GoString) (sep : ascii) :
  Join (strings.Split s sep) sep = s
  /\ Forall (fun e => ~ In sep e) (strings.Split s sep)
  /\ length (strings.Split s sep) = S (count_occ ascii_dec s sep)
  /\ (forall elems, elems <> [] -> Forall (fun e => ~ In sep e) elems ->
        strings.Split (Join elems sep) sep = elems).
Proof.
  split; [apply Join_Split|]. split; [apply Split_elems_no_sep|].
  split; [apply Split_length|]. intros elems. apply Split_Join.
Qed.

(** ** When [Set] panics *)

Lemma Set_loop_panics (pats : list GoString) (acc : list modulePat) (p : panic) :
  Set_loop pats acc = Panics p ->
  Exists (fun pat => pat <> [] /\ ~ In "="%char pat) pats
  /\ p = IndexOutOfRange 1 1.
Proof.
  revert acc; induction pats as [|pat pats IH]; intros acc; cbn [Set_loop];
    [discriminate|].
  destruct pat as [|c pat'].
  { intros H. destruct (IH _ H) as [He ->]. split; [right; exact He|reflexivity]. }
  change (len (c :: pat') =? 0) with (Z.pos (Pos.of_succ_nat (length pat')) =? 0).
  cbn [Z.eqb].
  destruct (index_Split_0 (c :: pat') "=") as [q ->]. cbn [mbind outcome_bind].
  destruct (in_dec ascii_dec "="%char (c :: pat')) as [Hin|Hnin].
  - destruct (index_Split_1 (c :: pat') "=" Hin) as [l ->]. cbn [mbind outcome_bind].
    destruct (strconv.ParseInt l 10 32) as [v e].
    destruct (v =? 0); intros H; destruct (IH _ H) as [He ->];
      (split; [right; exact He|reflexivity]).
  - rewrite (index_Split_1_panics _ _ Hnin). cbn [mbind outcome_bind].
    intros [= <-]. split; [left; split; [discriminate|exact Hnin]|reflexivity].
Qed.

Lemma Set_loop_Exists_panics (pats : list GoString) (acc : list modulePat) :
  Exists (fun pat => pat <> [] /\ ~ In "="%char pat) pats ->
  Set_loop pats acc = Panics (IndexOutOfRange 1 1).
Proof.
  intros H. destruct (Set_loop pats acc) as [filter|p] eqn:E.
  - exfalso. revert acc filter E.
    induction H as [pat pats [Hne Hnin]|pat pats _ IH]; intros acc filter;
      cbn [Set_loop].
    + destruct pat as [|c pat']; [congruence|].
      change (len (c :: pat') =? 0) with (Z.pos (Pos.of_succ_nat (length pat')) =? 0).
      cbn [Z.eqb].
      destruct (index_Split_0 (c :: pat') "=") as [q ->]. cbn [mbind outcome_bind].
      rewrite (index_Split_1_panics _ _ Hnin). discriminate.
    + destruct (len pat =? 0); [apply IH|].
      destruct (index (strings.Split pat "=") 0) as [q|]; cbn [mbind outcome_bind];
        [|discriminate].
      destruct (index (strings.Split pat "=") 1) as [l|]; cbn [mbind outcome_bind];
        [|discriminate].
      destruct (strconv.ParseInt l 10 32) as [v e].
      destruct (v =? 0); apply IH.
  - apply Set_loop_panics in E as [_ ->]. reflexivity.
Qed.

Section SetPanics.
Context {Engine Err : Type}.
Variable inner_Set : GoString -> Engine -> option Err * Engine.

(** X2.  [vmoduleValue.Set] panics exactly when the wrapped flag value
    accepts the string and some segment that is not empty has no ['=']:
    the panic is then the one of [patLev[1]], index out of range [1] with
    length 1. *)
Theorem Set_panics_iff (value : GoString) (w : world Engine) (p : panic) :
  vmoduleValue_Set inner_Set value w = Panics p
  <-> (fst (inner_Set value (engine w)) = None
       /\ Exists (fun pat => pat <> [] /\ ~ In "="%char pat)
                 (strings.Split value ",")
       /\ p = IndexOutOfRange 1 1).
Proof.
  unfold vmoduleValue_Set.
  destruct (inner_Set value (engine w)) as [[err|] e]; cbn [fst].
  - split; [discriminate|]. intros [H _]; discriminate.
  - split.
    + destruct (Set_loop (strings.Split value ",") []) as [filter|q] eqn:E;
        cbn [mbind outcome_bind]; [discriminate|].
      intros [= <-]. apply Set_loop_panics in E as [He ->]. auto.
    + intros (_ & He & ->). rewrite (Set_loop_Exists_panics _ [] He). reflexivity.
Qed.

End SetPanics.

(** ** Values put together with commas *)

(** X3.  The filter of two values joined by a comma is the filter of the
    first followed by the filter of the second; a comma at either end
    changes nothing. *)
Theorem Set_filter_comma (a b : GoString) :
  Set_filter (a ++ str "," ++ b)
  = (fa ← Set_filter a; fb ← Set_filter b; Returns (fa ++ fb))
  /\ Set_filter (a ++ str ",") = Set_filter a
  /\ Set_filter (str "," ++ b) = Set_filter b.
Proof.
  assert (H : forall a b, Set_filter (a ++ str "," ++ b)
              = (fa ← Set_filter a; fb ← Set_filter b; Returns (fa ++ fb))).
  { intros x y. unfold Set_filter. change (x ++ str "," ++ y) with (x ++ ","%char :: y).
    rewrite Split_app, Set_loop_app.
    destruct (Set_loop (strings.Split x ",") []) as [fa|]; cbn [mbind outcome_bind];
      [|reflexivity].
    apply Set_loop_acc. }
  split; [apply H|]. split.
  - specialize (H a []). change (a ++ str "," ++ []) with (a ++ str ",") in H.
    rewrite H.
    change (Set_filter []) with (Returns (@nil modulePat)).
    destruct (Set_filter a) as [fa|]; cbn [mbind outcome_bind]; [|reflexivity].
    rewrite app_nil_r. reflexivity.
  - specialize (H [] b). change ([] ++ str "," ++ b) with (str "," ++ b) in H.
    rewrite H. change (Set_filter []) with (Returns (@nil modulePat)).
    cbn [mbind outcome_bind].
    destruct (Set_filter b) as [fb|]; reflexivity.
Qed.

(** ** The rules of a filter *)

Lemma index_In {A : Type} (xs : list A) (i : nat) (x : A) :
  index xs i = Returns x -> In x xs.
Proof.
  unfold index. destruct (nth_error xs i) eqn:E; [|discriminate].
  intros [= <-]. eapply nth_error_In; eauto.
Qed.

Lemma Set_loop_wellFormed (pats : list GoString) (acc filter : list modulePat) :
  Forall (fun pat => ~ In ","%char pat) pats ->
  Forall wellFormedRule acc ->
  Set_loop pats acc = Returns filter ->
  Forall wellFormedRule filter.
Proof.
  intros Hp; revert acc; induction Hp as [|pat pats Hpat _ IH]; intros acc Hacc;
    cbn [Set_loop].
  - intros [= <-]. exact Hacc.
  - destruct (len pat =? 0); [apply IH, Hacc|].
    destruct (index (strings.Split pat "=") 0) as [q|] eqn:E0;
      cbn [mbind outcome_bind]; [|discriminate].
    destruct (index (strings.Split pat "=") 1) as [l|];
      cbn [mbind outcome_bind]; [|discriminate].
    pose proof (ParseInt_range l) as Hr. pose proof (Level_of_ParseInt l) as Hl.
    destruct (strconv.ParseInt l 10 32) as [v e]. cbn [fst] in Hr, Hl.
    destruct (v =? 0) eqn:Ev; [apply IH, Hacc|].
    apply IH. apply Forall_app. split; [exact Hacc|].
    constructor; [|constructor].
    apply index_In in E0.
    unfold wellFormedRule. cbn [level literal pattern]. rewrite Hl.
    split; [apply Z.eqb_neq, Ev|]. split; [exact Hr|]. split; [reflexivity|].
    split.
    + intros Hc. apply Hpat. eapply Split_elems_sub; eauto.
    + pose proof (Split_elems_no_sep pat "=") as Hs.
      rewrite List.Forall_forall in Hs. apply Hs, E0.
Qed.

Lemma Set_filter_wellFormed (value : GoString) (filter : list modulePat) :
  Set_filter value = Returns filter -> Forall wellFormedRule filter.
Proof.
  apply Set_loop_wellFormed; [apply Split_elems_no_sep|constructor].
Qed.

Section Reachable.
Context {Engine Err : Type}.
Variable inner_Set : GoString -> Engine -> option Err * Engine.
Variable v2_V_Enabled : Level -> Engine -> bool.
Variable FileLine : uintptr -> GoString.

Local Abbreviation Set_ := (vmoduleValue_Set inner_Set).
Local Abbreviation Get_ := (vmoduleGet FileLine).
Local Abbreviation V_ := (V v2_V_Enabled FileLine).
Local Abbreviation reachable := (reachable inner_Set v2_V_Enabled FileLine).
Local Abbreviation step := (step inner_Set v2_V_Enabled FileLine).
Local Abbreviation query_step := (query_step v2_V_Enabled FileLine).

Lemma query_step_filter (w w' : world Engine) :
  query_step w w' -> vModuleFilter (vmodule w') = vModuleFilter (vmodule w).
Proof.
  intros H. destruct H as [level caller w b w' H|pc w l g H|e w].
  - apply (V_preserves v2_V_Enabled FileLine _ _ _ _ _ H).
  - apply (Get_preserves FileLine _ _ _ _ H).
  - reflexivity.
Qed.

Lemma filterLevel_range (filter : list modulePat) (file : GoString) :
  Forall wellFormedRule filter ->
  minInt32 <= filterLevel filter file <= maxInt32.
Proof.
  unfold filterLevel. induction 1 as [|m filter Hm _ IH]; cbn [firstMatch].
  - unfold minInt32, maxInt32. lia.
  - destruct (modulePat_match m file); [apply Hm|exact IH].
Qed.

(** X4.  In every state of a run, every rule of the filter has a level
    that is not zero and is an [int32], its [literal] flag is what
    [isLiteral] says of its pattern, and its pattern has neither a comma
    nor an equals sign; and every level that [vmoduleGet] returns is an
    [int32]. *)
Theorem filter_rules_wellFormed (w : world Engine) :
  reachable w ->
  Forall wellFormedRule (vModuleFilter (vmodule w))
  /\ forall pc l g, Get_ pc (vmodule w) = Returns (l, g) ->
       minInt32 <= l <= maxInt32.
Proof.
  intros Hr.
  assert (Hw : Forall wellFormedRule (vModuleFilter (vmodule w))).
  { induction Hr as [e|w w' _ IH Hstep]; [constructor|].
    destruct Hstep as [value w r w' H|w w' H].
    - destruct r as [err|].
      + rewrite (Set_err inner_Set _ _ _ _ H). exact IH.
      + destruct (Set_nil inner_Set _ _ _ H) as (filter & Hf & ->).
        cbn [vModuleFilter]. eapply Set_filter_wellFormed; eauto.
    - rewrite (query_step_filter _ _ H). exact IH. }
  split; [exact Hw|]. intros pc l g HG.
  pose proof (reachable_consistent inner_Set v2_V_Enabled FileLine w Hr) as Hc.
  destruct (Get_preserves FileLine _ _ _ _ HG) as (_ & _ & _ & Hl).
  rewrite (Hl Hc). apply filterLevel_range, Hw.
Qed.

(** The cache is nil until the first [Set] that returns nil, and never
    afterwards. *)
Lemma Get_returns_made (pc : uintptr) (g g' : global) (l : Level) :
  Get_ pc g = Returns (l, g') -> exists m, vModuleCache g = Some m.
Proof.
  unfold vmoduleGet. destruct (vModuleCache g) as [m|]; [eauto|].
  cbn. discriminate.
Qed.

Lemma reachable_nil_or_made (w : world Engine) :
  reachable w ->
  vmodule w = global_init \/ exists m, vModuleCache (vmodule w) = Some m.
Proof.
  induction 1 as [e|w w' _ IH Hstep]; [left; reflexivity|].
  destruct Hstep as [value w r w' H|w w' H].
  - destruct r as [err|].
    + rewrite (Set_err inner_Set _ _ _ _ H). exact IH.
    + destruct (Set_nil inner_Set _ _ _ H) as (filter & Hf & ->).
      right. cbn. eauto.
  - destruct H as [level caller w b w' H|pc w l g H|e w]; [| |exact IH].
    + destruct IH as [IH|IH].
      * unfold V in H. destruct (v2_V_Enabled level (engine w)).
        { injection H as _ <-. left; exact IH. }
        destruct caller as [pc|]; [|injection H as _ <-; left; exact IH].
        rewrite IH in H. cbn in H. discriminate.
      * right. apply (V_preserves v2_V_Enabled FileLine _ _ _ _ _ H), IH.
    + right. apply (Get_preserves FileLine _ _ _ _ H).
Qed.

(** X5.  Before the first [Set] that returns nil the cache is the nil map,
    and a [V] that the engine does not enable panics when [vmoduleGet]
    assigns to it; after such a [Set] the cache is never nil and [V]
    returns. *)
Theorem V_panics_before_first_Set (w : world Engine) (level : Level)
    (pc : uintptr) :
  reachable w ->
  v2_V_Enabled level (engine w) = false ->
  (vmodule w = global_init /\ V_ level (Some pc) w = Panics NilMapAssignment)
  \/ (vmodule w <> global_init
      /\ exists b w', V_ level (Some pc) w = Returns (b, w')).
Proof.
  intros Hr He. destruct (reachable_nil_or_made w Hr) as [H|[m H]].
  - left. split; [exact H|]. unfold V. rewrite He, H. reflexivity.
  - right. split.
    + intros E. rewrite E in H. discriminate.
    + unfold V. rewrite He. unfold vmoduleGet.
      destruct (mapaccess (vModuleCache (vmodule w)) pc) as [v|];
        cbn [mbind outcome_bind]; [eauto|].
      rewrite H. cbn. eauto.
Qed.

End Reachable.

Lemma filter_rules_wellFormed_witness :
  reachable accept_all never_enabled demoFileLine
    (demoWorld [mkModulePat (str "a*") false 1; mkModulePat (str "abc") true (-5)])
  /\ Forall wellFormedRule
       [mkModulePat (str "a*") false 1; mkModulePat (str "abc") true (-5)].
Proof.
  assert (Hr : reachable accept_all never_enabled demoFileLine
                 (demoWorld [mkModulePat (str "a*") false 1;
                             mkModulePat (str "abc") true (-5)])).
  { apply (reachable_step _ _ _ (mkWorld tt global_init)); [constructor|].
    apply (step_Set _ _ _ (str "a*=1,x=0,abc=-5,") _ None). reflexivity. }
  split; [exact Hr|].
  exact (proj1 (filter_rules_wellFormed accept_all never_enabled demoFileLine _ Hr)).
Defined.

Lemma V_panics_before_first_Set_witness :
  reachable accept_all never_enabled demoFileLine (mkWorld tt global_init)
  /\ never_enabled 1 tt = false
  /\ ((vmodule (mkWorld tt global_init) = global_init
       /\ V never_enabled demoFileLine 1 (Some 7%N) (mkWorld tt global_init)
          = Panics NilMapAssignment)
      \/ (vmodule (mkWorld tt global_init) <> global_init
          /\ exists b w', V never_enabled demoFileLine 1 (Some 7%N)
                            (mkWorld tt global_init) = Returns (b, w'))).
Proof.
  assert (Hr : reachable accept_all never_enabled demoFileLine (mkWorld tt global_init))
    by constructor.
  split; [exact Hr|]. split; [reflexivity|].
  exact (V_panics_before_first_Set accept_all never_enabled demoFileLine _ 1 7%N
           Hr eq_refl).
Defined.

(** ** A segment with more than one ['='] *)





(** ** Decimal level texts *)








(** ** The cache *)

Section CacheMore.
Context {Engine Err : Type}.
Variable inner_Set : GoString -> Engine -> option Err * Engine.
Variable v2_V_Enabled : Level -> Engine -> bool.
Variable FileLine : uintptr -> GoString.

Local Abbreviation Set_ := (vmoduleValue_Set inner_Set).
Local Abbreviation Get_ := (vmoduleGet FileLine).
Local Abbreviation V_ := (V v2_V_Enabled FileLine).
Local Abbreviation query_step := (query_step v2_V_Enabled FileLine).

(** What [vmoduleGet] does when it returns. *)
Lemma Get_cases (pc : uintptr) (g g' : global) (l : Level) :
  Get_ pc g = Returns (l, g') ->
  exists m, vModuleCache g = Some m
    /\ ((m !! pc = Some l /\ g' = g)
        \/ (m !! pc = None
            /\ l = filterLevel (vModuleFilter g) (trimFile (FileLine pc))
            /\ g' = mkGlobal (vModuleFilter g) (Some (<[pc := l]> m)))).
Proof.
  unfold vmoduleGet. destruct g as [filter [m|]]; cbn; [|discriminate].
  intros H. exists m. split; [reflexivity|].
  destruct (m !! pc) as [v|] eqn:E.
  - injection H as <- <-. left. auto.
  - cbn in H. injection H as <- <-. right. auto.
Qed.

(** X8.  A call site that [vmoduleGet] has resolved stays resolved: the
    next call returns the same level out of the cache and changes
    nothing; the first call adds at most the entry of its own call site
    and touches neither the other entries nor the filter. *)
Theorem Get_again (pc : uintptr) (g g' : global) (l : Level) :
  Get_ pc g = Returns (l, g') ->
  Get_ pc g' = Returns (l, g')
  /\ mapaccess (vModuleCache g') pc = Some l
  /\ vModuleFilter g' = vModuleFilter g
  /\ forall pc', pc' <> pc ->
       mapaccess (vModuleCache g') pc' = mapaccess (vModuleCache g) pc'.
Proof.
  intros H. destruct (Get_cases _ _ _ _ H) as (m & Hm & [[Hl ->]|(Hl & Hv & ->)]).
  - assert (Ha : mapaccess (vModuleCache g) pc = Some l) by (rewrite Hm; exact Hl).
    split; [apply Get_hit, Ha|]. auto.
  - assert (Ha : mapaccess (Some (<[pc := l]> m)) pc = Some l)
      by apply lookup_insert_eq.
    split; [apply Get_hit, Ha|]. split; [exact Ha|]. split; [reflexivity|].
    intros pc' Hne. rewrite Hm. cbn. apply lookup_insert_ne. congruence.
Qed.

(** X9.  The order in which two call sites are resolved does not matter,
    neither for the levels returned nor for the cache that results. *)
Theorem Get_commutes (pc1 pc2 : uintptr) (g g1 g12 : global) (l1 l2 : Level) :
  Get_ pc1 g = Returns (l1, g1) ->
  Get_ pc2 g1 = Returns (l2, g12) ->
  exists g2, Get_ pc2 g = Returns (l2, g2) /\ Get_ pc1 g2 = Returns (l1, g12).
Proof.
  intros H1 H2. destruct (decide (pc1 = pc2)) as [<-|Hne].
  { destruct (Get_again _ _ _ _ H1) as (H1' & _).
    rewrite H1' in H2. injection H2 as <- <-.
    exists g1. split; [|exact H1']. 
    destruct (Get_cases _ _ _ _ H1) as (m & Hm & [[Hl ->]|(Hl & Hv & ->)]);
      [exact H1|exact H1]. }
  destruct (Get_cases _ _ _ _ H1) as (m & Hm & [[Hl1 ->]|(Hl1 & Hv1 & ->)]).
  - (* pc1 is in the cache *)
    exists g12. split; [exact H2|].
    destruct (Get_cases _ _ _ _ H2) as (m' & Hm' & [[Hl2 ->]|(Hl2 & Hv2 & ->)]);
      [exact H1|].
    apply Get_hit. cbn. rewrite Hm in Hm'. injection Hm' as <-.
    rewrite lookup_insert_ne by congruence. exact Hl1.
  - (* pc1 is not in the cache *)
    destruct (Get_cases _ _ _ _ H2) as (m' & Hm' & [[Hl2 ->]|(Hl2 & Hv2 & ->)]);
      cbn [vModuleCache vModuleFilter] in *; injection Hm' as <-.
    + rewrite lookup_insert_ne in Hl2 by congruence.
      exists g. split.
      * apply Get_hit. rewrite Hm. exact Hl2.
      * exact H1.
    + rewrite lookup_insert_ne in Hl2 by congruence.
      exists (mkGlobal (vModuleFilter g) (Some (<[pc2 := l2]> m))). split.
      * rewrite (Get_miss FileLine pc2 g m Hm Hl2). unfold siteLevel.
        rewrite <- Hv2. reflexivity.
      * rewrite (Get_miss FileLine pc1
                   (mkGlobal (vModuleFilter g) (Some (<[pc2 := l2]> m)))
                   (<[pc2 := l2]> m) eq_refl).
        2:{ rewrite lookup_insert_ne by congruence. exact Hl1. }
        unfold siteLevel. cbn [vModuleFilter]. rewrite <- Hv1.
        rewrite (insert_insert_ne m pc1 pc2) by congruence. reflexivity.
Qed.

(** ** Clearing the filter *)

Lemma Set_filter_commas (value : GoString) :
  Forall (fun c => c = ","%char) value -> Set_filter value = Returns [].
Proof.
  unfold Set_filter. induction 1 as [|c v -> _ IH]; [reflexivity|].
  cbn [strings.Split]. rewrite Ascii.eqb_refl. exact IH.
Qed.

(** X10.  A value without segments, the empty string or commas only, gives
    the empty filter: once [Set] has returned nil on it, no rule is
    left and every call site has the level 0. *)
Theorem Set_of_commas_clears (value : GoString) (w w1 w2 : world Engine)
    (pc : uintptr) :
  Forall (fun c => c = ","%char) value ->
  Set_ value w = Returns (None, w1) ->
  rtc query_step w1 w2 ->
  vModuleFilter (vmodule w2) = []
  /\ exists g, Get_ pc (vmodule w2) = Returns (0, g).
Proof.
  intros Hv HS Hq.
  pose proof (Set_filter_commas value Hv) as Hf.
  destruct (Set_updated inner_Set FileLine _ _ _ HS) as (filter & Hf' & Hu).
  rewrite Hf in Hf'. injection Hf' as <-.
  pose proof (queries_updated v2_V_Enabled FileLine _ _ _ Hq Hu) as Hu2.
  split; [apply Hu2|].
  destruct (Get_updated FileLine _ pc _ Hu2) as (g & HG & _). eauto.
Qed.

(** ** What [V] answers *)

Section Verbose.
Context {Arg : Type}.
Variable Sprint : list Arg -> GoString.
Variable Sprintln : list Arg -> GoString.
Variable Sprintf : GoString -> list Arg -> GoString.
Variable v2_InfoDepth : Z -> GoString -> Engine -> Engine.

(** X11.  After a [Set] that returned nil, [V(level)] at a call site is
    true when the engine enables the level or when the level is at most
    the level that the filter gives to the file of the call site, and
    false otherwise; it leaves the engine and the filter as they are.
    [V(level).Info(args...)] then logs what [Info(args...)] logs when
    [V(level)] is true and nothing when it is false, and so do [Infoln]
    and [Infof]. *)
Theorem V_then_Info (value : GoString) (w w1 w2 : world Engine)
    (level : Level) (pc : uintptr) :
  Set_ value w = Returns (None, w1) ->
  rtc query_step w1 w2 ->
  exists filter w3,
    Set_filter value = Returns filter
    /\ let enabled :=
         v2_V_Enabled level (engine w2)
         || (level <=? filterLevel filter (trimFile (FileLine pc))) in
       V_ level (Some pc) w2 = Returns (enabled, w3)
       /\ engine w3 = engine w2
       /\ vModuleFilter (vmodule w3) = filter
       /\ forall (args : list Arg) (format : GoString),
            Verbose_Info Sprint v2_InfoDepth enabled args (engine w3)
            = (if enabled then Info Sprint v2_InfoDepth args (engine w2)
               else engine w2)
            /\ Verbose_Infoln Sprintln v2_InfoDepth enabled args (engine w3)
               = (if enabled then Infoln Sprintln v2_InfoDepth args (engine w2)
                  else engine w2)
            /\ Verbose_Infof Sprintf v2_InfoDepth enabled format args (engine w3)
               = (if enabled then Infof Sprintf v2_InfoDepth format args (engine w2)
                  else engine w2).
Proof.
  intros HS Hq.
  destruct (Set_updated inner_Set FileLine _ _ _ HS) as (filter & Hf & Hu).
  pose proof (queries_updated v2_V_Enabled FileLine _ _ _ Hq Hu) as Hu2.
  exists filter.
  destruct (v2_V_Enabled level (engine w2)) eqn:He.
  - exists w2. split; [exact Hf|]. cbv zeta. cbn [orb].
    split; [unfold V; rewrite He; reflexivity|].
    split; [reflexivity|]. split; [apply Hu2|].
    intros args format. repeat split.
  - destruct (Get_updated FileLine _ pc _ Hu2) as (g & HG & Hu3).
    exists (mkWorld (engine w2) g). split; [exact Hf|]. cbv zeta. cbn [orb].
    split; [unfold V; rewrite He, HG; reflexivity|].
    split; [reflexivity|]. split; [apply Hu3|].
    intros args format. cbn [engine].
    unfold Verbose_Info, Verbose_Infoln, Verbose_Infof, Info, Infoln, Infof.
    repeat split.
Qed.

End Verbose.
End CacheMore.

Lemma Get_again_witness :
  let g := mkGlobal [mkModulePat (str "a*") false 1] (Some ∅) in
  let g' := mkGlobal [mkModulePat (str "a*") false 1] (Some (<[1%N := 1]> ∅)) in
  vmoduleGet demoFileLine 1 g = Returns (1, g')
  /\ vmoduleGet demoFileLine 1 g' = Returns (1, g').
Proof.
  intros g g'.
  assert (H : vmoduleGet demoFileLine 1 g = Returns (1, g')) by reflexivity.
  split; [exact H|]. exact (proj1 (Get_again demoFileLine 1 g g' 1 H)).
Defined.

Lemma Get_commutes_witness :
  let filter := [mkModulePat (str "a*") false 1; mkModulePat (str "gopher*") false 3] in
  exists g2,
    vmoduleGet demoFileLine 2 (mkGlobal filter (Some ∅)) = Returns (3, g2)
    /\ vmoduleGet demoFileLine 1 g2
       = Returns (1, mkGlobal filter (Some (<[2%N := 3]> (<[1%N := 1]> ∅)))).
Proof.
  intros filter.
  exact (Get_commutes demoFileLine 1 2 (mkGlobal filter (Some ∅))
           (mkGlobal filter (Some (<[1%N := 1]> ∅)))
           (mkGlobal filter (Some (<[2%N := 3]> (<[1%N := 1]> ∅))))
           1 3 eq_refl eq_refl).
Defined.

Lemma Set_of_commas_clears_witness :
  vModuleFilter (vmodule (demoWorld [])) = []
  /\ exists g, vmoduleGet demoFileLine 1 (vmodule (demoWorld [])) = Returns (0, g).
Proof.
  refine (Set_of_commas_clears accept_all never_enabled demoFileLine (str ",,")
            (demoWorld [mkModulePat (str "a*") false 1]) (demoWorld [])
            (demoWorld []) 1%N _ eq_refl (rtc_refl _ _)).
  repeat constructor.
Defined.

Lemma V_then_Info_witness :
  let w2 := mkWorld [] (mkGlobal [mkModulePat (str "a*") false 1;
                                  mkModulePat (str "gopher*") false 3] (Some ∅)) in
  exists filter w3,
    Set_filter (str "a*=1,gopher*=3") = Returns filter
    /\ let enabled :=
         log_V_Enabled 3 (engine w2)
         || (3 <=? filterLevel filter (trimFile (demoFileLine 2))) in
       V log_V_Enabled demoFileLine 3 (Some 2%N) w2 = Returns (enabled, w3)
       /\ engine w3 = engine w2
       /\ vModuleFilter (vmodule w3) = filter
       /\ forall (args : list GoString) (format : GoString),
            Verbose_Info (@concat ascii) log_InfoDepth enabled args (engine w3)
            = (if enabled then Info (@concat ascii) log_InfoDepth args (engine w2)
               else engine w2)
            /\ Verbose_Infoln (@concat ascii) log_InfoDepth enabled args (engine w3)
               = (if enabled then Infoln (@concat ascii) log_InfoDepth args (engine w2)
                  else engine w2)
            /\ Verbose_Infof (fun f a => f ++ concat a) log_InfoDepth enabled format
                 args (engine w3)
               = (if enabled
                  then Infof (fun f a => f ++ concat a) log_InfoDepth format args
                         (engine w2)
                  else engine w2).
Proof.
  intros w2.
  exact (V_then_Info log_Set log_V_Enabled demoFileLine
           (@concat ascii) (@concat ascii) (fun f a => f ++ concat a) log_InfoDepth
           (str "a*=1,gopher*=3") (mkWorld [] global_init) w2 w2 3 2%N
           eq_refl (rtc_refl _ _)).
Defined.

(** ** Patterns of plain bytes *)

Lemma plain_spec (c : ascii) :
  plain c = true ->
  Ascii.eqb c "\" = false /\ Ascii.eqb c "*" = false
  /\ Ascii.eqb c "?" = false /\ Ascii.eqb c "[" = false.
Proof.
  unfold plain. cbn [str list_ascii_of_string existsb].
  rewrite negb_true_iff, !orb_false_iff. tauto.
Qed.

Lemma isLiteral_plain (p : GoString) :
  isLiteral p = true -> forallb plain p = true.
Proof.
  unfold isLiteral, strings.ContainsAny. rewrite negb_true_iff.
  induction p as [|c p IH]; [reflexivity|].
  cbn [existsb forallb]. rewrite orb_false_iff. intros [Hc Hp].
  rewrite IH by exact Hp. rewrite andb_true_r.
  unfold plain. apply negb_true_iff.
  cbn [str list_ascii_of_string existsb] in *.
  rewrite !orb_false_iff in *. tauto.
Qed.

Lemma isLiteral_app (p q : GoString) :
  isLiteral (p ++ q) = isLiteral p && isLiteral q.
Proof.
  unfold isLiteral, strings.ContainsAny. rewrite existsb_app, negb_orb. reflexivity.
Qed.

Lemma cutPrefix_spec (p s r : GoString) :
  cutPrefix p s = Some r <-> s = p ++ r.
Proof.
  revert s; induction p as [|c p IH]; intros s; cbn [cutPrefix app].
  - split; [intros [= ->]; reflexivity|intros ->; reflexivity].
  - destruct s as [|d s]; [split; discriminate|].
    destruct (Ascii.eqb_spec c d) as [->|Hne].
    + rewrite IH. split; [intros ->; reflexivity|intros [= ->]; reflexivity].
    + split; [discriminate|]. intros [= E _]. congruence.
Qed.

Lemma cutPrefix_self (p : GoString) : cutPrefix p p = Some [].
Proof. apply cutPrefix_spec. symmetry. apply app_nil_r. Qed.

Lemma matchChunk_loop_plain (fuel : nat) (chunk s : GoString) (failed : bool) :
  forallb plain chunk = true -> (length chunk < fuel)%nat ->
  filepath.matchChunk_loop fuel chunk s failed
  = Some (if failed then filepath.NoMatch
          else match cutPrefix chunk s with
               | Some r => filepath.Matched r
               | None => filepath.NoMatch
               end).
Proof.
  revert chunk s failed.
  induction fuel as [|fuel IH]; intros chunk s failed Hp Hl; [lia|].
  destruct chunk as [|c chunk']; [reflexivity|].
  cbn [forallb] in Hp. apply andb_true_iff in Hp as [Hc Hp].
  destruct (plain_spec c Hc) as (E1 & E2 & E3 & E4).
  cbn [length] in Hl.
  cbn [filepath.matchChunk_loop]. rewrite E4, E3, E1. cbn [andb].
  destruct failed; cbn [orb].
  - rewrite IH by (assumption || lia). reflexivity.
  - destruct s as [|s0 s'].
    + change (len [] =? 0) with true. cbn iota.
      rewrite IH by (assumption || lia). reflexivity.
    + replace (len (s0 :: s') =? 0) with false by reflexivity. cbn iota.
      rewrite IH by (assumption || lia). cbn [cutPrefix].
      destruct (Ascii.eqb c s0); reflexivity.
Qed.

Lemma matchChunk_plain (chunk s : GoString) :
  forallb plain chunk = true ->
  filepath.matchChunk chunk s
  = match cutPrefix chunk s with
    | Some r => filepath.Matched r
    | None => filepath.NoMatch
    end.
Proof.
  intros Hp. unfold filepath.matchChunk.
  rewrite matchChunk_loop_plain by (assumption || lia). reflexivity.
Qed.

Lemma scanLoop_plain_app (p q : GoString) :
  forallb plain p = true ->
  filepath.scanLoop (p ++ q) false = (length p + filepath.scanLoop q false)%nat.
Proof.
  induction p as [|c p IH]; intros Hp; [reflexivity|].
  cbn [forallb] in Hp. apply andb_true_iff in Hp as [Hc Hp].
  destruct (plain_spec c Hc) as (E1 & E2 & E3 & E4).
  cbn [app filepath.scanLoop length]. rewrite E1, E4, E2.
  rewrite IH by exact Hp. destruct (Ascii.eqb c "]"); reflexivity.
Qed.

Lemma scanChunk_plain (p q : GoString) :
  forallb plain p = true -> p <> [] -> filepath.scanLoop q false = 0%nat ->
  filepath.scanChunk (p ++ q) = (false, p, q).
Proof.
  intros Hp Hne Hq. unfold filepath.scanChunk.
  destruct p as [|c p']; [congruence|].
  assert (Hc : Ascii.eqb c "*" = false).
  { cbn [forallb] in Hp. apply andb_true_iff in Hp as [Hc _].
    apply (plain_spec c Hc). }
  cbn [app filepath.stripStars]. rewrite Hc.
  change (c :: p' ++ q) with ((c :: p') ++ q).
  rewrite scanLoop_plain_app by exact Hp. rewrite Hq, Nat.add_0_r.
  rewrite firstn_app, firstn_all, Nat.sub_diag, skipn_app, skipn_all, Nat.sub_diag.
  cbn [firstn skipn]. rewrite app_nil_r. reflexivity.
Qed.

Lemma scanChunk_star_plain (p : GoString) :
  forallb plain p = true ->
  filepath.scanChunk ("*"%char :: p) = (true, p, []).
Proof.
  intros Hp. unfold filepath.scanChunk. cbn [filepath.stripStars].
  change (Ascii.eqb "*" "*") with true. cbn iota.
  assert (Hs : snd (filepath.stripStars p) = p).
  { destruct p as [|c p']; [reflexivity|].
    cbn [forallb] in Hp. apply andb_true_iff in Hp as [Hc _].
    cbn [filepath.stripStars]. destruct (plain_spec c Hc) as (_ & -> & _).
    reflexivity. }
  rewrite Hs.
  pose proof (scanLoop_plain_app p [] Hp) as H. rewrite app_nil_r in H.
  rewrite H. cbn [filepath.scanLoop]. rewrite Nat.add_0_r.
  rewrite firstn_all, skipn_all. reflexivity.
Qed.

(** One turn of the loop of [Match] on a chunk of plain bytes that no
    star precedes. *)
Lemma Match_loop_plain_chunk (fuel : nat) (p q name : GoString) :
  forallb plain p = true -> p <> [] -> filepath.scanLoop q false = 0%nat ->
  filepath.Match_loop (S fuel) (p ++ q) name
  = match cutPrefix p name with
    | Some t =>
        if (len t =? 0) || (0 <? len q) then filepath.Match_loop fuel q t
        else Some (false, false)
    | None => Some (false, false)
    end.
Proof.
  intros Hp Hne Hq. cbn [filepath.Match_loop].
  rewrite scanChunk_plain by assumption.
  destruct (p ++ q) as [|x r] eqn:E.
  { destruct p; [congruence|discriminate]. }
  cbn [andb]. rewrite matchChunk_plain by exact Hp.
  destruct (cutPrefix p name) as [t|]; reflexivity.
Qed.

Lemma Match_plain (p name : GoString) :
  forallb plain p = true -> fst (filepath.Match p name) = streq name p.
Proof.
  intros Hp. unfold filepath.Match. destruct p as [|c p'].
  - cbn. destruct name; reflexivity.
  - pose proof (Match_loop_plain_chunk (length (c :: p')) (c :: p') [] name Hp
                  ltac:(discriminate) eq_refl) as H.
    rewrite app_nil_r in H. rewrite H.
    destruct (cutPrefix (c :: p') name) as [t|] eqn:E.
    + apply cutPrefix_spec in E. subst name.
      change (0 <? len []) with false. rewrite orb_false_r.
      destruct t as [|x t'].
      * rewrite app_nil_r, streq_refl. reflexivity.
      * replace (len (x :: t') =? 0) with false by reflexivity. cbn [fst].
        symmetry. apply not_true_is_false. intros Hs. apply streq_eq in Hs.
        apply (f_equal (@length ascii)) in Hs. rewrite length_app in Hs.
        cbn [length] in Hs. lia.
    + cbn [fst]. symmetry. apply not_true_is_false. intros Hs.
      apply streq_eq in Hs. subst name. rewrite cutPrefix_self in E. discriminate.
Qed.

Lemma modulePat_match_literal (p name : GoString) (lit : bool) (l : Level) :
  isLiteral p = true ->
  modulePat_match (mkModulePat p lit l) name = streq name p.
Proof.
  intros H. unfold modulePat_match. cbn [literal pattern].
  destruct lit; [reflexivity|]. apply Match_plain, isLiteral_plain, H.
Qed.

(** X12.  On a pattern that [isLiteral] accepts, [filepath.Match] is the
    comparison of strings, whatever the bytes of the name: the [literal]
    flag of a rule saves the call and never changes the answer. *)
Theorem literal_flag_is_a_shortcut (p name : GoString) (lit : bool) (l : Level) :
  isLiteral p = true ->
  modulePat_match (mkModulePat p lit l) name = streq name p
  /\ (modulePat_match (mkModulePat p lit l) name = true <-> name = p).
Proof.
  intros H. pose proof (modulePat_match_literal p name lit l H) as E.
  split; [exact E|]. rewrite E. apply streq_eq.
Qed.

Lemma literal_flag_is_a_shortcut_witness :
  modulePat_match (mkModulePat (str "klog_test") false 2) euro = streq euro (str "klog_test")
  /\ modulePat_match (mkModulePat (str "klog_test") false 2) (str "klog_test") = true.
Proof.
  split.
  - exact (proj1 (literal_flag_is_a_shortcut (str "klog_test") euro false 2 eq_refl)).
  - exact (proj2 (proj2 (literal_flag_is_a_shortcut (str "klog_test") (str "klog_test")
                           false 2 eq_refl)) eq_refl).
Defined.

(** ** A literal with a star after it or before it *)

Lemma Contains_spec (s : GoString) (c : ascii) :
  strings.Contains s c = false <-> ~ In c s.
Proof.
  split; [|apply Contains_false].
  unfold strings.Contains. intros H Hin.
  assert (existsb (Ascii.eqb c) s = true); [|congruence].
  apply existsb_exists. exists c. split; [exact Hin|apply Ascii.eqb_refl].
Qed.

Lemma Match_star_only (fuel : nat) (name : GoString) :
  filepath.Match_loop (S fuel) (str "*") name
  = Some (negb (strings.Contains name filepath.Separator), false).
Proof. reflexivity. Qed.

Lemma Match_prefix (p name : GoString) :
  forallb plain p = true ->
  fst (filepath.Match (p ++ str "*") name)
  = match cutPrefix p name with
    | Some rest => negb (strings.Contains rest filepath.Separator)
    | None => false
    end.
Proof.
  intros Hp. unfold filepath.Match. destruct p as [|c p'].
  - reflexivity.
  - rewrite Match_loop_plain_chunk; [|exact Hp|discriminate|reflexivity].
    destruct (cutPrefix (c :: p') name) as [t|]; [|reflexivity].
    change (0 <? len (str "*")) with true. rewrite orb_true_r.
    cbn [app length]. rewrite Match_star_only. reflexivity.
Qed.

(** X13.  A rule [p*], with [p] free of metacharacters, matches the names
    that begin with [p], the rest free of separators: with
    [-vmodule=gopher*=3] the level is 3 in all files whose names begin
    with [gopher]. *)
Theorem prefix_glob (p : GoString) (l : Level) :
  isLiteral p = true ->
  let rule := mkModulePat (p ++ str "*") (isLiteral (p ++ str "*")) l in
  (forall name,
      modulePat_match rule name = true
      <-> exists rest, name = p ++ rest /\ ~ In "/"%char rest)
  /\ (forall path,
        modulePat_match rule (trimFile path) = true
        <-> exists rest, trimFile path = p ++ rest).
Proof.
  intros Hp rule.
  assert (H : forall name,
            modulePat_match rule name = true
            <-> exists rest, name = p ++ rest /\ ~ In "/"%char rest).
  { intros name. unfold modulePat_match, rule. cbn [literal pattern].
    rewrite isLiteral_app, Hp. cbn [andb].
    change (isLiteral (str "*")) with false. cbn iota.
    rewrite Match_prefix by (apply isLiteral_plain, Hp).
    destruct (cutPrefix p name) as [t|] eqn:E.
    - apply cutPrefix_spec in E. subst name.
      rewrite negb_true_iff, Contains_spec. split.
      + intros Ht. exists t. auto.
      + intros (rest & Er & Hr). apply app_inv_head in Er. subst rest. exact Hr.
    - split; [discriminate|]. intros (rest & Er & _). subst name.
      assert (cutPrefix p (p ++ rest) = Some rest) by (apply cutPrefix_spec; reflexivity).
      congruence. }
  split; [exact H|]. intros path. rewrite H. split.
  - intros (rest & Er & _). eauto.
  - intros (rest & Er). exists rest. split; [exact Er|].
    pose proof (trimFile_no_slash path) as Hn. rewrite Er in Hn.
    rewrite in_app_iff in Hn. tauto.
Qed.

Lemma prefix_glob_witness :
  modulePat_match (mkModulePat (str "gopher*") false 3)
    (trimFile (str "/src/pkg/gopherflakes.go")) = true
  /\ ~ modulePat_match (mkModulePat (str "gopher*") false 3) (str "thegopher") = true.
Proof.
  split.
  - apply (proj2 (prefix_glob (str "gopher") 3 eq_refl)). exists (str "flakes").
    reflexivity.
  - intros H. apply (proj1 (prefix_glob (str "gopher") 3 eq_refl)) in H.
    destruct H as (rest & E & _). discriminate.
Defined.

Lemma endsAfterSkip_spec (p name : GoString) :
  endsAfterSkip p name = true
  <-> exists pre, pre <> [] /\ ~ In "/"%char pre /\ name = pre ++ p.
Proof.
  split.
  - induction name as [|c name IH]; cbn [endsAfterSkip]; [discriminate|].
    destruct (Ascii.eqb_spec c filepath.Separator) as [->|Hc]; [discriminate|].
    destruct (streq name p) eqn:E.
    + intros _. apply streq_eq in E. subst name. exists [c].
      split; [discriminate|]. split; [|reflexivity].
      simpl. intros [H|[]]. apply Hc. exact H.
    + intros H. destruct (IH H) as (pre & _ & Hn & ->). exists (c :: pre).
      split; [discriminate|]. split; [|reflexivity].
      simpl. intros [H'|H']; [apply Hc; exact H'|tauto].
  - intros (pre & Hne & Hn & ->). induction pre as [|c pre IH]; [congruence|].
    cbn [app endsAfterSkip].
    destruct (Ascii.eqb_spec c filepath.Separator) as [->|Hc].
    { exfalso. apply Hn. left. reflexivity. }
    destruct (streq (pre ++ p) p) eqn:E; [reflexivity|].
    apply IH.
    + intros ->. rewrite streq_refl in E. discriminate.
    + intros H. apply Hn. right. exact H.
Qed.

Lemma starLoop_plain (p name : GoString) :
  forallb plain p = true ->
  filepath.starLoop p true name
  = if endsAfterSkip p name then filepath.StarFound [] else filepath.StarNone.
Proof.
  intros Hp. induction name as [|c name IH]; [reflexivity|].
  cbn [filepath.starLoop endsAfterSkip].
  destruct (Ascii.eqb c filepath.Separator); [reflexivity|].
  rewrite matchChunk_plain by exact Hp.
  destruct (cutPrefix p name) as [t|] eqn:E.
  - apply cutPrefix_spec in E. destruct t as [|x t'].
    + rewrite app_nil_r in E. subst name. rewrite streq_refl. reflexivity.
    + replace (0 <? len (x :: t')) with true by reflexivity. cbn [andb].
      replace (streq name p) with false; [exact IH|].
      symmetry. apply not_true_is_false. intros Hs. apply streq_eq in Hs.
      rewrite Hs in E. apply (f_equal (@length ascii)) in E.
      rewrite length_app in E. cbn [length] in E. lia.
  - replace (streq name p) with false; [exact IH|].
    symmetry. apply not_true_is_false. intros Hs. apply streq_eq in Hs.
    subst name. rewrite cutPrefix_self in E. discriminate.
Qed.

Lemma Match_suffix (p name : GoString) :
  forallb plain p = true -> p <> [] ->
  fst (filepath.Match ("*"%char :: p) name) = streq name p || endsAfterSkip p name.
Proof.
  intros Hp Hne. unfold filepath.Match. cbn [length filepath.Match_loop].
  rewrite scanChunk_star_plain by exact Hp.
  replace (len p =? 0) with false.
  2:{ destruct p; [congruence|reflexivity]. }
  cbn [andb]. change (len [] =? 0) with true. change (0 <? len []) with false.
  rewrite matchChunk_plain by exact Hp.
  rewrite starLoop_plain by exact Hp.
  assert (Hfuel : forall t, filepath.Match_loop (S (length p)) [] t
                            = Some (len t =? 0, false)) by reflexivity.
  destruct (cutPrefix p name) as [t|] eqn:E.
  - apply cutPrefix_spec in E. destruct t as [|x t'].
    + rewrite app_nil_r in E. subst name. rewrite streq_refl.
      change (len [] =? 0) with true. cbn [orb]. reflexivity.
    + replace (len (x :: t') =? 0) with false by reflexivity. cbn [orb].
      replace (streq name p) with false.
      2:{ symmetry. apply not_true_is_false. intros Hs. apply streq_eq in Hs.
          rewrite Hs in E. apply (f_equal (@length ascii)) in E.
          rewrite length_app in E. cbn [length] in E. lia. }
      cbn [orb]. destruct (endsAfterSkip p name); reflexivity.
  - replace (streq name p) with false.
    2:{ symmetry. apply not_true_is_false. intros Hs. apply streq_eq in Hs.
        subst name. rewrite cutPrefix_self in E. discriminate. }
    cbn [orb]. destruct (endsAfterSkip p name); reflexivity.
Qed.

(** X14.  A rule [*p], with [p] free of metacharacters, matches the names
    that end with [p], what comes before free of separators. *)
Theorem suffix_glob (p : GoString) (l : Level) :
  isLiteral p = true ->
  let rule := mkModulePat (str "*" ++ p) (isLiteral (str "*" ++ p)) l in
  (forall name,
      modulePat_match rule name = true
      <-> exists pre, name = pre ++ p /\ ~ In "/"%char pre)
  /\ (forall path,
        modulePat_match rule (trimFile path) = true
        <-> exists pre, trimFile path = pre ++ p).
Proof.
  intros Hp rule.
  assert (H : forall name,
            modulePat_match rule name = true
            <-> exists pre, name = pre ++ p /\ ~ In "/"%char pre).
  { intros name. unfold modulePat_match, rule. cbn [literal pattern].
    rewrite isLiteral_app. change (isLiteral (str "*")) with false. cbn [andb].
    cbn iota. change (str "*" ++ p) with ("*"%char :: p).
    destruct p as [|c p'].
    - (* the pattern is the star alone *)
      assert (E : fst (filepath.Match ["*"%char] name)
                  = negb (strings.Contains name filepath.Separator)) by reflexivity.
      rewrite E, negb_true_iff, Contains_spec. split.
      + intros Hn. exists name. rewrite app_nil_r. auto.
      + intros (pre & -> & Hn). rewrite app_nil_r. exact Hn.
    - rewrite Match_suffix; [|apply isLiteral_plain, Hp|discriminate].
      rewrite orb_true_iff, streq_eq, endsAfterSkip_spec. split.
      + intros [->|(pre & _ & Hn & ->)]; [exists []; simpl; tauto|eauto].
      + intros (pre & -> & Hn). destruct pre as [|x pre']; [left; reflexivity|].
        right. exists (x :: pre'). split; [discriminate|]. auto. }
  split; [exact H|]. intros path. rewrite H. split.
  - intros (pre & Er & _). eauto.
  - intros (pre & Er). exists pre. split; [exact Er|].
    pose proof (trimFile_no_slash path) as Hn. rewrite Er in Hn.
    rewrite in_app_iff in Hn. tauto.
Qed.

Lemma suffix_glob_witness :
  modulePat_match (mkModulePat (str "*_test") false 2)
    (trimFile (str "/go/src/k8s.io/klog/klog_test.go")) = true.
Proof.
  apply (proj2 (suffix_glob (str "_test") 2 eq_refl)). exists (str "klog").
  reflexivity.
Defined.

(** ** Rules that no call site matches *)

(** X15.  The name of a call site has no ['/'], so a rule whose pattern is
    a literal with a ['/'] in it, as in [-vmodule=pkg/file=2], matches
    no call site. *)
Theorem literal_with_slash_never_matches (p : GoString) (l : Level)
    (path : GoString) :
  isLiteral p = true -> In "/"%char p ->
  modulePat_match (mkModulePat p (isLiteral p) l) (trimFile path) = false.
Proof.
  intros Hp Hin. apply not_true_is_false. intros H.
  rewrite (modulePat_match_literal p (trimFile path) (isLiteral p) l Hp) in H.
  apply streq_eq in H. apply (trimFile_no_slash path). rewrite H. exact Hin.
Qed.

Lemma literal_with_slash_never_matches_witness :
  modulePat_match (mkModulePat (str "pkg/abc") true 2)
    (trimFile (str "/src/pkg/abc.go")) = false.
Proof.
  apply (literal_with_slash_never_matches (str "pkg/abc") 2 (str "/src/pkg/abc.go")
           eq_refl).
  simpl. tauto.
Defined.

(** ** The directory of a call site *)

Lemma LastIndex_notin (s : GoString) (c : ascii) :
  ~ In c s -> strings.LastIndex s c = -1.
Proof.
  intros H. destruct (LastIndex_spec s c) as [[Hr _]|(d & b & -> & _)]; [exact Hr|].
  exfalso. apply H. rewrite in_app_iff. right. left. reflexivity.
Qed.

Lemma LastIndex_last (d b : GoString) (c : ascii) :
  ~ In c b -> strings.LastIndex (d ++ c :: b) c = len d.
Proof.
  intros Hb. induction d as [|x d IH]; cbn [app strings.LastIndex].
  - rewrite (LastIndex_notin b c Hb). cbn. rewrite Ascii.eqb_refl. reflexivity.
  - rewrite IH.
    replace (0 <=? len d) with true by (symmetry; apply Z.leb_le; unfold len; lia).
    unfold len. cbn [length]. lia.
Qed.

(** What [trimFile] does after the suffix: the bytes after the last
    ['/']. *)
Lemma trimFile_go (q : GoString) :
  trimFile (q ++ str ".go")
  = if 0 <=? strings.LastIndex q "/"
    then skipn (Z.to_nat (strings.LastIndex q "/" + 1)) q else q.
Proof.
  unfold trimFile.
  replace (strings.HasSuffix (q ++ str ".go") (str ".go")) with true
    by (symmetry; apply HasSuffix_spec; eauto).
  unfold len. rewrite length_app. cbn [str list_ascii_of_string length].
  replace (Z.to_nat _) with (length q + 0)%nat by lia.
  rewrite firstn_app_2. cbn [firstn]. rewrite app_nil_r. reflexivity.
Qed.

Lemma trimFile_not_go (s : GoString) :
  strings.HasSuffix s (str ".go") = false ->
  trimFile s
  = if 0 <=? strings.LastIndex s "/"
    then skipn (Z.to_nat (strings.LastIndex s "/" + 1)) s else s.
Proof. intros H. unfold trimFile. rewrite H. reflexivity. Qed.

Lemma afterSlash_dir (dir b : GoString) :
  ~ In "/"%char b ->
  (if 0 <=? strings.LastIndex (dir ++ "/"%char :: b) "/"
   then skipn (Z.to_nat (strings.LastIndex (dir ++ "/"%char :: b) "/" + 1))
          (dir ++ "/"%char :: b)
   else dir ++ "/"%char :: b) = b.
Proof.
  intros Hb. rewrite LastIndex_last by exact Hb.
  replace (0 <=? len dir) with true by (symmetry; apply Z.leb_le; unfold len; lia).
  unfold len. replace (Z.to_nat _) with (length dir + 1)%nat by lia.
  apply skipn_app_2.
Qed.

Lemma afterSlash_base (b : GoString) :
  ~ In "/"%char b ->
  (if 0 <=? strings.LastIndex b "/"
   then skipn (Z.to_nat (strings.LastIndex b "/" + 1)) b
   else b) = b.
Proof. intros Hb. rewrite LastIndex_notin by exact Hb. reflexivity. Qed.

Lemma HasSuffix_dir (dir base : GoString) :
  strings.HasSuffix (dir ++ "/"%char :: base) (str ".go")
  = strings.HasSuffix base (str ".go").
Proof.
  destruct (strings.HasSuffix base (str ".go")) eqn:E.
  - apply HasSuffix_spec in E as [q ->]. apply HasSuffix_spec.
    exists (dir ++ "/"%char :: q). rewrite <- app_assoc. reflexivity.
  - apply not_true_is_false. intros H. apply HasSuffix_spec in H as [q Hq].
    assert (Hb : strings.HasSuffix base (str ".go") = true); [|congruence].
    apply HasSuffix_spec.
    change (dir ++ "/"%char :: base) with (dir ++ [ "/"%char ] ++ base) in Hq.
    rewrite app_assoc in Hq.
    apply app_eq_app in Hq as [l [[H1 H2]|[H1 H2]]].
    + (* the suffix would reach over the separator *)
      destruct l as [|x l'].
      * exists []. cbn [app] in *. symmetry. exact H2.
      * exfalso.
        assert (Hin : In "/"%char (x :: l')).
        { assert (Hl : In "/"%char (q ++ x :: l')).
          { rewrite <- H1. rewrite in_app_iff. right. left. reflexivity. }
          destruct (exists_last (l := x :: l') ltac:(discriminate)) as (l0 & z & Ez).
          rewrite Ez in *. rewrite app_assoc in H1.
          apply app_inj_tail in H1 as [_ <-].
          rewrite in_app_iff. right. left. reflexivity. }
        assert (Hgo : In "/"%char (str ".go")).
        { rewrite H2. rewrite in_app_iff. left. exact Hin. }
        simpl in Hgo. intuition discriminate.
    + exists l. exact H2.
Qed.

(** X16.  The name of a call site does not depend on the directory of its
    file: two files of the same name in different directories are one
    and the same for the filter. *)
Theorem trimFile_ignores_directory (dir base : GoString) :
  ~ In "/"%char base ->
  trimFile (dir ++ str "/" ++ base) = trimFile base
  /\ forall filters, filterLevel filters (trimFile (dir ++ str "/" ++ base))
                     = filterLevel filters (trimFile base).
Proof.
  intros Hb.
  assert (E : trimFile (dir ++ str "/" ++ base) = trimFile base).
  { change (dir ++ str "/" ++ base) with (dir ++ "/"%char :: base).
    destruct (strings.HasSuffix base (str ".go")) eqn:Hs.
    - apply HasSuffix_spec in Hs as [q ->].
      assert (Hq : ~ In "/"%char q) by (rewrite in_app_iff in Hb; tauto).
      change (dir ++ "/"%char :: q ++ str ".go")
        with (dir ++ ("/"%char :: q) ++ str ".go").
      rewrite app_assoc, !trimFile_go.
      rewrite afterSlash_dir, afterSlash_base by exact Hq. reflexivity.
    - rewrite !trimFile_not_go by (rewrite ?HasSuffix_dir; exact Hs).
      rewrite afterSlash_dir, afterSlash_base by exact Hb. reflexivity. }
  split; [exact E|]. intros filters. rewrite E. reflexivity.
Qed.

Lemma trimFile_ignores_directory_witness :
  trimFile (str "/go/src/pkg1/util.go") = trimFile (str "util.go")
  /\ trimFile (str "/go/src/pkg2/util.go") = trimFile (str "util.go").
Proof.
  split.
  - exact (proj1 (trimFile_ignores_directory (str "/go/src/pkg1") (str "util.go")
                    ltac:(not_in))).
  - exact (proj1 (trimFile_ignores_directory (str "/go/src/pkg2") (str "util.go")
                    ltac:(not_in))).
Defined.

(** ** [strings.HasSuffix] and [strings.LastIndex] *)

(** X17.  [strings.HasSuffix(s, suffix)] tells whether [s] ends with
    [suffix], and [strings.LastIndex(s, c)] is the index of the last [c]
    of [s], -1 when there is none: what [vmoduleGet] relies on when it
    slices the file name. *)
Theorem HasSuffix_LastIndex_spec (s : GoString) :
  (forall suffix,
      strings.HasSuffix s suffix = true <-> exists q, s = q ++ suffix)
  /\ (forall c,
        -1 <= strings.LastIndex s c < len s
        /\ (strings.LastIndex s c = -1 <-> ~ In c s)
        /\ (forall d b, s = d ++ c :: b -> ~ In c b ->
              strings.LastIndex s c = len d))
  /\ (strings.HasSuffix s (str ".go") = true -> 0 <= len s - 3 <= len s).
Proof.
  split; [intros suffix; apply HasSuffix_spec|]. split.
  - intros c. split; [|split].
    + destruct (LastIndex_spec s c) as [[Hr _]|(d & b & -> & _ & Hr)];
        rewrite Hr; unfold len; [lia|].
      rewrite length_app. cbn [length]. lia.
    + split.
      * intros Hr Hin.
        destruct (LastIndex_spec s c) as [[_ Hn]|(d & b & _ & _ & Hr')]; [tauto|].
        rewrite Hr in Hr'. unfold len in Hr'. lia.
      * apply LastIndex_notin.
    + intros d b -> Hb. apply LastIndex_last, Hb.
  - intros H. apply HasSuffix_spec in H as [q ->]. unfold len.
    rewrite length_app. cbn [str list_ascii_of_string length]. lia.
Qed.
